(** * Frame construction and GPU-texture bookkeeping of azul

    A shallow embedding of the parts of [azul-core/gl.rs] and
    [azul/display_list.rs] that decide the texture registry, the GL
    shader constructor, the rendering order, the scroll-clip analysis and
    the text clip rectangle.

    Floating-point layout coordinates ([f32]) are modelled by rationals [Q];
    the code only adds, subtracts, compares and rounds them. *)

From Stdlib Require Import QArith Qround Qminmax Lqa ZArith List Bool Permutation.
From stdpp Require Import base gmap list fin_maps strings.
Import ListNotations.
Set Warnings "-register-all".


(* ================================================================== *)
(** ** Texture registry ([azul-core/gl.rs], lines 19-111) *)
(* ================================================================== *)

Module TextureRegistry.

(** [PipelineId], [Epoch] and [ExternalImageId] are integer newtypes,
    modelled by [nat] (the epoch wrap-around is a TODO in the source). *)

(** [struct Texture { texture_id: GLuint, size: LogicalSize, gl_context }];
    the shared GL context plays no role in the registry. *)
Record Texture := mkTexture {
  texture_id : N;
  size_width : Q;
  size_height : Q;
}.

(** [GlTextureStorage = FastHashMap<Epoch, FastHashMap<ExternalImageId, Texture>>]
    is [gmap nat (gmap nat Texture)]. *)

(** The process-wide state: [static mut ACTIVE_GL_TEXTURES] together with
    the counter behind [ExternalImageId::new()]. *)
Record GlGlobals := mkGlGlobals {
  next_external_image_id : nat;
  active_gl_textures : option (gmap nat (gmap nat (gmap nat Texture)));
}.

Definition initial_globals : GlGlobals := mkGlGlobals 0 None.

(** Modelled from the spec: [ExternalImageId::new()] (azul-core
    [app_resources], not in the sources) mints an opaque, globally unique
    id that is never reused; here a monotone counter. *)
Definition external_image_id_new (g : GlGlobals) : nat * GlGlobals :=
  (next_external_image_id g,
   mkGlGlobals (S (next_external_image_id g)) (active_gl_textures g)).

Definition insert_into_active_gl_textures
    (pipeline_id : nat) (epoch : nat) (texture : Texture) (g : GlGlobals)
    : nat * GlGlobals :=
  let '(external_image_id, g1) := external_image_id_new g in
  let active_textures := default ∅ (active_gl_textures g1) in
  let active_epochs := default ∅ (active_textures !! pipeline_id) in
  let active_textures_for_epoch := default ∅ (active_epochs !! epoch) in
  (external_image_id,
   mkGlGlobals (next_external_image_id g1)
     (Some (<[pipeline_id :=
              <[epoch := <[external_image_id := texture]> active_textures_for_epoch]>
                active_epochs]> active_textures))).

(** [Iterator::find_map] over a list, in iteration order. *)
Fixpoint find_map {A B} (f : A -> option B) (l : list A) : option B :=
  match l with
  | [] => None
  | x :: xs => match f x with Some y => Some y | None => find_map f xs end
  end.

(** [active_textures.values().flat_map(|p| p.values()).find_map(|e| e.get(key))],
    the hash-map iteration order being that of [map_to_list]. *)
Definition find_texture (active_textures : gmap nat (gmap nat (gmap nat Texture)))
    (image_key : nat) : option Texture :=
  find_map (fun pe : nat * gmap nat (gmap nat Texture) =>
              find_map (fun ee : nat * gmap nat Texture => ee.2 !! image_key)
                       (map_to_list pe.2))
           (map_to_list active_textures).

Definition get_opengl_texture (image_key : nat) (g : GlGlobals)
    : option (N * (Q * Q)) :=
  match active_gl_textures g with
  | None => None
  | Some active_textures =>
      option_map (fun tex => (texture_id tex, (size_width tex, size_height tex)))
                 (find_texture active_textures image_key)
  end.

Definition gl_textures_remove_active_pipeline (pipeline_id : nat) (g : GlGlobals)
    : GlGlobals :=
  match active_gl_textures g with
  | None => g
  | Some active_textures =>
      mkGlGlobals (next_external_image_id g) (Some (delete pipeline_id active_textures))
  end.

(** [active_epochs.retain(|gl_texture_epoch, _| *gl_texture_epoch > epoch)] *)
Definition gl_textures_remove_epochs_from_pipeline (pipeline_id : nat) (epoch : nat)
    (g : GlGlobals) : GlGlobals :=
  match active_gl_textures g with
  | None => g
  | Some active_textures =>
      match active_textures !! pipeline_id with
      | None => g
      | Some active_epochs =>
          mkGlGlobals (next_external_image_id g)
            (Some (<[pipeline_id :=
                     filter (fun kv : nat * gmap nat Texture => epoch < kv.1) active_epochs]>
                     active_textures))
      end
  end.

Definition gl_textures_clear_opengl_cache (g : GlGlobals) : GlGlobals :=
  mkGlGlobals (next_external_image_id g) None.

(** The states the registry can be in: built from the initial state by the
    four public operations. *)
Inductive reachable : GlGlobals -> Prop :=
  | reach_init : reachable initial_globals
  | reach_insert p e t g :
      reachable g -> reachable (insert_into_active_gl_textures p e t g).2
  | reach_remove_pipeline p g :
      reachable g -> reachable (gl_textures_remove_active_pipeline p g)
  | reach_remove_epochs p e g :
      reachable g -> reachable (gl_textures_remove_epochs_from_pipeline p e g)
  | reach_clear g :
      reachable g -> reachable (gl_textures_clear_opengl_cache g).

End TextureRegistry.

(* ================================================================== *)
(** ** Shader construction ([azul-core/gl.rs], [GlShader::new], lines 1434-1615) *)
(* ================================================================== *)

Module GlShaderModel.

Definition GL_TRUE : Z := 1.
Definition GL_VERTEX_SHADER : Z := 35633.
Definition GL_FRAGMENT_SHADER : Z := 35632.

(** What the driver answers: whether it has a shader compiler, the
    [COMPILE_STATUS] of a shader of a given type and source, the
    [LINK_STATUS] of a program made of two sources, and the info logs. *)
Record GlDriver := mkGlDriver {
  shader_compiler_supported : bool;
  compile_status : Z -> string -> Z;
  link_status : string -> string -> Z;
  shader_info_log : Z -> string -> string;
  program_info_log : string -> string -> string;
}.

(** GL objects: the next free name, the live (created, not yet deleted)
    shader and program names with the source they were built from. *)
Record GlContext := mkGlContext {
  gl_next_name : nat;
  gl_live_objects : gset nat;
}.

(** A small state monad for the calls on [gl_context]. *)
Definition GlM (A : Type) := GlContext -> A * GlContext.
Definition ret {A} (a : A) : GlM A := fun c => (a, c).
Definition bind {A B} (m : GlM A) (k : A -> GlM B) : GlM B :=
  fun c => let '(a, c') := m c in k a c'.
Local Notation "'let*' x := m 'in' k" := (bind m (fun x => k))
  (at level 200, x name, m at level 100, k at level 200).

(** [create_shader] / [create_program]: a fresh name, now live. *)
Definition gl_create_object : GlM nat :=
  fun c => (gl_next_name c, mkGlContext (S (gl_next_name c)) ({[gl_next_name c]} ∪ gl_live_objects c)).
Definition gl_delete_object (n : nat) : GlM unit :=
  fun c => (tt, mkGlContext (gl_next_name c) (gl_live_objects c ∖ {[n]})).

Record VertexShaderCompileError := mkVertexShaderCompileError { vs_error_id : Z; vs_info_log : string }.
Record FragmentShaderCompileError := mkFragmentShaderCompileError { fs_error_id : Z; fs_info_log : string }.
Inductive GlShaderCompileError :=
  | Vertex (e : VertexShaderCompileError)
  | Fragment (e : FragmentShaderCompileError).
Record GlShaderLinkError := mkGlShaderLinkError { link_error_id : Z; link_info_log : string }.
Inductive GlShaderCreateError :=
  | Compile (e : GlShaderCompileError)
  | Link (e : GlShaderLinkError)
  | NoShaderCompiler.

Record GlShader := mkGlShader { program_id : nat }.

(** [get_gl_shader_error] / [get_gl_program_error]. *)
Definition get_gl_error (err_code : Z) : option Z :=
  if Z.eqb err_code GL_TRUE then None else Some err_code.

(** [GlShader::new]; [debug_assertions] is the [#[cfg(debug_assertions)]]
    gate around the three status checks. *)
Definition gl_shader_new (debug_assertions : bool) (drv : GlDriver)
    (vertex_shader fragment_shader : string) : GlM (GlShader + GlShaderCreateError) :=
  if negb (shader_compiler_supported drv) then ret (inr NoShaderCompiler) else
  let* vertex_shader_object := gl_create_object in
  match (if debug_assertions
         then get_gl_error (compile_status drv GL_VERTEX_SHADER vertex_shader) else None) with
  | Some error_id =>
      let* _ := gl_delete_object vertex_shader_object in
      ret (inr (Compile (Vertex (mkVertexShaderCompileError error_id
                                   (shader_info_log drv GL_VERTEX_SHADER vertex_shader)))))
  | None =>
  let* fragment_shader_object := gl_create_object in
  match (if debug_assertions
         then get_gl_error (compile_status drv GL_FRAGMENT_SHADER fragment_shader) else None) with
  | Some error_id =>
      let* _ := gl_delete_object vertex_shader_object in
      let* _ := gl_delete_object fragment_shader_object in
      ret (inr (Compile (Fragment (mkFragmentShaderCompileError error_id
                                     (shader_info_log drv GL_FRAGMENT_SHADER fragment_shader)))))
  | None =>
  let* program_id := gl_create_object in
  match (if debug_assertions
         then get_gl_error (link_status drv vertex_shader fragment_shader) else None) with
  | Some error_id =>
      let* _ := gl_delete_object vertex_shader_object in
      let* _ := gl_delete_object fragment_shader_object in
      let* _ := gl_delete_object program_id in
      ret (inr (Link (mkGlShaderLinkError error_id
                        (program_info_log drv vertex_shader fragment_shader))))
  | None =>
      let* _ := gl_delete_object vertex_shader_object in
      let* _ := gl_delete_object fragment_shader_object in
      ret (inl (mkGlShader program_id))
  end end end.

(** A context whose live names were all handed out before [gl_next_name]. *)
Definition gl_context_wf (c : GlContext) : Prop :=
  forall n, n ∈ gl_live_objects c -> n < gl_next_name c.

End GlShaderModel.


(* ================================================================== *)
(** ** Rendering order ([azul/display_list.rs], lines 596-645) *)
(* ================================================================== *)

Module RenderingOrder.

(** [azul_css::LayoutPosition], default [Static]. *)
Inductive LayoutPosition := Static | Relative | Absolute.

Definition LayoutPosition_eqb (a b : LayoutPosition) : bool :=
  match a, b with
  | Static, Static | Relative, Relative | Absolute, Absolute => true
  | _, _ => false
  end.

(** [azul_css::CssPropertyValue<T>]. *)
Inductive CssPropertyValue (T : Type) :=
  | Auto | NoneValue | Initial | Inherit | Exact (v : T).
Arguments Auto {T}. Arguments NoneValue {T}. Arguments Initial {T}.
Arguments Inherit {T}. Arguments Exact {T} v.

(** Modelled from the spec: [CssPropertyValue::get_property_or_default]
    (azul_css, not in the sources) gives the exact value, the type's
    default for [auto] and [initial], and nothing otherwise; an unset or
    unresolved position falls back to [LayoutPosition::default()], which is
    not absolute. *)
Definition get_property_or_default {T} (default_value : T) (p : CssPropertyValue T) : option T :=
  match p with
  | Exact v => Some v
  | Auto | Initial => Some default_value
  | NoneValue | Inherit => None
  end.

(** The part of a [DisplayRectangle] read here: [layout.position]. *)
Record DisplayRectangle := mkDisplayRectangle {
  layout_position : option (CssPropertyValue LayoutPosition);
}.

(** Modelled from the spec: [NodeHierarchy] (crate [id_tree], not in the
    sources) gives, for a node id, its direct children in document order;
    here the children lists indexed by node id. *)
Definition NodeHierarchy := list (list nat).

Definition children (node_hierarchy : NodeHierarchy) (parent : nat) : list nat :=
  default [] (node_hierarchy !! parent).

(** [rectangles[id].layout.position.and_then(|p| p.get_property_or_default()).unwrap_or_default()] *)
Definition resolved_position (rectangles : list DisplayRectangle) (id : nat) : LayoutPosition :=
  default Static
    (match rectangles !! id with
     | Some r => match layout_position r with
                 | Some p => get_property_or_default Static p
                 | None => None
                 end
     | None => None
     end).

Definition is_absolute (rectangles : list DisplayRectangle) (id : nat) : bool :=
  LayoutPosition_eqb (resolved_position rectangles id) Absolute.

Definition sort_children_by_position (parent : nat) (node_hierarchy : NodeHierarchy)
    (rectangles : list DisplayRectangle) : list nat :=
  let not_absolute_children :=
    List.filter (fun id => negb (is_absolute rectangles id)) (children node_hierarchy parent) in
  let absolute_children :=
    List.filter (fun id => is_absolute rectangles id) (children node_hierarchy parent) in
  not_absolute_children ++ absolute_children.

(** Modelled from the spec: [get_parents_sorted_by_depth] lists every node
    that has at least one child (the depth order plays no role once the
    result is collected into a map). *)
Definition get_parents_sorted_by_depth (node_hierarchy : NodeHierarchy) : list nat :=
  List.filter (fun i => negb (Nat.eqb (length (children node_hierarchy i)) 0))
              (seq 0 (length node_hierarchy)).

(** [struct ContentGroup { root: NodeId, children: Vec<ContentGroup> }] *)
Inductive ContentGroup := mkContentGroup (root : nat) (group_children : list ContentGroup).

Definition cg_root (g : ContentGroup) : nat := let '(mkContentGroup r _) := g in r.
Definition cg_children (g : ContentGroup) : list ContentGroup :=
  let '(mkContentGroup _ cs) := g in cs.

(** [c.iter().map(..).collect()] followed by the loop over the new
    children: every child group must be filled. *)
Fixpoint map_option {A B} (f : A -> option B) (l : list A) : option (list B) :=
  match l with
  | [] => Some []
  | x :: xs =>
      match f x, map_option f xs with
      | Some y, Some ys => Some (y :: ys)
      | _, _ => None
      end
  end.

(** [fill_content_group_children]; the recursion of the source follows the
    tree, here it is bounded by [fuel] and fails ([None]) only when the
    hierarchy is deeper than the fuel. *)
Fixpoint fill_content_group_children (fuel : nat) (children_sorted : gmap nat (list nat))
    (root : nat) : option ContentGroup :=
  match fuel with
  | 0 => None
  | S fuel' =>
      match children_sorted !! root with
      | None => Some (mkContentGroup root [])   (* leaf node *)
      | Some c =>
          match map_option (fill_content_group_children fuel' children_sorted) c with
          | Some gs => Some (mkContentGroup root gs)
          | None => None
          end
      end
  end.

Definition determine_rendering_order (node_hierarchy : NodeHierarchy)
    (rectangles : list DisplayRectangle) : option ContentGroup :=
  let children_sorted : gmap nat (list nat) :=
    list_to_map (map (fun parent_id =>
                        (parent_id, sort_children_by_position parent_id node_hierarchy rectangles))
                     (get_parents_sorted_by_depth node_hierarchy)) in
  fill_content_group_children (S (length node_hierarchy)) children_sorted 0.

(** [g] occurs in the tree [t] (as [t] itself or below one of its children). *)
Inductive subgroup (g : ContentGroup) : ContentGroup -> Prop :=
  | subgroup_here : subgroup g g
  | subgroup_below r cs c : In c cs -> subgroup g c -> subgroup g (mkContentGroup r cs).

End RenderingOrder.

(* ================================================================== *)
(** ** Scroll-clip analysis ([azul/display_list.rs], lines 647-733) *)
(* ================================================================== *)

Module ScrollClip.

(** [azul_css::LayoutRect { origin: LayoutPoint, size: LayoutSize }], the
    [f32] fields as rationals. *)
Record LayoutRect := mkLayoutRect {
  origin_x : Q; origin_y : Q; size_width : Q; size_height : Q;
}.

(** [f32::round]: to the nearest integer, halves away from zero; then
    [as isize]. *)
Definition round (q : Q) : Z :=
  if Qle_bool 0 q then Qfloor (q + (1 # 2))%Q else (- Qfloor (- q + (1 # 2))%Q)%Z.

(** [contains_rect_rounded], as written: note that [a_y] and [b_y] are
    read from [origin.x]. *)
Definition contains_rect_rounded (a b : LayoutRect) : bool :=
  let a_x := round (origin_x a) in
  let a_y := round (origin_x a) in
  let a_width := round (size_width a) in
  let a_height := round (size_height a) in
  let b_x := round (origin_x b) in
  let b_y := round (origin_x b) in
  let b_width := round (size_width b) in
  let b_height := round (size_height b) in
  (a_x <=? b_x)%Z && (a_y <=? b_y)%Z &&
  (b_x + b_width <=? a_x + a_width)%Z && (b_y + b_height <=? a_y + a_height)%Z.


(** [LayoutRect::union] (azul_css, not in the sources): [None] for no
    rectangle; otherwise the smallest origin, with the width and height
    grown against the origin found so far, before it is moved. *)
Definition layout_rect_union (rects : list LayoutRect) : option LayoutRect :=
  match rects with
  | [] => None
  | first :: rest =>
      let '(max_width, max_height, min_x, min_y) :=
        fold_left (fun '(max_width, max_height, min_x, min_y) r =>
                     let cur_lower_right_x := (origin_x r + size_width r)%Q in
                     let cur_lower_right_y := (origin_y r + size_height r)%Q in
                     (Qmax max_width (cur_lower_right_x - min_x)%Q,
                      Qmax max_height (cur_lower_right_y - min_y)%Q,
                      Qmin min_x (origin_x r), Qmin min_y (origin_y r)))
                  rest (size_width first, size_height first, origin_x first, origin_y first) in
      Some (mkLayoutRect min_x min_y max_width max_height)
  end.

(** [LayoutRect::get_scroll_rect] (azul_css, not in the sources): the
    union of the children, then the union of the receiver (the parent's
    bounds) with it; [None] for a node without children. *)
Definition get_scroll_rect (self : LayoutRect) (children : list LayoutRect) : option LayoutRect :=
  match layout_rect_union children with
  | None => None
  | Some children_union => layout_rect_union [self; children_union]
  end.



(** [children.map(|child_id| layouted_rects[child_id].bounds)], failing on
    an index out of range. *)
Fixpoint map_option_list {A B} (f : A -> option B) (l : list A) : option (list B) :=
  match l with
  | [] => Some []
  | x :: xs =>
      match f x, map_option_list f xs with
      | Some y, Some ys => Some (y :: ys)
      | _, _ => None
      end
  end.

(** [azul_css::Overflow]. *)
Inductive Overflow := Scroll | Auto | Hidden | Visible.

(** The fields of a [PositionedRectangle] read here. *)
Record PositionedRectangle := mkPositionedRectangle {
  bounds : LayoutRect;
  overflow : Overflow;
}.

(** [ExternalScrollId(u64, PipelineId)]. *)
Record ExternalScrollId := mkExternalScrollId { scroll_hash : Z; scroll_pipeline : nat }.

Record OverflowingScrollNode := mkOverflowingScrollNode {
  child_rect : LayoutRect;
  parent_external_scroll_id : ExternalScrollId;
  parent_dom_hash : Z;
  scroll_tag_id : nat;
}.

Record ScrolledNodes := mkScrolledNodes {
  overflowing_nodes : gmap nat OverflowingScrollNode;
  tags_to_node_ids : gmap nat nat;
}.

Section Analyzer.

(** [NodeData<T>] and its [calculate_node_data_hash] (azul-core [dom], not
    in the sources): any type with a hash function of its contents. *)
Context {NodeData : Type} (calculate_node_data_hash : NodeData -> Z).

(** One iteration of the loop over [parents]; the state carries the two
    result maps and the counter behind [ScrollTagId::new()]. Indexing a
    node container out of range panics: [None]. *)
Definition scroll_clip_step (node_hierarchy : list (list nat))
    (display_list_tags : list (option nat)) (dom_rects : list NodeData)
    (layouted_rects : list PositionedRectangle) (pipeline_id : nat)
    (st : option (ScrolledNodes * nat)) (parent : nat) : option (ScrolledNodes * nat) :=
  match st with
  | None => None
  | Some (sn, next_tag) =>
  match layouted_rects !! parent with
  | None => None
  | Some parent_rect =>
  match map_option_list (fun child_id => bounds <$> layouted_rects !! child_id)
          (default [] (node_hierarchy !! parent)) with
  | None => None
  | Some child_bounds =>
  match get_scroll_rect (bounds parent_rect) child_bounds with
  | None => Some (sn, next_tag)
  | Some children_scroll_rect =>
  if contains_rect_rounded (bounds parent_rect) children_scroll_rect then Some (sn, next_tag) else
  match overflow parent_rect with
  | Visible | Hidden => Some (sn, next_tag)
  | _ =>
  match dom_rects !! parent with
  | None => None
  | Some node =>
      let parent_dom_hash := calculate_node_data_hash node in
      let parent_external_scroll_id := mkExternalScrollId parent_dom_hash pipeline_id in
      let '(scroll_tag_id, next_tag') :=
        match mjoin (display_list_tags !! parent) with
        | Some existing_tag => (existing_tag, next_tag)
        | None => (next_tag, S next_tag)
        end in
      Some (mkScrolledNodes
              (<[parent := mkOverflowingScrollNode children_scroll_rect
                             parent_external_scroll_id parent_dom_hash scroll_tag_id]>
                 (overflowing_nodes sn))
              (<[scroll_tag_id := parent]> (tags_to_node_ids sn)),
            next_tag')
  end end end end end end.

(** [get_nodes_that_need_scroll_clip]; [parents] are the [(depth, id)]
    pairs of the layout result, [next_tag] the [ScrollTagId] counter. *)
Definition get_nodes_that_need_scroll_clip (node_hierarchy : list (list nat))
    (display_list_tags : list (option nat)) (dom_rects : list NodeData)
    (layouted_rects : list PositionedRectangle) (parents : list (nat * nat))
    (pipeline_id : nat) (next_tag : nat) : option (ScrolledNodes * nat) :=
  fold_left (fun st '(_, parent) =>
               scroll_clip_step node_hierarchy display_list_tags dom_rects
                                layouted_rects pipeline_id st parent)
            parents (Some (mkScrolledNodes ∅ ∅, next_tag)).

End Analyzer.

End ScrollClip.

(* ================================================================== *)
(** ** Text clip rectangle ([azul/display_list.rs], lines 991-1048) *)
(* ================================================================== *)

Module TextClip.
Import ScrollClip.
Import RenderingOrder.

(** [ResolvedOffsets { top, left, right, bottom }]. *)
Record ResolvedOffsets := mkResolvedOffsets {
  pad_top : Q; pad_left : Q; pad_right : Q; pad_bottom : Q;
}.

(** [LayoutSize { width, height }]. *)
Record LayoutSize := mkLayoutSize { ls_width : Q; ls_height : Q }.

(** The part of [RectLayout] read here. *)
Record RectLayout := mkRectLayout {
  overflow_x : option (CssPropertyValue Overflow);
  overflow_y : option (CssPropertyValue Overflow);
}.

(** Modelled from the spec: [RectLayout::is_horizontal_overflow_visible]
    and [is_vertical_overflow_visible] (azul_css, not in the sources) tell
    whether [overflow-x] resp. [overflow-y] resolves to [visible]; an unset
    value takes [Overflow::default()], [auto]. *)
Definition overflow_is_visible (o : option (CssPropertyValue Overflow)) : bool :=
  match default ScrollClip.Auto
          (match o with Some p => get_property_or_default ScrollClip.Auto p | None => None end) with
  | Visible => true
  | _ => false
  end.
Definition is_horizontal_overflow_visible (l : RectLayout) : bool := overflow_is_visible (overflow_x l).
Definition is_vertical_overflow_visible (l : RectLayout) : bool := overflow_is_visible (overflow_y l).

(** [subtract_padding]. *)
Definition subtract_padding (bounds : LayoutRect) (padding : ResolvedOffsets) : LayoutRect :=
  mkLayoutRect
    (origin_x bounds + pad_left padding)
    (origin_y bounds + pad_top padding)
    (size_width bounds - (pad_right padding + pad_left padding))
    (size_height bounds - (pad_top padding + pad_bottom padding)).

(** [LayoutRectContent::Text { glyphs, font_instance_key, color, glyph_options: None, clip }]. *)
Record TextContent := mkTextContent {
  text_glyphs : list nat;
  text_font_instance_key : nat;
  text_color : nat;
  text_clip : option LayoutRect;
}.

(** [get_text], as written: the vertical flag is read with
    [is_horizontal_overflow_visible]. *)
Definition get_text (bounds : LayoutRect) (padding : ResolvedOffsets)
    (root_window_size : LayoutSize) (layouted_glyphs : list nat)
    (font_instance_key : nat) (font_color : nat) (rect_layout : RectLayout) : TextContent :=
  let overflow_horizontal_visible := is_horizontal_overflow_visible rect_layout in
  let overflow_vertical_visible := is_horizontal_overflow_visible rect_layout in
  let padding_clip_bounds := subtract_padding bounds padding in
  let text_clip_rect :=
    match overflow_horizontal_visible, overflow_vertical_visible with
    | true, true => None
    | false, false => Some padding_clip_bounds
    | true, false =>
        Some (mkLayoutRect (origin_x bounds) (origin_y bounds)
                (ls_width root_window_size) (size_height padding_clip_bounds))
    | false, true =>
        Some (mkLayoutRect (origin_x bounds) (origin_y bounds)
                (size_width padding_clip_bounds) (ls_height root_window_size))
    end in
  mkTextContent layouted_glyphs font_instance_key font_color text_clip_rect.

(** [node_needs_to_clip_children]. *)
Definition node_needs_to_clip_children (layout : RectLayout) : bool :=
  negb (is_horizontal_overflow_visible layout || is_vertical_overflow_visible layout).

End TextClip.

(* ================================================================== *)
(** ** Dynamic CSS overrides ([azul/display_list.rs], lines 1050-1093) *)
(* ================================================================== *)

Module CssOverrides.

Section Populate.

(** [CssProperty], its [mem::discriminant], and the rectangle's style and
    layout ([RectStyle] and [RectLayout]) with [apply_style_property]. *)
Context {CssProperty Rect : Type}.
Context (discriminant : CssProperty -> nat).
Context (apply_style_property : Rect -> CssProperty -> Rect).

Record DynamicCssProperty := mkDynamicCssProperty {
  dynamic_id : string;
  default_value : CssProperty;
}.

(** [azul_css::CssDeclaration]. *)
Inductive CssDeclaration :=
  | Static (static_property : CssProperty)
  | Dynamic (dynamic_property : DynamicCssProperty).

Record OverrideWarning := mkOverrideWarning {
  warning_default : CssProperty;
  overridden_property : CssProperty;
}.

(** [css_overrides.get(&node_id).and_then(|o| o.get(&dynamic_id))] *)
Definition lookup_override (css_overrides : gmap nat (gmap string CssProperty))
    (node_id : nat) (id : string) : option CssProperty :=
  css_overrides !! node_id ≫= fun overrides => overrides !! id.

(** [populate_css_properties]: the [filter_map] over the constraints, its
    closure mutating the rectangle; returns the rectangle and the
    collected warnings. *)
Definition populate_css_properties (rect : Rect) (node_id : nat)
    (css_overrides : gmap nat (gmap string CssProperty))
    (css_constraints : list CssDeclaration) : Rect * list OverrideWarning :=
  fold_left
    (fun '(r, warnings) constraint =>
       match constraint with
       | Static static_property => (apply_style_property r static_property, warnings)
       | Dynamic dynamic_property =>
           match lookup_override css_overrides node_id (dynamic_id dynamic_property) with
           | None => (r, warnings)
           | Some overridden_property =>
               if Nat.eqb (discriminant overridden_property)
                          (discriminant (default_value dynamic_property))
               then (apply_style_property r overridden_property, warnings)
               else (r, warnings ++ [mkOverrideWarning (default_value dynamic_property)
                                                       overridden_property])
           end
       end)
    css_constraints (rect, []).

(** A constraint whose dynamic override exists for the node but has a
    different discriminant than the declared default. *)
Definition is_mismatched_override (css_overrides : gmap nat (gmap string CssProperty))
    (node_id : nat) (c : CssDeclaration) : bool :=
  match c with
  | Static _ => false
  | Dynamic dp =>
      match lookup_override css_overrides node_id (dynamic_id dp) with
      | Some v => negb (Nat.eqb (discriminant v) (discriminant (default_value dp)))
      | None => false
      end
  end.

End Populate.

End CssOverrides.

(* ================================================================== *)
(** ** GL-texture callbacks ([azul/display_list.rs], lines 387-412) *)
(* ================================================================== *)

Module GlCallbacks.

(** The GL state the callbacks may disturb. *)
Record GlState := mkGlState {
  framebuffer_binding : nat;
  framebuffer_srgb : bool;
  multisample : bool;
}.

Definition bind_framebuffer (fb : nat) (s : GlState) : GlState :=
  mkGlState fb (framebuffer_srgb s) (multisample s).
Definition disable_framebuffer_srgb (s : GlState) : GlState :=
  mkGlState (framebuffer_binding s) false (multisample s).
Definition disable_multisample (s : GlState) : GlState :=
  mkGlState (framebuffer_binding s) (framebuffer_srgb s) false.

(** A [GlCallback]: runs on the GL state, may return a texture. *)
Definition GlCallback (Texture : Type) := GlState -> GlState * option Texture.

Section Loop.
Context {Texture : Type}.

(** One iteration of [for (node_id, cb, ptr) in gltexture_callbacks]: call
    the callback, reset framebuffer, SRGB and multisampling, then store
    the texture if there is one. Also returns the state the callback was
    called with. *)
Definition gltexture_step (st : GlState) (solved : gmap nat Texture)
    (node_id : nat) (cb : GlCallback Texture) : GlState * GlState * gmap nat Texture :=
  let '(st1, tex) := cb st in
  let st2 := disable_multisample (disable_framebuffer_srgb (bind_framebuffer 0 st1)) in
  let solved' := match tex with
                 | Some t => <[node_id := t]> solved
                 | None => solved
                 end in
  (st, st2, solved').

(** The whole loop; the trace lists, for every callback in order, the
    state it was called with and the state when the loop moves on. *)
Fixpoint gltexture_loop (st : GlState) (solved : gmap nat Texture)
    (callbacks : list (nat * GlCallback Texture))
    : GlState * gmap nat Texture * list (GlState * GlState) :=
  match callbacks with
  | [] => (st, solved, [])
  | (node_id, cb) :: rest =>
      let '(st_in, st_out, solved') := gltexture_step st solved node_id cb in
      let '(st_end, solved_end, trace) := gltexture_loop st_out solved' rest in
      (st_end, solved_end, (st_in, st_out) :: trace)
  end.

End Loop.

(** The clean baseline: default framebuffer, SRGB and multisampling off. *)
Definition clean (s : GlState) : Prop :=
  framebuffer_binding s = 0 /\ framebuffer_srgb s = false /\ multisample s = false.

End GlCallbacks.

(* ================================================================== *)
(** ** GL draw calls ([azul-core/gl.rs], lines 1110-1432 and 1616-1749) *)
(* ================================================================== *)

Module GlDraw.

(** The GL enums used here, with the values of the [gl] bindings. *)
Definition GL_TRUE : N := 1.
Definition MULTISAMPLE : N := 0x809D.
Definition ARRAY_BUFFER : N := 0x8892.
Definition ELEMENT_ARRAY_BUFFER : N := 0x8893.
Definition ARRAY_BUFFER_BINDING : N := 0x8894.
Definition ELEMENT_ARRAY_BUFFER_BINDING : N := 0x8895.
Definition CURRENT_PROGRAM : N := 0x8B8D.
Definition VERTEX_ARRAY_BINDING : N := 0x85B5.
Definition RENDERBUFFER : N := 0x8D41.
Definition FRAMEBUFFER : N := 0x8D40.
Definition TEXTURE_2D : N := 0x0DE1.
Definition RGBA : N := 0x1908.
Definition TEXTURE_MAG_FILTER : N := 0x2800.
Definition TEXTURE_MIN_FILTER : N := 0x2801.
Definition TEXTURE_WRAP_S : N := 0x2802.
Definition TEXTURE_WRAP_T : N := 0x2803.
Definition NEAREST : N := 0x2600.
Definition CLAMP_TO_EDGE : N := 0x812F.
Definition DEPTH_COMPONENT : N := 0x1902.
Definition DEPTH_ATTACHMENT : N := 0x8D00.
Definition COLOR_ATTACHMENT0 : N := 0x8CE0.
Definition FRAMEBUFFER_COMPLETE : N := 0x8CD5.
Definition COLOR_BUFFER_BIT : N := 0x4000.
Definition DEPTH_BUFFER_BIT : N := 0x100.
Definition FLOAT : N := 0x1406.
Definition DOUBLE : N := 0x140A.
Definition UNSIGNED_BYTE : N := 0x1401.
Definition UNSIGNED_SHORT : N := 0x1403.
Definition UNSIGNED_INT : N := 0x1405.
Definition POINTS : N := 0x0000.
Definition LINES : N := 0x0001.
Definition LINE_STRIP : N := 0x0003.
Definition TRIANGLES : N := 0x0004.
Definition TRIANGLE_STRIP : N := 0x0005.
Definition TRIANGLE_FAN : N := 0x0006.

(** Rust's [as] casts between the integer types ([GLuint] and [GLenum]
    are [u32], [GLint] and [GLsizei] are [i32], [usize] is an [N] below
    [2 ^ 64]). *)
Definition i32_as_u32 (x : Z) : N := Z.to_N (x mod 2 ^ 32)%Z.
Definition u32_as_i32 (x : N) : Z :=
  let m := ((Z.of_N x) mod 2 ^ 32)%Z in if Z.ltb m (2 ^ 31) then m else (m - 2 ^ 32)%Z.
Definition usize_as_i32 (n : N) : Z :=
  let m := Z.of_N (n mod 2 ^ 32) in if Z.ltb m (2 ^ 31) then m else (m - 2 ^ 32)%Z.
Definition usize_as_u32 (n : N) : N := (n mod 2 ^ 32)%N.
(** [f32 as i32]: truncation towards zero, saturating at the bounds. *)
Definition f32_as_i32 (q : Q) : Z :=
  let t := if Qle_bool 0 q then Qfloor q else Qceiling q in
  Z.max (- 2 ^ 31) (Z.min (2 ^ 31 - 1) t)%Z.

(** [UniformType]; the [f32] fields as [Q], the arrays as lists. *)
Inductive UniformType :=
  | Float (r : Q)
  | FloatVec2 (r g : Q)
  | FloatVec3 (r g b : Q)
  | FloatVec4 (r g b a : Q)
  | Int (r : Z)
  | IntVec2 (r g : Z)
  | IntVec3 (r g b : Z)
  | IntVec4 (r g b a : Z)
  | UnsignedInt (r : N)
  | UnsignedIntVec2 (r g : N)
  | UnsignedIntVec3 (r g b : N)
  | UnsignedIntVec4 (r g b a : N)
  | Matrix2 (transpose : bool) (matrix : list Q)
  | Matrix3 (transpose : bool) (matrix : list Q)
  | Matrix4 (transpose : bool) (matrix : list Q).

Fixpoint list_eqb {A} (eqb : A -> A -> bool) (l1 l2 : list A) : bool :=
  match l1, l2 with
  | [], [] => true
  | x :: l1', y :: l2' => eqb x y && list_eqb eqb l1' l2'
  | _, _ => false
  end.

(** The derived [PartialEq] of [UniformType]: same variant, fields equal
    by [f32] / integer / [bool] equality. *)
Definition uniform_type_eqb (u v : UniformType) : bool :=
  match u, v with
  | Float r, Float r' => Qeq_bool r r'
  | FloatVec2 r g, FloatVec2 r' g' => Qeq_bool r r' && Qeq_bool g g'
  | FloatVec3 r g b, FloatVec3 r' g' b' => Qeq_bool r r' && Qeq_bool g g' && Qeq_bool b b'
  | FloatVec4 r g b a, FloatVec4 r' g' b' a' =>
      Qeq_bool r r' && Qeq_bool g g' && Qeq_bool b b' && Qeq_bool a a'
  | Int r, Int r' => Z.eqb r r'
  | IntVec2 r g, IntVec2 r' g' => Z.eqb r r' && Z.eqb g g'
  | IntVec3 r g b, IntVec3 r' g' b' => Z.eqb r r' && Z.eqb g g' && Z.eqb b b'
  | IntVec4 r g b a, IntVec4 r' g' b' a' => Z.eqb r r' && Z.eqb g g' && Z.eqb b b' && Z.eqb a a'
  | UnsignedInt r, UnsignedInt r' => N.eqb r r'
  | UnsignedIntVec2 r g, UnsignedIntVec2 r' g' => N.eqb r r' && N.eqb g g'
  | UnsignedIntVec3 r g b, UnsignedIntVec3 r' g' b' => N.eqb r r' && N.eqb g g' && N.eqb b b'
  | UnsignedIntVec4 r g b a, UnsignedIntVec4 r' g' b' a' =>
      N.eqb r r' && N.eqb g g' && N.eqb b b' && N.eqb a a'
  | Matrix2 t m, Matrix2 t' m' => Bool.eqb t t' && list_eqb Qeq_bool m m'
  | Matrix3 t m, Matrix3 t' m' => Bool.eqb t t' && list_eqb Qeq_bool m m'
  | Matrix4 t m, Matrix4 t' m' => Bool.eqb t t' && list_eqb Qeq_bool m m'
  | _, _ => false
  end.

(** [Option<UniformType>]'s [PartialEq]. *)
Definition option_uniform_type_eqb (u v : option UniformType) : bool :=
  match u, v with
  | None, None => true
  | Some u, Some v => uniform_type_eqb u v
  | _, _ => false
  end.

(** [Uniform { name, uniform_type }]. *)
Record Uniform := mkUniform { uniform_name : string; uniform_type : UniformType }.

(** The [uniform_*] methods of the [Gl] trait. *)
Inductive UniformCall :=
  | Uniform1f (v0 : Q)
  | Uniform2f (v0 v1 : Q)
  | Uniform3f (v0 v1 v2 : Q)
  | Uniform4f (x y z w : Q)
  | Uniform1i (v0 : Z)
  | Uniform2i (v0 v1 : Z)
  | Uniform3i (v0 v1 v2 : Z)
  | Uniform4i (x y z w : Z)
  | Uniform1ui (v0 : N)
  | Uniform2ui (v0 v1 : N)
  | Uniform3ui (v0 v1 v2 : N)
  | Uniform4ui (x y z w : N)
  | UniformMatrix2fv (transpose : bool) (value : list Q)
  | UniformMatrix3fv (transpose : bool) (value : list Q)
  | UniformMatrix4fv (transpose : bool) (value : list Q).

(** [UniformType::set]: the call it makes on the context. *)
Definition uniform_type_set (u : UniformType) : UniformCall :=
  match u with
  | Float r => Uniform1f r
  | FloatVec2 r g => Uniform2f r g
  | FloatVec3 r g b => Uniform3f r g b
  | FloatVec4 r g b a => Uniform4f r g b a
  | Int r => Uniform1i r
  | IntVec2 r g => Uniform2i r g
  | IntVec3 r g b => Uniform3i r g b
  | IntVec4 r g b a => Uniform4i r g b a
  | UnsignedInt r => Uniform1ui r
  | UnsignedIntVec2 r g => Uniform2ui r g
  | UnsignedIntVec3 r g b => Uniform3ui r g b
  | UnsignedIntVec4 r g b a => Uniform4ui r g b a
  | Matrix2 transpose matrix => UniformMatrix2fv transpose matrix
  | Matrix3 transpose matrix => UniformMatrix2fv transpose matrix
  | Matrix4 transpose matrix => UniformMatrix2fv transpose matrix
  end.

(** The calls on [gl_context] made by the code below, with the answers of
    the queries and the names handed out by the [gen_*] calls. *)
Inductive GlCall :=
  | GetBooleanV (name : N) (result : N)
  | GetIntegerV (name : N) (result : Z)
  | GenTextures (texture : N)
  | GenFramebuffers (framebuffer : N)
  | GenRenderbuffers (renderbuffer : N)
  | BindFramebuffer (target framebuffer : N)
  | BindTexture (target texture : N)
  | TexImage2D (target : N) (level internal_format width height border : Z) (format ty : N)
  | TexParameterI (target pname : N) (param : Z)
  | BindRenderbuffer (target renderbuffer : N)
  | RenderbufferStorage (target internalformat : N) (width height : Z)
  | FramebufferRenderbuffer (target attachment renderbuffertarget renderbuffer : N)
  | FramebufferTexture2D (target attachment textarget texture : N) (level : Z)
  | DrawBuffers (bufs : list N)
  | Viewport (x y width height : Z)
  | CheckFrameBufferStatus (target : N) (result : N)
  | UseProgram (program : N)
  | Enable (cap : N)
  | Disable (cap : N)
  | GetUniformLocation (program : N) (name : string) (result : Z)
  | ClearColor (r g b a : Q)
  | ClearDepth (depth : Q)
  | Clear (buffer_mask : N)
  | BindVertexArray (vao : N)
  | BindBuffer (target buffer : N)
  | SetUniform (location : Z) (call : UniformCall)
  | DrawElements (mode : N) (count : Z) (element_type : N) (indices_offset : N)
  | DeleteFramebuffers (framebuffers : list N)
  | DeleteRenderbuffers (renderbuffers : list N)
  | GetAttribLocation (program : N) (name : string) (result : Z)
  | VertexAttribPointer (index : N) (size : Z) (type_ : N) (normalized : bool)
                        (stride : Z) (offset : N)
  | EnableVertexAttribArray (index : N)
  | DisableVertexAttribArray (index : N).

(** What the driver answers to the queries made here. *)
Record GlDriver := mkGlDriver {
  get_boolean_v : N -> N;
  get_integer_v : N -> Z;
  get_uniform_location : N -> string -> Z;
  get_attrib_location : N -> string -> Z;
  check_frame_buffer_status : N -> N;
}.

(** The names the context hands out next, one sequence per kind of
    object: GL names textures, framebuffers and renderbuffers separately. *)
Record GlNames := mkGlNames {
  next_texture : N;
  next_framebuffer : N;
  next_renderbuffer : N;
}.

(** Calls on the context: the names handed out so far go in, the calls
    made come out; [None] is a panic. *)
Definition GlM (A : Type) := GlNames -> option (A * GlNames * list GlCall).
Definition ret {A} (a : A) : GlM A := fun n => Some (a, n, []).
Definition panic {A} : GlM A := fun _ => None.
Definition bind {A B} (m : GlM A) (k : A -> GlM B) : GlM B :=
  fun n => match m n with
           | None => None
           | Some (a, n1, l1) =>
               match k a n1 with
               | None => None
               | Some (b, n2, l2) => Some (b, n2, l1 ++ l2)
               end
           end.
Local Notation "'let*' x := m 'in' k" := (bind m (fun x => k))
  (at level 200, x name, m at level 100, k at level 200).

Definition emit (c : GlCall) : GlM unit := fun n => Some (tt, n, [c]).
(** [gen_textures(1)[0]], [gen_framebuffers(1)[0]] and
    [gen_renderbuffers(1)[0]]: a name of that kind not handed out before. *)
Definition gen_texture : GlM N := fun n =>
  Some (next_texture n,
        mkGlNames (N.succ (next_texture n)) (next_framebuffer n) (next_renderbuffer n),
        [GenTextures (next_texture n)]).
Definition gen_framebuffer : GlM N := fun n =>
  Some (next_framebuffer n,
        mkGlNames (next_texture n) (N.succ (next_framebuffer n)) (next_renderbuffer n),
        [GenFramebuffers (next_framebuffer n)]).
Definition gen_renderbuffer : GlM N := fun n =>
  Some (next_renderbuffer n,
        mkGlNames (next_texture n) (next_framebuffer n) (N.succ (next_renderbuffer n)),
        [GenRenderbuffers (next_renderbuffer n)]).

(** A [usize] sum or product: with debug assertions an overflow panics,
    without them it wraps around. *)
Definition usize_checked (debug_assertions : bool) (v : N) : GlM N :=
  if N.ltb v (2 ^ 64) then ret v
  else if debug_assertions then panic else ret (v mod 2 ^ 64)%N.

Section Calls.
Context (drv : GlDriver).

Definition gl_get_boolean_v (name : N) : GlM N :=
  let result := get_boolean_v drv name in
  let* _ := emit (GetBooleanV name result) in ret result.
Definition gl_get_integer_v (name : N) : GlM Z :=
  let result := get_integer_v drv name in
  let* _ := emit (GetIntegerV name result) in ret result.
Definition gl_get_uniform_location (program : N) (name : string) : GlM Z :=
  let result := get_uniform_location drv program name in
  let* _ := emit (GetUniformLocation program name result) in ret result.
Definition gl_get_attrib_location (program : N) (name : string) : GlM Z :=
  let result := get_attrib_location drv program name in
  let* _ := emit (GetAttribLocation program name result) in ret result.
Definition gl_check_frame_buffer_status (target : N) : GlM N :=
  let result := check_frame_buffer_status drv target in
  let* _ := emit (CheckFrameBufferStatus target result) in ret result.

(** [VertexAttributeType] with [get_gl_id] and [get_mem_size]. *)
Inductive VertexAttributeType := AttrFloat | AttrDouble | AttrUnsignedByte
                               | AttrUnsignedShort | AttrUnsignedInt.

Definition get_gl_id (t : VertexAttributeType) : N :=
  match t with
  | AttrFloat => FLOAT
  | AttrDouble => DOUBLE
  | AttrUnsignedByte => UNSIGNED_BYTE
  | AttrUnsignedShort => UNSIGNED_SHORT
  | AttrUnsignedInt => UNSIGNED_INT
  end.

Definition get_mem_size (t : VertexAttributeType) : N :=
  match t with
  | AttrFloat => 4
  | AttrDouble => 8
  | AttrUnsignedByte => 1
  | AttrUnsignedShort => 2
  | AttrUnsignedInt => 4
  end.

(** [VertexAttribute { name, layout_location, attribute_type, item_count }]. *)
Record VertexAttribute := mkVertexAttribute {
  attribute_name : string;
  layout_location : option N;
  attribute_type : VertexAttributeType;
  item_count : N;
}.

(** [VertexAttribute::get_stride]: [get_mem_size() * item_count]. *)
Definition get_stride (debug_assertions : bool) (a : VertexAttribute) : GlM N :=
  usize_checked debug_assertions (get_mem_size (attribute_type a) * item_count a).

(** [self.fields.iter().map(VertexAttribute::get_stride).sum()], from the
    running sum [acc]. *)
Fixpoint stride_sum (debug_assertions : bool) (acc : N) (fields : list VertexAttribute) : GlM N :=
  match fields with
  | [] => ret acc
  | vertex_attribute :: rest =>
      let* stride := get_stride debug_assertions vertex_attribute in
      let* acc' := usize_checked debug_assertions (acc + stride) in
      stride_sum debug_assertions acc' rest
  end.

(** [vertex_attribute.layout_location.map(|ll| ll as i32)
    .unwrap_or_else(|| gl_context.get_attrib_location(..))]. *)
Definition attribute_location (program : N) (a : VertexAttribute) : GlM Z :=
  match layout_location a with
  | Some ll => ret (usize_as_i32 ll)
  | None => gl_get_attrib_location program (attribute_name a)
  end.

(** The loop of [VertexLayout::bind], from the running [offset]. *)
Fixpoint bind_fields (debug_assertions : bool) (program : N) (stride_between_vertices offset : N)
    (fields : list VertexAttribute) : GlM unit :=
  match fields with
  | [] => ret tt
  | vertex_attribute :: rest =>
      let* loc := attribute_location program vertex_attribute in
      let* _ := emit (VertexAttribPointer (i32_as_u32 loc)
                        (usize_as_i32 (item_count vertex_attribute))
                        (get_gl_id (attribute_type vertex_attribute)) false
                        (usize_as_i32 stride_between_vertices) (usize_as_u32 offset)) in
      let* _ := emit (EnableVertexAttribArray (i32_as_u32 loc)) in
      let* stride := get_stride debug_assertions vertex_attribute in
      let* offset' := usize_checked debug_assertions (offset + stride) in
      bind_fields debug_assertions program stride_between_vertices offset' rest
  end.

(** [VertexLayout::bind]; [program] is [shader.program_id]. *)
Definition vertex_layout_bind (debug_assertions : bool) (program : N)
    (fields : list VertexAttribute) : GlM unit :=
  let* stride_between_vertices := stride_sum debug_assertions 0 fields in
  bind_fields debug_assertions program stride_between_vertices 0 fields.

(** [VertexLayout::unbind]. *)
Fixpoint vertex_layout_unbind (program : N) (fields : list VertexAttribute) : GlM unit :=
  match fields with
  | [] => ret tt
  | vertex_attribute :: rest =>
      let* loc := attribute_location program vertex_attribute in
      let* _ := emit (DisableVertexAttribArray (i32_as_u32 loc)) in
      vertex_layout_unbind program rest
  end.

(** [IndexBufferFormat] with [get_gl_id]. *)
Inductive IndexBufferFormat := Points | Lines | LineStrip | Triangles | TriangleStrip | TriangleFan.

Definition index_buffer_format_gl_id (f : IndexBufferFormat) : N :=
  match f with
  | Points => POINTS
  | Lines => LINES
  | LineStrip => LINE_STRIP
  | Triangles => TRIANGLES
  | TriangleStrip => TRIANGLE_STRIP
  | TriangleFan => TRIANGLE_FAN
  end.

(** The fields of a [VertexBuffer] that [draw] reads. *)
Record VertexBuffer := mkVertexBuffer {
  vao_id : N;
  index_buffer_id : N;
  index_buffer_len : N;
  index_buffer_format : IndexBufferFormat;
}.

(** [LogicalSize] and [ColorU { r, g, b, a }]. *)
Record LogicalSize := mkLogicalSize { width : Q; height : Q }.
Record ColorU := mkColorU { red : N; green : N; blue : N; alpha : N }.

(** [ColorF::from(ColorU)] (azul_css): each channel divided by 255. *)
Definition color_channel (c : N) : Q := inject_Z (Z.of_N c) / 255.

(** The inner loop filling [uniform_locations]. *)
Fixpoint collect_uniform_locations (program : N) (uniform_locations : gmap string Z)
    (uniforms : list Uniform) : GlM (gmap string Z) :=
  match uniforms with
  | [] => ret uniform_locations
  | uniform :: rest =>
      match uniform_locations !! uniform_name uniform with
      | Some _ => collect_uniform_locations program uniform_locations rest
      | None =>
          let* loc := gl_get_uniform_location program (uniform_name uniform) in
          collect_uniform_locations program (<[uniform_name uniform := loc]> uniform_locations) rest
      end
  end.

(** The outer loop: the locations and [max_uniform_len]. *)
Fixpoint collect_locations (program : N) (buffers : list (VertexBuffer * list Uniform))
    (uniform_locations : gmap string Z) (max_uniform_len : nat)
    : GlM (gmap string Z * nat) :=
  match buffers with
  | [] => ret (uniform_locations, max_uniform_len)
  | (_, uniforms) :: rest =>
      let* locs := collect_uniform_locations program uniform_locations uniforms in
      collect_locations program rest locs (Nat.max max_uniform_len (length uniforms))
  end.

(** [for (uniform_index, uniform) in uniforms.iter().enumerate()]: both
    indexings panic when out of range. *)
Fixpoint set_uniforms (uniform_locations : gmap string Z)
    (current_uniforms : list (option UniformType)) (uniform_index : nat)
    (uniforms : list Uniform) : GlM (list (option UniformType)) :=
  match uniforms with
  | [] => ret current_uniforms
  | uniform :: rest =>
      match current_uniforms !! uniform_index with
      | None => panic
      | Some current =>
          if negb (option_uniform_type_eqb current (Some (uniform_type uniform))) then
            match uniform_locations !! uniform_name uniform with
            | None => panic
            | Some uniform_location =>
                let* _ := emit (SetUniform uniform_location (uniform_type_set (uniform_type uniform))) in
                set_uniforms uniform_locations
                  (<[uniform_index := Some (uniform_type uniform)]> current_uniforms)
                  (S uniform_index) rest
            end
          else set_uniforms uniform_locations current_uniforms (S uniform_index) rest
      end
  end.

(** [for (vi, uniforms) in buffers]: draw the layers. *)
Fixpoint draw_layers (uniform_locations : gmap string Z)
    (current_uniforms : list (option UniformType))
    (buffers : list (VertexBuffer * list Uniform)) : GlM unit :=
  match buffers with
  | [] => ret tt
  | (vertex_buffer, uniforms) :: rest =>
      let* _ := emit (BindVertexArray (vao_id vertex_buffer)) in
      let* _ := emit (BindBuffer ELEMENT_ARRAY_BUFFER (index_buffer_id vertex_buffer)) in
      let* current' := set_uniforms uniform_locations current_uniforms 0 uniforms in
      let* _ := emit (DrawElements (index_buffer_format_gl_id (index_buffer_format vertex_buffer))
                        (usize_as_i32 (index_buffer_len vertex_buffer)) UNSIGNED_INT 0) in
      draw_layers uniform_locations current' rest
  end.

(** [GlShader::draw]; [program] is [self.program_id] and
    [debug_assertions] decides whether the [debug_assert!] runs. *)
Definition draw (debug_assertions : bool) (program : N)
    (buffers : list (VertexBuffer * list Uniform)) (clear_color : option ColorU)
    (texture_size : LogicalSize) : GlM TextureRegistry.Texture :=
  let* current_multisample := gl_get_boolean_v MULTISAMPLE in
  let* current_vertex_buffer := gl_get_integer_v ARRAY_BUFFER_BINDING in
  let* current_index_buffer := gl_get_integer_v ELEMENT_ARRAY_BUFFER_BINDING in
  let* current_program := gl_get_integer_v CURRENT_PROGRAM in
  let* current_vertex_array_object := gl_get_integer_v VERTEX_ARRAY_BINDING in
  let* current_renderbuffers := gl_get_integer_v RENDERBUFFER in
  let* current_framebuffers := gl_get_integer_v FRAMEBUFFER in
  let* current_texture_2d := gl_get_integer_v TEXTURE_2D in
  let* texture_id := gen_texture in
  let* framebuffer_id := gen_framebuffer in
  let* _ := emit (BindFramebuffer FRAMEBUFFER framebuffer_id) in
  let* depthbuffer_id := gen_renderbuffer in
  let w := f32_as_i32 (width texture_size) in
  let h := f32_as_i32 (height texture_size) in
  let* _ := emit (BindTexture TEXTURE_2D texture_id) in
  let* _ := emit (TexImage2D TEXTURE_2D 0 (u32_as_i32 RGBA) w h 0 RGBA UNSIGNED_BYTE) in
  let* _ := emit (TexParameterI TEXTURE_2D TEXTURE_MAG_FILTER (u32_as_i32 NEAREST)) in
  let* _ := emit (TexParameterI TEXTURE_2D TEXTURE_MIN_FILTER (u32_as_i32 NEAREST)) in
  let* _ := emit (TexParameterI TEXTURE_2D TEXTURE_WRAP_S (u32_as_i32 CLAMP_TO_EDGE)) in
  let* _ := emit (TexParameterI TEXTURE_2D TEXTURE_WRAP_T (u32_as_i32 CLAMP_TO_EDGE)) in
  let* _ := emit (BindRenderbuffer RENDERBUFFER depthbuffer_id) in
  let* _ := emit (RenderbufferStorage RENDERBUFFER DEPTH_COMPONENT w h) in
  let* _ := emit (FramebufferRenderbuffer FRAMEBUFFER DEPTH_ATTACHMENT RENDERBUFFER depthbuffer_id) in
  let* _ := emit (FramebufferTexture2D FRAMEBUFFER COLOR_ATTACHMENT0 TEXTURE_2D texture_id 0) in
  let* _ := emit (DrawBuffers [COLOR_ATTACHMENT0]) in
  let* _ := emit (Viewport 0 0 w h) in
  let* _ := (if debug_assertions then
               let* status := gl_check_frame_buffer_status FRAMEBUFFER in
               if N.eqb status FRAMEBUFFER_COMPLETE then ret tt else panic
             else ret tt) in
  let* _ := emit (UseProgram program) in
  let* _ := emit (Disable MULTISAMPLE) in
  let* collected := collect_locations program buffers ∅ 0 in
  let '(uniform_locations, max_uniform_len) := collected in
  let current_uniforms := replicate max_uniform_len None in
  let* _ := match clear_color with
            | Some c => emit (ClearColor (color_channel (red c)) (color_channel (green c))
                                         (color_channel (blue c)) (color_channel (alpha c)))
            | None => ret tt
            end in
  let* _ := emit (ClearDepth 0) in
  let* _ := emit (Clear (N.lor COLOR_BUFFER_BIT DEPTH_BUFFER_BIT)) in
  let* _ := draw_layers uniform_locations current_uniforms buffers in
  let* _ := (if N.eqb current_multisample GL_TRUE then emit (Enable MULTISAMPLE) else ret tt) in
  let* _ := emit (BindVertexArray (i32_as_u32 current_vertex_array_object)) in
  let* _ := emit (BindFramebuffer FRAMEBUFFER (i32_as_u32 current_framebuffers)) in
  let* _ := emit (BindTexture TEXTURE_2D (i32_as_u32 current_texture_2d)) in
  let* _ := emit (BindTexture RENDERBUFFER (i32_as_u32 current_renderbuffers)) in
  let* _ := emit (BindBuffer ELEMENT_ARRAY_BUFFER (i32_as_u32 current_index_buffer)) in
  let* _ := emit (BindBuffer ARRAY_BUFFER (i32_as_u32 current_vertex_buffer)) in
  let* _ := emit (UseProgram (i32_as_u32 current_program)) in
  let* _ := emit (DeleteFramebuffers [framebuffer_id]) in
  let* _ := emit (DeleteRenderbuffers [depthbuffer_id]) in
  ret (TextureRegistry.mkTexture texture_id (width texture_size) (height texture_size)).

End Calls.

End GlDraw.

(* ================================================================== *)
(** ** Proofs: texture registry *)
(* ================================================================== *)

Module RegistryProofs.
Import TextureRegistry.

(** An id sits in the registry at pipeline [p] and epoch [e]. *)
Definition located (reg : gmap nat (gmap nat (gmap nat Texture)))
    (id : nat) (t : Texture) : Prop :=
  exists p eps e texs,
    reg !! p = Some eps /\ eps !! e = Some texs /\ texs !! id = Some t.

(** Every id in the registry was minted before the counter's value. *)
Definition ids_below (g : GlGlobals) : Prop :=
  forall reg id t, active_gl_textures g = Some reg -> located reg id t ->
  id < next_external_image_id g.

Lemma find_map_some {A B} (f : A -> option B) l y :
  find_map f l = Some y -> exists x, In x l /\ f x = Some y.
Proof.
  induction l as [|x xs IH]; simpl; [discriminate|].
  destruct (f x) eqn:Hf.
  - intros [= <-]. eauto.
  - intros H. destruct (IH H) as (x' & Hin & Hx'). eauto.
Qed.

Lemma find_map_in {A B} (f : A -> option B) l x y :
  In x l -> f x = Some y -> exists y', find_map f l = Some y'.
Proof.
  induction l as [|x0 xs IH]; simpl; [tauto|].
  intros [<- | Hin] Hf.
  - rewrite Hf. eauto.
  - destruct (f x0); eauto.
Qed.

Lemma find_texture_located reg id t :
  find_texture reg id = Some t -> located reg id t.
Proof.
  unfold find_texture. intros H.
  destruct (find_map_some _ _ _ H) as ([p eps] & Hin & H1).
  destruct (find_map_some _ _ _ H1) as ([e texs] & Hin' & H2).
  apply list_elem_of_In, elem_of_map_to_list in Hin, Hin'.
  exists p, eps, e, texs. simpl in *. auto.
Qed.

Lemma find_texture_complete reg id t :
  located reg id t -> exists t', find_texture reg id = Some t'.
Proof.
  intros (p & eps & e & texs & Hp & He & Hid).
  unfold find_texture.
  destruct (find_map_in (fun ee : nat * gmap nat Texture => ee.2 !! id)
              (map_to_list eps) (e, texs) t) as [t1 Ht1].
  { apply list_elem_of_In, elem_of_map_to_list. exact He. }
  { exact Hid. }
  eapply (find_map_in _ _ (p, eps)); [|exact Ht1].
  apply list_elem_of_In, elem_of_map_to_list. exact Hp.
Qed.

Lemma located_insert_fresh reg p e id t id' t' :
  (forall t0, ~ located reg id t0) ->
  located (<[p := <[e := <[id := t]> (default ∅ (default ∅ (reg !! p) !! e))]>
                   (default ∅ (reg !! p))]> reg) id' t' ->
  (id' = id /\ t' = t) \/ located reg id' t'.
Proof.
  intros Hfresh (p' & eps & e' & texs & Hp & He & Hid).
  destruct (decide (p = p')) as [<-|Hpne].
  - rewrite lookup_insert_eq in Hp. injection Hp as <-.
    destruct (decide (e = e')) as [<-|Hene].
    + rewrite lookup_insert_eq in He. injection He as <-.
      destruct (decide (id = id')) as [<-|Hidne].
      * rewrite lookup_insert_eq in Hid. left. split; congruence.
      * rewrite lookup_insert_ne in Hid by exact Hidne. right.
        destruct (reg !! p) as [eps0|] eqn:Hp0; simpl in Hid;
          [|rewrite lookup_empty in Hid; discriminate].
        destruct (eps0 !! e) as [texs0|] eqn:He0; simpl in Hid;
          [|rewrite lookup_empty in Hid; discriminate].
        exists p, eps0, e, texs0. auto.
    + rewrite lookup_insert_ne in He by exact Hene. right.
      destruct (reg !! p) as [eps0|] eqn:Hp0; simpl in He;
        [|rewrite lookup_empty in He; discriminate].
      exists p, eps0, e', texs. auto.
  - rewrite lookup_insert_ne in Hp by exact Hpne. right.
    exists p', eps, e', texs. auto.
Qed.

Lemma located_filter reg p e eps id t :
  reg !! p = Some eps ->
  located (<[p := filter (fun kv : nat * gmap nat Texture => e < kv.1) eps]> reg) id t ->
  located reg id t.
Proof.
  intros Hp (p' & eps' & e' & texs & Hp' & He & Hid).
  destruct (decide (p = p')) as [<-|Hpne].
  - rewrite lookup_insert_eq in Hp'. injection Hp' as <-.
    apply map_lookup_filter_Some in He as [He _].
    exists p, eps, e', texs. auto.
  - rewrite lookup_insert_ne in Hp' by exact Hpne.
    exists p', eps', e', texs. auto.
Qed.

Lemma located_delete reg p id t :
  located (delete p reg) id t -> located reg id t.
Proof.
  intros (p' & eps & e & texs & Hp & He & Hid).
  apply lookup_delete_Some in Hp as [_ Hp].
  exists p', eps, e, texs. auto.
Qed.

Lemma reachable_ids_below g : reachable g -> ids_below g.
Proof.
  induction 1 as [| p e t g _ IH | p g _ IH | p e g _ IH | g _ IH];
    intros reg id t' Hreg Hloc.
  - discriminate.
  - simpl in *. injection Hreg as <-.
    destruct (located_insert_fresh (default ∅ (active_gl_textures g)) p e
                (next_external_image_id g) t id t') as [[-> _]|Hold].
    + intros t0 Hl. destruct (active_gl_textures g) as [r|] eqn:Hr.
      * simpl in Hl. specialize (IH r _ _ Hr Hl). lia.
      * destruct Hl as (? & ? & ? & ? & Hx & _). simpl in Hx.
        rewrite lookup_empty in Hx. discriminate.
    + exact Hloc.
    + lia.
    + destruct (active_gl_textures g) as [r|] eqn:Hr.
      * simpl in Hold. specialize (IH r _ _ Hr Hold). lia.
      * destruct Hold as (? & ? & ? & ? & Hx & _). simpl in Hx.
        rewrite lookup_empty in Hx. discriminate.
  - unfold gl_textures_remove_active_pipeline in *.
    destruct (active_gl_textures g) as [r|] eqn:Hr; simpl in *.
    + injection Hreg as <-. apply (IH r id t'); [exact Hr|].
      eapply located_delete. exact Hloc.
    + rewrite Hr in Hreg. discriminate.
  - unfold gl_textures_remove_epochs_from_pipeline in *.
    destruct (active_gl_textures g) as [r|] eqn:Hr; simpl in *.
    + destruct (r !! p) as [eps|] eqn:Hp; simpl in *.
      * injection Hreg as <-. apply (IH r id t'); [exact Hr|].
        eapply located_filter; eauto.
      * rewrite Hr in Hreg. injection Hreg as <-. exact (IH r id t' Hr Hloc).
    + rewrite Hr in Hreg. discriminate.
  - discriminate.
Qed.

(** C7: registering a texture and then looking its fresh id up over all
    pipelines and epochs returns exactly that texture's GL handle, width
    and height, for every pipeline id, epoch and texture. *)
Theorem register_then_lookup (g : GlGlobals) (Hg : reachable g)
    (pipeline_id epoch : nat) (texture : Texture) :
  let '(id, g') := insert_into_active_gl_textures pipeline_id epoch texture g in
  get_opengl_texture id g' =
    Some (texture_id texture, (size_width texture, size_height texture)).
Proof.
  pose proof (reachable_ids_below g Hg) as Hbelow.
  unfold get_opengl_texture; simpl.
  set (reg := default ∅ (active_gl_textures g)).
  assert (Hfresh : forall t0, ~ located reg (next_external_image_id g) t0).
  { intros t0 Hl. subst reg. destruct (active_gl_textures g) as [r|] eqn:Hr.
    - simpl in Hl. specialize (Hbelow r _ _ Hr Hl). lia.
    - destruct Hl as (? & ? & ? & ? & Hx & _). simpl in Hx.
      rewrite lookup_empty in Hx. discriminate. }
  set (reg' := <[pipeline_id := <[epoch := <[next_external_image_id g := texture]>
                 (default ∅ (default ∅ (reg !! pipeline_id) !! epoch))]>
                 (default ∅ (reg !! pipeline_id))]> reg).
  assert (Hin : located reg' (next_external_image_id g) texture).
  { exists pipeline_id, (<[epoch := <[next_external_image_id g := texture]>
                 (default ∅ (default ∅ (reg !! pipeline_id) !! epoch))]>
                 (default ∅ (reg !! pipeline_id))),
           epoch, (<[next_external_image_id g := texture]>
                 (default ∅ (default ∅ (reg !! pipeline_id) !! epoch))).
    subst reg'. rewrite !lookup_insert_eq. auto. }
  destruct (find_texture_complete _ _ _ Hin) as [t' Ht'].
  change (option_map (fun tex => (texture_id tex, (size_width tex, size_height tex)))
            (find_texture reg' (next_external_image_id g)) =
          Some (texture_id texture, (size_width texture, size_height texture))).
  rewrite Ht'. simpl.
  apply find_texture_located in Ht'.
  destruct (located_insert_fresh reg pipeline_id epoch _ texture _ _ Hfresh Ht')
    as [[_ ->] | Hold].
  - reflexivity.
  - exfalso. exact (Hfresh t' Hold).
Qed.

Lemma register_then_lookup_witness :
  reachable (insert_into_active_gl_textures 1 4 (mkTexture 9 64 32) initial_globals).2 /\
  (let '(id, g') := insert_into_active_gl_textures 2 5 (mkTexture 10 100 50)
                      (insert_into_active_gl_textures 1 4 (mkTexture 9 64 32) initial_globals).2 in
   get_opengl_texture id g' = Some (10%N, (100%Q, 50%Q))).
Proof.
  split.
  - apply reach_insert, reach_init.
  - exact (register_then_lookup _ (reach_insert 1 4 (mkTexture 9 64 32) _ reach_init)
             2 5 (mkTexture 10 100 50)).
Defined.

(** C1 (scenario B of the spec): T registered at epoch 5 and U at epoch 7
    for pipeline 3; after [gl_textures_remove_epochs_from_pipeline 3 7] the
    lookup of U returns nothing, since [retain(|e, _| *e > epoch)] also
    drops the watermark epoch 7 itself, while both ids resolved before. *)
Theorem remove_epochs_drops_watermark_epoch :
  let '(t, g1) := insert_into_active_gl_textures 3 5 (mkTexture 11 100 50) initial_globals in
  let '(u, g2) := insert_into_active_gl_textures 3 7 (mkTexture 12 200 80) g1 in
  let g3 := gl_textures_remove_epochs_from_pipeline 3 7 g2 in
  get_opengl_texture t g2 = Some (11%N, (100%Q, 50%Q)) /\
  get_opengl_texture u g2 = Some (12%N, (200%Q, 80%Q)) /\
  get_opengl_texture t g3 = None /\
  get_opengl_texture u g3 = None.
Proof. vm_compute. repeat split. Qed.

End RegistryProofs.

(* ================================================================== *)
(** ** Proofs: shader construction *)
(* ================================================================== *)

Module GlShaderProofs.
Import GlShaderModel.

(** C8, as the code does it: the release build ([debug_assertions] off)
    never queries the compile or link status, so a driver on which both
    shaders fail to compile still yields [Ok(GlShader)]. *)
Lemma gl_shader_new_release_accepts_failed_compile :
  fst (gl_shader_new false
         (mkGlDriver true (fun _ _ => 0%Z) (fun _ _ => 0%Z)
                     (fun _ _ => "syntax error"%string) (fun _ _ => ""%string))
         "bad"%string "bad"%string (mkGlContext 0 ∅))
  = inl (mkGlShader 2).
Proof. reflexivity. Qed.

Lemma fresh_not_live c : gl_context_wf c -> gl_next_name c ∉ gl_live_objects c.
Proof. intros Hwf Hin. specialize (Hwf _ Hin). lia. Qed.

(** C8 (amended): with debug assertions, [GlShader::new] reports a missing
    shader compiler, a vertex-stage compile failure, a fragment-stage
    compile failure and a link failure as four distinct errors, the three
    stage errors carrying the driver's status code and info log, and on
    every failure path the set of live GL objects afterwards is exactly the
    set before the call (every shader and program object it created was
    deleted); on success only the program object stays alive. Without
    debug assertions the statuses are not checked and the only error is
    [NoShaderCompiler], which creates no object. *)
Theorem gl_shader_new_errors (debug_assertions : bool) (drv : GlDriver)
    (vs fs : string) (c : GlContext) (Hwf : gl_context_wf c) :
  let '(r, c') := gl_shader_new debug_assertions drv vs fs c in
  if debug_assertions then
    match r with
    | inr NoShaderCompiler =>
        shader_compiler_supported drv = false /\ c' = c
    | inr (Compile (Vertex e)) =>
        compile_status drv GL_VERTEX_SHADER vs <> GL_TRUE /\
        e = mkVertexShaderCompileError (compile_status drv GL_VERTEX_SHADER vs)
                                       (shader_info_log drv GL_VERTEX_SHADER vs) /\
        gl_live_objects c' = gl_live_objects c
    | inr (Compile (Fragment e)) =>
        compile_status drv GL_VERTEX_SHADER vs = GL_TRUE /\
        compile_status drv GL_FRAGMENT_SHADER fs <> GL_TRUE /\
        e = mkFragmentShaderCompileError (compile_status drv GL_FRAGMENT_SHADER fs)
                                         (shader_info_log drv GL_FRAGMENT_SHADER fs) /\
        gl_live_objects c' = gl_live_objects c
    | inr (Link e) =>
        compile_status drv GL_VERTEX_SHADER vs = GL_TRUE /\
        compile_status drv GL_FRAGMENT_SHADER fs = GL_TRUE /\
        link_status drv vs fs <> GL_TRUE /\
        e = mkGlShaderLinkError (link_status drv vs fs) (program_info_log drv vs fs) /\
        gl_live_objects c' = gl_live_objects c
    | inl sh =>
        compile_status drv GL_VERTEX_SHADER vs = GL_TRUE /\
        compile_status drv GL_FRAGMENT_SHADER fs = GL_TRUE /\
        link_status drv vs fs = GL_TRUE /\
        gl_live_objects c' = {[program_id sh]} ∪ gl_live_objects c /\
        program_id sh ∉ gl_live_objects c
    end
  else
    match r with
    | inr NoShaderCompiler => shader_compiler_supported drv = false /\ c' = c
    | inr _ => False
    | inl _ => shader_compiler_supported drv = true
    end.
Proof.
  pose proof (fresh_not_live c Hwf) as Hf0.
  assert (Hf1 : S (gl_next_name c) ∉ gl_live_objects c).
  { intros Hin. specialize (Hwf _ Hin). lia. }
  assert (Hf2 : S (S (gl_next_name c)) ∉ gl_live_objects c).
  { intros Hin. specialize (Hwf _ Hin). lia. }
  unfold gl_shader_new.
  destruct (shader_compiler_supported drv) eqn:Hsup; simpl;
    [| destruct debug_assertions; split; reflexivity].
  destruct debug_assertions; simpl.
  2: { reflexivity. }
  unfold get_gl_error.
  destruct (Z.eqb_spec (compile_status drv GL_VERTEX_SHADER vs) GL_TRUE) as [Hv|Hv]; simpl.
  2: { split; [exact Hv|]. split; [reflexivity|]. set_solver. }
  destruct (Z.eqb_spec (compile_status drv GL_FRAGMENT_SHADER fs) GL_TRUE) as [Hfr|Hfr]; simpl.
  2: { repeat split; try assumption. set_solver. }
  destruct (Z.eqb_spec (link_status drv vs fs) GL_TRUE) as [Hl|Hl]; simpl.
  2: { repeat split; try assumption. set_solver. }
  repeat split; try assumption.
  apply set_eq. intros x.
  rewrite !elem_of_difference, !elem_of_union, !elem_of_singleton.
  split.
  - intros [[[Hx|[Hx|[Hx|Hx]]] Hn1] Hn2]; auto; lia.
  - intros [Hx|Hx]; [subst x; repeat split; [auto|lia|lia]|].
    repeat split; [auto| |]; intros ->; contradiction.
Qed.

Lemma gl_shader_new_errors_witness :
  gl_context_wf (mkGlContext 0 ∅) /\
  (let '(r, c') := gl_shader_new true
                     (mkGlDriver true (fun _ _ => 1%Z) (fun _ _ => 0%Z)
                                 (fun _ _ => ""%string) (fun _ _ => "link failed"%string))
                     "vs"%string "fs"%string (mkGlContext 0 ∅) in
   match r with
   | inr (Link e) =>
       1%Z = GL_TRUE /\ 1%Z = GL_TRUE /\ 0%Z <> GL_TRUE /\
       e = mkGlShaderLinkError 0 "link failed" /\ gl_live_objects c' = ∅
   | _ => False
   end).
Proof.
  assert (Hwf : gl_context_wf (mkGlContext 0 ∅)).
  { intros n Hn. simpl in Hn. set_solver. }
  split; [exact Hwf|].
  exact (gl_shader_new_errors true
           (mkGlDriver true (fun _ _ => 1%Z) (fun _ _ => 0%Z)
                       (fun _ _ => ""%string) (fun _ _ => "link failed"%string))
           "vs"%string "fs"%string (mkGlContext 0 ∅) Hwf).
Defined.

End GlShaderProofs.

(* ================================================================== *)
(** ** Proofs: rendering order *)
(* ================================================================== *)

Module RenderingOrderProofs.
Import RenderingOrder.

Lemma map_option_forall2 {A B} (f : A -> option B) l ys :
  map_option f l = Some ys -> Forall2 (fun a b => f a = Some b) l ys.
Proof.
  revert ys; induction l as [|x xs IH]; intros ys H; simpl in H.
  - injection H as <-. constructor.
  - destruct (f x) eqn:Hx; [|discriminate].
    destruct (map_option f xs) eqn:Hxs; [|discriminate].
    injection H as <-. constructor; auto.
Qed.

Lemma forall2_in_r {A B} (R : A -> B -> Prop) l l' y :
  Forall2 R l l' -> In y l' -> exists x, In x l /\ R x y.
Proof.
  induction 1 as [|x y' l l' Hxy _ IH]; simpl; [tauto|].
  intros [<- | Hin]; [eauto|]. destruct (IH Hin) as (x' & ? & ?). eauto.
Qed.

Lemma fill_root fuel cs r g :
  fill_content_group_children fuel cs r = Some g -> cg_root g = r.
Proof.
  destruct fuel; simpl; [discriminate|].
  destruct (cs !! r); [destruct (map_option _ _); [|discriminate]|];
    intros [= <-]; reflexivity.
Qed.

Lemma fill_roots fuel cs c gs :
  map_option (fill_content_group_children fuel cs) c = Some gs -> map cg_root gs = c.
Proof.
  intros H. apply map_option_forall2 in H.
  induction H as [|a b l l' Hab _ IH]; simpl; [reflexivity|].
  rewrite (fill_root _ _ _ _ Hab), IH. reflexivity.
Qed.

(** Every group of a filled tree has, as its children, the list stored
    for its root, or none when its root has no entry. *)
Lemma fill_subgroup fuel cs r g :
  fill_content_group_children fuel cs r = Some g ->
  forall sub, subgroup sub g ->
    (cs !! cg_root sub = None /\ cg_children sub = []) \/
    cs !! cg_root sub = Some (map cg_root (cg_children sub)).
Proof.
  revert r g; induction fuel as [|fuel IH]; intros r g H sub Hsub; simpl in H;
    [discriminate|].
  destruct (cs !! r) as [c|] eqn:Hr.
  - destruct (map_option (fill_content_group_children fuel cs) c) as [gs|] eqn:Hgs;
      [|discriminate].
    injection H as <-.
    inversion Hsub as [Heq | r' cs' child Hin Hsub' Heq]; subst.
    + right. simpl. rewrite Hr, (fill_roots _ _ _ _ Hgs). reflexivity.
    + apply map_option_forall2 in Hgs.
      destruct (forall2_in_r _ _ _ _ Hgs Hin) as (a & _ & Ha).
      exact (IH a child Ha sub Hsub').
  - injection H as <-.
    inversion Hsub as [Heq | r' cs' child Hin Hsub' Heq]; subst.
    + left. simpl. auto.
    + destruct Hin.
Qed.

Lemma children_sorted_lookup (h : NodeHierarchy) (rects : list DisplayRectangle) r :
  let cs : gmap nat (list nat) :=
    list_to_map (map (fun parent_id =>
                        (parent_id, sort_children_by_position parent_id h rects))
                     (get_parents_sorted_by_depth h)) in
  (cs !! r = None -> children h r = []) /\
  (forall c, cs !! r = Some c -> c = sort_children_by_position r h rects).
Proof.
  intros cs. split.
  - intros Hnone. apply not_elem_of_list_to_map_2 in Hnone.
    destruct (children h r) as [|k ks] eqn:Hc; [reflexivity|].
    exfalso. apply Hnone. rewrite list_elem_of_fmap.
    exists (r, sort_children_by_position r h rects). split; [reflexivity|].
    apply list_elem_of_In.
    apply (in_map (fun parent_id => (parent_id, sort_children_by_position parent_id h rects))). unfold get_parents_sorted_by_depth.
    apply filter_In. rewrite Hc. split; [|reflexivity].
    apply in_seq. unfold children in Hc.
    destruct (h !! r) eqn:Hr; [|discriminate].
    apply lookup_lt_Some in Hr. lia.
  - intros c Hc. apply elem_of_list_to_map_2, list_elem_of_In, in_map_iff in Hc.
    destruct Hc as (p & Heq & _). injection Heq as -> ->. reflexivity.
Qed.

Lemma sort_children_rendering_order (h : NodeHierarchy) (rects : list DisplayRectangle)
    g (H : determine_rendering_order h rects = Some g) sub (Hsub : subgroup sub g) :
  map cg_root (cg_children sub) = sort_children_by_position (cg_root sub) h rects.
Proof.
  unfold determine_rendering_order in H.
  destruct (fill_subgroup _ _ _ _ H sub Hsub) as [[Hn Hc] | Hs].
  - rewrite Hc. unfold sort_children_by_position.
    rewrite (proj1 (children_sorted_lookup h rects _) Hn). reflexivity.
  - exact (proj2 (children_sorted_lookup h rects _) _ Hs).
Qed.

Lemma filter_app_partition_perm {A} (p : A -> bool) (l : list A) :
  Permutation (List.filter (fun x => negb (p x)) l ++ List.filter p l) l.
Proof.
  induction l as [|x xs IH]; simpl; [constructor|].
  destruct (p x); simpl.
  - symmetry. apply Permutation_cons_app. symmetry. exact IH.
  - constructor. exact IH.
Qed.

Lemma filter_negb_filter {A} (p : A -> bool) (l : list A) :
  List.filter p (List.filter (fun x => negb (p x)) l) = [] /\
  List.filter (fun x => negb (p x)) (List.filter p l) = [].
Proof.
  induction l as [|x xs [IH1 IH2]]; simpl; [split; reflexivity|].
  destruct (p x) eqn:Hp; simpl; rewrite ?Hp; simpl; auto.
Qed.

Lemma filter_idem {A} (p : A -> bool) (l : list A) :
  List.filter p (List.filter p l) = List.filter p l.
Proof.
  induction l as [|x xs IH]; simpl; [reflexivity|].
  destruct (p x) eqn:Hp; simpl; rewrite ?Hp, IH; reflexivity.
Qed.

(** C4: in the content group computed by [determine_rendering_order],
    the children of every group are a permutation of that node's direct
    children in which all non-absolute children come first and all
    absolutely positioned children last, each of the two groups in the
    order of the input hierarchy. *)
Theorem rendering_order_partitions (h : NodeHierarchy) (rects : list DisplayRectangle)
    g (H : determine_rendering_order h rects = Some g) sub (Hsub : subgroup sub g) :
  let order := map cg_root (cg_children sub) in
  let kids := children h (cg_root sub) in
  Permutation order kids /\
  (exists l1 l2, order = l1 ++ l2 /\
     Forall (fun id => is_absolute rects id = false) l1 /\
     Forall (fun id => is_absolute rects id = true) l2) /\
  List.filter (fun id => negb (is_absolute rects id)) order =
    List.filter (fun id => negb (is_absolute rects id)) kids /\
  List.filter (is_absolute rects) order = List.filter (is_absolute rects) kids.
Proof.
  intros order kids. subst order kids.
  rewrite (sort_children_rendering_order h rects g H sub Hsub).
  unfold sort_children_by_position.
  set (p := is_absolute rects).
  set (l := children h (cg_root sub)).
  destruct (filter_negb_filter p l) as [H1 H2].
  split; [apply filter_app_partition_perm|].
  split.
  { exists (List.filter (fun x => negb (p x)) l), (List.filter p l).
    split; [reflexivity|]. split; apply Forall_forall; intros x Hx;
      apply list_elem_of_In, filter_In in Hx as [_ Hx]; [apply negb_true_iff|]; exact Hx. }
  rewrite !List.filter_app, H1, H2, !filter_idem, app_nil_r. split; reflexivity.
Qed.

Lemma rendering_order_partitions_witness :
  let h : NodeHierarchy := [[1; 2; 3]; []; [4]; []; []] in
  let rects := [mkDisplayRectangle None;
                mkDisplayRectangle (Some (Exact Absolute));
                mkDisplayRectangle (Some (Exact Relative));
                mkDisplayRectangle None;
                mkDisplayRectangle (Some (Exact Absolute))] in
  let g := mkContentGroup 0 [mkContentGroup 2 [mkContentGroup 4 []];
                             mkContentGroup 3 []; mkContentGroup 1 []] in
  determine_rendering_order h rects = Some g /\
  (let sub := g in
   let order := map cg_root (cg_children sub) in
   let kids := children h (cg_root sub) in
   Permutation order kids /\
   (exists l1 l2, order = l1 ++ l2 /\
      Forall (fun id => is_absolute rects id = false) l1 /\
      Forall (fun id => is_absolute rects id = true) l2) /\
   List.filter (fun id => negb (is_absolute rects id)) order =
     List.filter (fun id => negb (is_absolute rects id)) kids /\
   List.filter (is_absolute rects) order = List.filter (is_absolute rects) kids).
Proof.
  intros h rects g.
  assert (Hg : determine_rendering_order h rects = Some g) by (vm_compute; reflexivity).
  split; [exact Hg|].
  exact (rendering_order_partitions h rects g Hg g (subgroup_here g)).
Defined.

End RenderingOrderProofs.

(* ================================================================== *)
(** ** Proofs: scroll-clip analysis *)
(* ================================================================== *)

Module ScrollClipProofs.
Import ScrollClip.


(** Every entry of the analysis carries the id built from the hash of that
    node's data and the pipeline id. *)
Definition entries_hash_derived {NodeData} (hash : NodeData -> Z)
    (dom_rects : list NodeData) (pipeline_id : nat) (st : option (ScrolledNodes * nat)) : Prop :=
  forall sn n, st = Some (sn, n) ->
  forall p e, overflowing_nodes sn !! p = Some e ->
  exists d, dom_rects !! p = Some d /\
            parent_external_scroll_id e = mkExternalScrollId (hash d) pipeline_id.

Lemma scroll_clip_step_hash_derived {NodeData} (hash : NodeData -> Z) h tags dom lr pipeline st parent :
  entries_hash_derived hash dom pipeline st ->
  entries_hash_derived hash dom pipeline (scroll_clip_step hash h tags dom lr pipeline st parent).
Proof.
  intros Hst sn' n' Hres p e He.
  unfold scroll_clip_step in Hres.
  destruct st as [[sn n]|]; [|discriminate].
  destruct (lr !! parent) as [prect|]; [|discriminate].
  destruct (map_option_list _ _) as [cb|]; [|discriminate].
  destruct (get_scroll_rect _ cb) as [csr|];
    [|injection Hres as <- <-; exact (Hst sn n eq_refl p e He)].
  destruct (contains_rect_rounded _ _);
    [injection Hres as <- <-; exact (Hst sn n eq_refl p e He)|].
  destruct (overflow prect);
    try (injection Hres as <- <-; exact (Hst sn n eq_refl p e He)).
  all: destruct (dom !! parent) as [node|] eqn:Hnode; [|discriminate].
  all: destruct (mjoin (tags !! parent)); injection Hres as <- <-; simpl in He;
       (destruct (decide (parent = p)) as [<-|Hne];
        [ rewrite lookup_insert_eq in He; injection He as <-; exists node; auto
        | rewrite lookup_insert_ne in He by exact Hne; eapply Hst; [reflexivity | exact He] ]).
Qed.

Lemma scroll_clip_hash_derived {NodeData} (hash : NodeData -> Z) h tags dom lr parents
    pipeline tag0 :
  entries_hash_derived hash dom pipeline
    (get_nodes_that_need_scroll_clip hash h tags dom lr parents pipeline tag0).
Proof.
  unfold get_nodes_that_need_scroll_clip.
  assert (Hinit : entries_hash_derived hash dom pipeline (Some (mkScrolledNodes ∅ ∅, tag0))).
  { intros sn n [= <- _] p e He. simpl in He. rewrite lookup_empty in He. discriminate. }
  revert Hinit. generalize (Some (mkScrolledNodes ∅ ∅, tag0)).
  induction parents as [|[d parent] ps IH]; intros st Hst; simpl; [exact Hst|].
  apply IH. apply scroll_clip_step_hash_derived. exact Hst.
Qed.

(** C6: the external scroll id the analysis gives a node depends only on
    that node's data and the pipeline id: two runs over any two trees with
    the same pipeline give nodes with equal data equal external scroll ids,
    whatever their node indices. *)
Theorem external_scroll_id_stable {NodeData} (calculate_node_data_hash : NodeData -> Z)
    (pipeline_id : nat)
    h1 tags1 dom1 lr1 parents1 tag1 sn1 next1
    h2 tags2 dom2 lr2 parents2 tag2 sn2 next2
    (p1 p2 : nat) (e1 e2 : OverflowingScrollNode)
    (Hrun1 : get_nodes_that_need_scroll_clip calculate_node_data_hash h1 tags1 dom1 lr1
               parents1 pipeline_id tag1 = Some (sn1, next1))
    (Hrun2 : get_nodes_that_need_scroll_clip calculate_node_data_hash h2 tags2 dom2 lr2
               parents2 pipeline_id tag2 = Some (sn2, next2))
    (He1 : overflowing_nodes sn1 !! p1 = Some e1)
    (He2 : overflowing_nodes sn2 !! p2 = Some e2)
    (Hsame : dom1 !! p1 = dom2 !! p2) :
  parent_external_scroll_id e1 = parent_external_scroll_id e2.
Proof.
  destruct (scroll_clip_hash_derived calculate_node_data_hash h1 tags1 dom1 lr1 parents1
              pipeline_id tag1 sn1 next1 Hrun1 p1 e1 He1) as (d1 & Hd1 & Hid1).
  destruct (scroll_clip_hash_derived calculate_node_data_hash h2 tags2 dom2 lr2 parents2
              pipeline_id tag2 sn2 next2 Hrun2 p2 e2 He2) as (d2 & Hd2 & Hid2).
  rewrite Hsame, Hd2 in Hd1. injection Hd1 as ->.
  rewrite Hid1, Hid2. reflexivity.
Qed.

Lemma external_scroll_id_stable_witness :
  let parent := mkPositionedRectangle (mkLayoutRect 0 0 100 100) Scroll in
  let child := mkPositionedRectangle (mkLayoutRect 0 0 300 300) Visible in
  match get_nodes_that_need_scroll_clip (fun n : nat => Z.of_nat n)
          [[1]; []] [None; None] [7; 8] [parent; child] [(0, 0)] 4 0,
        get_nodes_that_need_scroll_clip (fun n : nat => Z.of_nat n)
          [[]; [0]] [None; None] [8; 7] [child; parent] [(0, 1)] 4 5 with
  | Some (sn1, _), Some (sn2, _) =>
      match overflowing_nodes sn1 !! 0, overflowing_nodes sn2 !! 1 with
      | Some e1, Some e2 =>
          [7; 8] !! 0 = [8; 7] !! 1 /\
          parent_external_scroll_id e1 = parent_external_scroll_id e2
      | _, _ => False
      end
  | _, _ => False
  end.
Proof.
  intros parent child.
  destruct (get_nodes_that_need_scroll_clip _ [[1]; []] _ _ _ _ _ _) as [[sn1 n1]|] eqn:H1;
    [|vm_compute in H1; discriminate].
  destruct (get_nodes_that_need_scroll_clip _ [[]; [0]] _ _ _ _ _ _) as [[sn2 n2]|] eqn:H2;
    [|vm_compute in H2; discriminate].
  destruct (overflowing_nodes sn1 !! 0) as [e1|] eqn:He1;
    [|vm_compute in H1; injection H1 as <- _; vm_compute in He1; discriminate].
  destruct (overflowing_nodes sn2 !! 1) as [e2|] eqn:He2;
    [|vm_compute in H2; injection H2 as <- _; vm_compute in He2; discriminate].
  split; [reflexivity|].
  exact (external_scroll_id_stable (fun n : nat => Z.of_nat n) 4
           [[1]; []] [None; None] [7; 8] [parent; child] [(0, 0)] 0 sn1 n1
           [[]; [0]] [None; None] [8; 7] [child; parent] [(0, 1)] 5 sn2 n2
           0 1 e1 e2 H1 H2 He1 He2 eq_refl).
Defined.













End ScrollClipProofs.

(* ================================================================== *)
(** ** Proofs: text clip rectangle *)
(* ================================================================== *)

Module TextClipProofs.
Import ScrollClip RenderingOrder TextClip.
Local Open Scope Q_scope.

(** C2: for a text node with [overflow-x: visible; overflow-y: hidden],
    [get_text] reads the vertical flag with [is_horizontal_overflow_visible],
    takes both axes as visible and emits no clip rectangle at all, instead
    of the full window width and the padding-reduced height. *)
Theorem get_text_vertical_flag_reads_overflow_x :
  let layout := mkRectLayout (Some (Exact Visible)) (Some (Exact Hidden)) in
  is_horizontal_overflow_visible layout = true /\
  is_vertical_overflow_visible layout = false /\
  text_clip (get_text (mkLayoutRect 10 20 200 100) (mkResolvedOffsets 5 5 5 5)
                      (mkLayoutSize 800 600) [] 0 0 layout) = None.
Proof. repeat split. Qed.

(** C10: [subtract_padding] shifts the origin by the left and top padding
    and shrinks the size by left + right and top + bottom, without
    clamping: the width (height) is negative exactly when the horizontal
    (vertical) padding exceeds it, and such a rectangle is the clip of the
    text content item of a node whose overflow is hidden on both axes. *)
Theorem subtract_padding_unclamped (bounds : LayoutRect) (padding : ResolvedOffsets)
    (window : LayoutSize) (glyphs : list nat) (font_instance_key color : nat) :
  let r := subtract_padding bounds padding in
  origin_x r == origin_x bounds + pad_left padding /\
  origin_y r == origin_y bounds + pad_top padding /\
  size_width r == size_width bounds - (pad_left padding + pad_right padding) /\
  size_height r == size_height bounds - (pad_top padding + pad_bottom padding) /\
  (size_width r < 0 <-> size_width bounds < pad_left padding + pad_right padding) /\
  (size_height r < 0 <-> size_height bounds < pad_top padding + pad_bottom padding) /\
  text_clip (get_text bounds padding window glyphs font_instance_key color
               (mkRectLayout (Some (Exact Hidden)) (Some (Exact Hidden)))) = Some r.
Proof.
  intros r. subst r. unfold subtract_padding; simpl.
  repeat split; try reflexivity; try ring; intros H; lra.
Qed.

End TextClipProofs.

(* ================================================================== *)
(** ** Proofs: dynamic CSS overrides *)
(* ================================================================== *)

Module CssOverridesProofs.
Import CssOverrides.

Section Proofs.
Context {CssProperty Rect : Type}.
Context (discriminant : CssProperty -> nat).
Context (apply_style_property : Rect -> CssProperty -> Rect).

Lemma lookup_override_removed (ov : gmap nat (gmap string CssProperty)) node id id' :
  lookup_override (alter (delete id) node ov) node id' =
  if decide (id = id') then None else lookup_override ov node id'.
Proof.
  unfold lookup_override. rewrite lookup_alter_eq.
  destruct (ov !! node) as [m|]; simpl; [|by case_decide].
  case_decide as Heq; [subst; apply lookup_delete_eq|].
  apply lookup_delete_ne. exact Heq.
Qed.

Lemma populate_style_without_override ov node id v cs r w1 w2 :
  lookup_override ov node id = Some v ->
  (forall dp, In (Dynamic dp) cs -> dynamic_id dp = id ->
              discriminant v <> discriminant (default_value dp)) ->
  fst (fold_left
    (fun '(r, warnings) constraint =>
       match constraint with
       | Static static_property => (apply_style_property r static_property, warnings)
       | Dynamic dynamic_property =>
           match lookup_override ov node (dynamic_id dynamic_property) with
           | None => (r, warnings)
           | Some overridden_property =>
               if Nat.eqb (discriminant overridden_property)
                          (discriminant (default_value dynamic_property))
               then (apply_style_property r overridden_property, warnings)
               else (r, warnings ++ [mkOverrideWarning (default_value dynamic_property)
                                                       overridden_property])
           end
       end) cs (r, w1)) =
  fst (fold_left
    (fun '(r, warnings) constraint =>
       match constraint with
       | Static static_property => (apply_style_property r static_property, warnings)
       | Dynamic dynamic_property =>
           match lookup_override (alter (delete id) node ov) node (dynamic_id dynamic_property) with
           | None => (r, warnings)
           | Some overridden_property =>
               if Nat.eqb (discriminant overridden_property)
                          (discriminant (default_value dynamic_property))
               then (apply_style_property r overridden_property, warnings)
               else (r, warnings ++ [mkOverrideWarning (default_value dynamic_property)
                                                       overridden_property])
           end
       end) cs (r, w2)).
Proof.
  intros Hv. revert r w1 w2.
  induction cs as [|c cs IH]; intros r w1 w2 Hmis; simpl; [reflexivity|].
  assert (Hmis' : forall dp, In (Dynamic dp) cs -> dynamic_id dp = id ->
                  discriminant v <> discriminant (default_value dp)).
  { intros dp Hin. apply Hmis. right. exact Hin. }
  destruct c as [sp | dp].
  - apply IH. exact Hmis'.
  - rewrite lookup_override_removed.
    case_decide as Hid.
    + subst id. rewrite Hv.
      destruct (Nat.eqb_spec (discriminant v) (discriminant (default_value dp))) as [Heq|_].
      * exfalso. exact (Hmis dp (or_introl eq_refl) eq_refl Heq).
      * apply IH. exact Hmis'.
    + destruct (lookup_override ov node (dynamic_id dp)) as [v'|];
        [destruct (Nat.eqb _ _)|]; apply IH; exact Hmis'.
Qed.

Lemma populate_warnings ov node cs r w :
  exists ws,
  snd (fold_left
    (fun '(r, warnings) constraint =>
       match constraint with
       | Static static_property => (apply_style_property r static_property, warnings)
       | Dynamic dynamic_property =>
           match lookup_override ov node (dynamic_id dynamic_property) with
           | None => (r, warnings)
           | Some overridden_property =>
               if Nat.eqb (discriminant overridden_property)
                          (discriminant (default_value dynamic_property))
               then (apply_style_property r overridden_property, warnings)
               else (r, warnings ++ [mkOverrideWarning (default_value dynamic_property)
                                                       overridden_property])
           end
       end) cs (r, w)) = w ++ ws /\
  Forall2 (fun wn c => exists dp v, c = Dynamic dp /\
             lookup_override ov node (dynamic_id dp) = Some v /\
             discriminant v <> discriminant (default_value dp) /\
             wn = mkOverrideWarning (default_value dp) v)
          ws (List.filter (is_mismatched_override discriminant ov node) cs).
Proof.
  revert r w. induction cs as [|c cs IH]; intros r w; simpl.
  - exists []. rewrite app_nil_r. split; [reflexivity | constructor].
  - destruct c as [sp | dp]; simpl.
    + apply IH.
    + destruct (lookup_override ov node (dynamic_id dp)) as [v|] eqn:Hv; simpl; [|apply IH].
      destruct (Nat.eqb_spec (discriminant v) (discriminant (default_value dp))) as [Heq|Hne];
        simpl; [apply IH|].
      destruct (IH r (w ++ [mkOverrideWarning (default_value dp) v])) as (ws & Hws & HF).
      exists (mkOverrideWarning (default_value dp) v :: ws).
      rewrite Hws, <- app_assoc. split; [reflexivity|].
      constructor; [|exact HF].
      exists dp, v. auto.
Qed.

(** C5: an override of a dynamic property whose value has a different
    discriminant than the property's default leaves the populated style
    and layout exactly as they are when that override is absent, and the
    warnings returned are exactly one [OverrideWarning { default,
    overridden_property }] per constraint whose override is mismatched,
    in constraint order; the function is total and returns no error. *)
Theorem mismatched_override_ignored_and_reported
    (css_overrides : gmap nat (gmap string CssProperty)) (node_id : nat)
    (id : string) (v : CssProperty) (rect : Rect) (css_constraints : list CssDeclaration)
    (Hv : lookup_override css_overrides node_id id = Some v)
    (Hmis : forall dp, In (Dynamic dp) css_constraints -> dynamic_id dp = id ->
                       discriminant v <> discriminant (default_value dp)) :
  let '(rect_with, warnings) := populate_css_properties discriminant apply_style_property
                                  rect node_id css_overrides css_constraints in
  let '(rect_without, _) := populate_css_properties discriminant apply_style_property
                              rect node_id (alter (delete id) node_id css_overrides)
                              css_constraints in
  rect_with = rect_without /\
  Forall2 (fun w c => exists dp v', c = Dynamic dp /\
             lookup_override css_overrides node_id (dynamic_id dp) = Some v' /\
             discriminant v' <> discriminant (default_value dp) /\
             w = mkOverrideWarning (default_value dp) v')
          warnings
          (List.filter (is_mismatched_override discriminant css_overrides node_id)
                       css_constraints).
Proof.
  pose proof (populate_style_without_override css_overrides node_id id v css_constraints
                rect [] [] Hv Hmis) as Hstyle.
  destruct (populate_warnings css_overrides node_id css_constraints rect []) as (ws & Hws & HF).
  change (fst (populate_css_properties discriminant apply_style_property
                rect node_id css_overrides css_constraints) =
          fst (populate_css_properties discriminant apply_style_property
                rect node_id (alter (delete id) node_id css_overrides) css_constraints))
    in Hstyle.
  change (snd (populate_css_properties discriminant apply_style_property
                rect node_id css_overrides css_constraints) = [] ++ ws) in Hws.
  destruct (populate_css_properties discriminant apply_style_property
              rect node_id css_overrides css_constraints) as [rw w].
  destruct (populate_css_properties discriminant apply_style_property
              rect node_id (alter (delete id) node_id css_overrides) css_constraints)
    as [ro wo].
  simpl in Hstyle, Hws. subst. split; [reflexivity | exact HF].
Qed.

End Proofs.

Lemma mismatched_override_ignored_and_reported_witness :
  let ov : gmap nat (gmap string (nat * nat)) := {[0 := {["width"%string := (2, 5)]}]} in
  let cs := [Static (1, 1); Dynamic (mkDynamicCssProperty "width"%string (3, 0));
             Dynamic (mkDynamicCssProperty "height"%string (4, 0))] in
  lookup_override ov 0 "width"%string = Some (2, 5) /\
  (forall dp, In (Dynamic dp) cs -> dynamic_id dp = "width"%string ->
              fst (2, 5) <> fst (default_value dp)) /\
  (let '(rect_with, warnings) :=
     populate_css_properties fst (fun r p => p :: r) [] 0 ov cs in
   let '(rect_without, _) :=
     populate_css_properties fst (fun r p => p :: r) [] 0
       (alter (delete "width"%string) 0 ov) cs in
   rect_with = rect_without /\
   Forall2 (fun w c => exists dp v', c = Dynamic dp /\
              lookup_override ov 0 (dynamic_id dp) = Some v' /\
              fst v' <> fst (default_value dp) /\
              w = mkOverrideWarning (default_value dp) v')
           warnings (List.filter (is_mismatched_override fst ov 0) cs)).
Proof.
  intros ov cs.
  assert (Hv : lookup_override ov 0 "width"%string = Some (2, 5)) by reflexivity.
  assert (Hmis : forall dp, In (Dynamic dp) cs -> dynamic_id dp = "width"%string ->
                            fst (2, 5) <> fst (default_value dp)).
  { intros dp Hin Hid. simpl in Hin.
    destruct Hin as [Hin | [Hin | [Hin | []]]]; try discriminate;
      injection Hin as <-; simpl in *; [lia | discriminate]. }
  split; [exact Hv|]. split; [exact Hmis|].
  exact (mismatched_override_ignored_and_reported fst (fun r p => p :: r)
           ov 0 "width"%string (2, 5) [] cs Hv Hmis).
Defined.

End CssOverridesProofs.

(* ================================================================== *)
(** ** Proofs: GL-texture callbacks *)
(* ================================================================== *)

Module GlCallbacksProofs.
Import GlCallbacks.

Lemma gltexture_step_clean {Texture} st solved node_id (cb : GlCallback Texture) :
  let '(st_in, st_out, _) := gltexture_step st solved node_id cb in
  st_in = st /\ clean st_out.
Proof.
  unfold gltexture_step. destruct (cb st) as [st1 tex].
  split; [reflexivity|]. repeat split.
Qed.

Lemma gltexture_loop_head {Texture} st solved (callbacks : list (nat * GlCallback Texture)) :
  let '(_, _, trace) := gltexture_loop st solved callbacks in
  match callbacks with
  | [] => trace = []
  | _ => exists io trace', trace = io :: trace' /\ fst io = st
  end.
Proof.
  destruct callbacks as [|[node_id cb] rest]; simpl; [reflexivity|].
  pose proof (gltexture_step_clean st solved node_id cb) as Hstep.
  destruct (gltexture_step st solved node_id cb) as [[st_in st_out] solved'].
  destruct Hstep as [-> _].
  destruct (gltexture_loop st_out solved' rest) as [[st_end solved_end] trace].
  eexists _, _. split; reflexivity.
Qed.

(** C9: whatever each GL-texture callback does to the GL state, and
    whether or not it returns a texture, the loop resets the state right
    after it returns: for every callback, in order, the state when the loop
    moves on has framebuffer 0 bound and SRGB and multisampling disabled;
    every later callback is called in exactly that state; and after a
    non-empty loop the final state is clean. *)
Theorem gl_state_reset_after_every_callback {Texture} (st0 : GlState)
    (solved0 : gmap nat Texture) (callbacks : list (nat * GlCallback Texture)) :
  let '(st_end, _, trace) := gltexture_loop st0 solved0 callbacks in
  length trace = length callbacks /\
  Forall (fun io => clean (snd io)) trace /\
  map fst (tl trace) = map snd (removelast trace) /\
  match callbacks with
  | [] => st_end = st0
  | _ => clean st_end
  end.
Proof.
  revert st0 solved0.
  induction callbacks as [|[node_id cb] rest IH]; intros st0 solved0; simpl.
  - split; [reflexivity|]. split; [constructor|]. split; reflexivity.
  - pose proof (gltexture_step_clean st0 solved0 node_id cb) as Hstep.
    destruct (gltexture_step st0 solved0 node_id cb) as [[st_in st_out] solved'].
    destruct Hstep as [-> Hclean].
    specialize (IH st_out solved').
    pose proof (gltexture_loop_head st_out solved' rest) as Hhead.
    destruct (gltexture_loop st_out solved' rest) as [[st_end solved_end] trace].
    destruct IH as (Hlen & Hall & Hchain & Hend).
    split; [simpl; rewrite Hlen; reflexivity|].
    split; [constructor; [exact Hclean | exact Hall]|].
    split.
    + destruct rest as [|c rest'].
      * destruct trace; [reflexivity | discriminate].
      * destruct Hhead as (io & trace' & -> & Hio).
        destruct io as [a b]. simpl in Hio. subst a.
        simpl. simpl in Hchain. rewrite Hchain. reflexivity.
    + destruct rest; [subst; exact Hclean | exact Hend].
Qed.

End GlCallbacksProofs.

(* ================================================================== *)
(** ** Proofs: texture registry, further properties *)
(* ================================================================== *)

Module RegistryExtraProofs.
Import TextureRegistry.
Import RegistryProofs.

(** The texture [t] is stored under id [id] at pipeline [p], epoch [e]. *)
Definition stored (reg : gmap nat (gmap nat (gmap nat Texture)))
    (p e id : nat) (t : Texture) : Prop :=
  exists eps texs, reg !! p = Some eps /\ eps !! e = Some texs /\ texs !! id = Some t.

(** The nested insertion done by [insert_into_active_gl_textures]. *)
Definition registry_insert (reg : gmap nat (gmap nat (gmap nat Texture)))
    (p e n : nat) (t : Texture) : gmap nat (gmap nat (gmap nat Texture)) :=
  <[p := <[e := <[n := t]> (default ∅ (default ∅ (reg !! p) !! e))]>
           (default ∅ (reg !! p))]> reg.

(** Every id is stored at most once. *)
Definition unique_ids (g : GlGlobals) : Prop :=
  forall reg, active_gl_textures g = Some reg ->
  forall p1 e1 p2 e2 id t1 t2,
    stored reg p1 e1 id t1 -> stored reg p2 e2 id t2 -> p1 = p2 /\ e1 = e2 /\ t1 = t2.

Definition tex_data (t : Texture) : N * (Q * Q) :=
  (texture_id t, (size_width t, size_height t)).

Lemma located_stored reg id t : located reg id t <-> exists p e, stored reg p e id t.
Proof.
  split.
  - intros (p & eps & e & texs & H1 & H2 & H3). exists p, e, eps, texs. auto.
  - intros (p & e & eps & texs & H1 & H2 & H3). exists p, eps, e, texs. auto.
Qed.

Lemma stored_empty p e id t : ~ stored ∅ p e id t.
Proof. intros (eps & texs & H & _). rewrite lookup_empty in H. discriminate. Qed.

Lemma stored_insert reg p e n t q f id u :
  stored (registry_insert reg p e n t) q f id u <->
  (q = p /\ f = e /\ id = n /\ u = t) \/
  (~ (q = p /\ f = e /\ id = n) /\ stored reg q f id u).
Proof.
  unfold registry_insert, stored. split.
  - intros (eps & texs & Hq & Hf & Hid).
    destruct (decide (q = p)) as [->|Hqp].
    + rewrite lookup_insert_eq in Hq. injection Hq as <-.
      destruct (decide (f = e)) as [->|Hfe].
      * rewrite lookup_insert_eq in Hf. injection Hf as <-.
        destruct (decide (id = n)) as [->|Hidn].
        -- rewrite lookup_insert_eq in Hid. injection Hid as <-. left. auto.
        -- rewrite lookup_insert_ne in Hid by congruence. right.
           split; [intros (_ & _ & ?); contradiction|].
           destruct (reg !! p) as [eps0|]; simpl in Hid;
             [|rewrite lookup_empty in Hid; discriminate].
           destruct (eps0 !! e) as [texs0|] eqn:He0; simpl in Hid;
             [|rewrite lookup_empty in Hid; discriminate].
           eauto.
      * rewrite lookup_insert_ne in Hf by congruence. right.
        split; [intros (_ & ? & _); contradiction|].
        destruct (reg !! p) as [eps0|]; simpl in Hf;
          [|rewrite lookup_empty in Hf; discriminate].
        eauto.
    + rewrite lookup_insert_ne in Hq by congruence. right.
      split; [intros (? & _); contradiction|]. eauto.
  - intros [(-> & -> & -> & ->) | (Hne & eps & texs & Hq & Hf & Hid)].
    + do 2 eexists. rewrite !lookup_insert_eq. auto.
    + destruct (decide (q = p)) as [->|Hqp].
      * rewrite lookup_insert_eq. rewrite Hq. simpl.
        destruct (decide (f = e)) as [->|Hfe].
        -- rewrite Hf. simpl.
           assert (id <> n) by (intros ->; apply Hne; auto).
           do 2 eexists. split; [reflexivity|].
           rewrite lookup_insert_eq. split; [reflexivity|].
           rewrite lookup_insert_ne by congruence. exact Hid.
        -- do 2 eexists. split; [reflexivity|].
           rewrite lookup_insert_ne by congruence. eauto.
      * rewrite lookup_insert_ne by congruence. eauto.
Qed.

Lemma stored_delete reg p q f id u :
  stored (delete p reg) q f id u <-> q <> p /\ stored reg q f id u.
Proof.
  unfold stored. split.
  - intros (eps & texs & Hq & Hf & Hid).
    apply lookup_delete_Some in Hq as [Hne Hq]. split; [congruence|]. eauto.
  - intros [Hne (eps & texs & Hq & Hf & Hid)]. exists eps, texs.
    rewrite lookup_delete_ne by congruence. auto.
Qed.

Lemma stored_filter reg p w eps q f id u :
  reg !! p = Some eps ->
  stored (<[p := filter (fun kv : nat * gmap nat Texture => w < kv.1) eps]> reg) q f id u <->
  (q = p -> w < f) /\ stored reg q f id u.
Proof.
  intros Hp. unfold stored. split.
  - intros (eps' & texs & Hq & Hf & Hid).
    destruct (decide (q = p)) as [->|Hqp].
    + rewrite lookup_insert_eq in Hq. injection Hq as <-.
      apply map_lookup_filter_Some in Hf as [Hf Hw]. simpl in Hw.
      split; [auto|]. eauto.
    + rewrite lookup_insert_ne in Hq by congruence. split; [congruence|]. eauto.
  - intros [Hw (eps' & texs & Hq & Hf & Hid)].
    destruct (decide (q = p)) as [->|Hqp].
    + rewrite Hp in Hq. injection Hq as <-.
      exists (filter (fun kv : nat * gmap nat Texture => w < kv.1) eps), texs.
      rewrite lookup_insert_eq. split; [reflexivity|]. split; [|exact Hid].
      apply map_lookup_filter_Some. split; [exact Hf|]. simpl. auto.
    + exists eps', texs. rewrite lookup_insert_ne by congruence. auto.
Qed.

Lemma stored_below g reg p e id t :
  reachable g -> active_gl_textures g = Some reg -> stored reg p e id t ->
  id < next_external_image_id g.
Proof.
  intros Hg Hreg Hs. apply (reachable_ids_below g Hg reg id t Hreg).
  apply located_stored. eauto.
Qed.

Lemma reachable_unique g : reachable g -> unique_ids g.
Proof.
  intros Hg. induction Hg as [| p e t g Hg IH | p g Hg IH | p w g Hg IH | g Hg IH];
    intros reg Hreg p1 e1 p2 e2 id t1 t2 Hs1 Hs2.
  - discriminate.
  - simpl in Hreg. injection Hreg as <-.
    change (stored (registry_insert (default ∅ (active_gl_textures g)) p e
                      (next_external_image_id g) t) p1 e1 id t1) in Hs1.
    change (stored (registry_insert (default ∅ (active_gl_textures g)) p e
                      (next_external_image_id g) t) p2 e2 id t2) in Hs2.
    apply stored_insert in Hs1, Hs2.
    assert (Hold : forall q f u, stored (default ∅ (active_gl_textures g)) q f
                                   (next_external_image_id g) u -> False).
    { intros q f u Hs. destruct (active_gl_textures g) as [r|] eqn:Hr.
      - pose proof (stored_below g r q f _ u Hg Hr Hs). lia.
      - exact (stored_empty _ _ _ _ Hs). }
    destruct Hs1 as [(-> & -> & -> & ->) | (Hne1 & Hs1)];
      destruct Hs2 as [(-> & -> & Hid & ->) | (Hne2 & Hs2)].
    + auto.
    + exfalso. exact (Hold _ _ _ Hs2).
    + subst id. exfalso. exact (Hold _ _ _ Hs1).
    + destruct (active_gl_textures g) as [r|] eqn:Hr.
      * exact (IH r Hr _ _ _ _ _ _ _ Hs1 Hs2).
      * exfalso. exact (stored_empty _ _ _ _ Hs1).
  - unfold gl_textures_remove_active_pipeline in Hreg.
    destruct (active_gl_textures g) as [r|] eqn:Hr.
    + simpl in Hreg. injection Hreg as <-.
      apply stored_delete in Hs1 as [_ Hs1], Hs2 as [_ Hs2].
      exact (IH r Hr _ _ _ _ _ _ _ Hs1 Hs2).
    + rewrite Hr in Hreg. discriminate.
  - unfold gl_textures_remove_epochs_from_pipeline in Hreg.
    destruct (active_gl_textures g) as [r|] eqn:Hr; [|rewrite Hr in Hreg; discriminate].
    destruct (r !! p) as [eps|] eqn:Hp.
    + simpl in Hreg. injection Hreg as <-.
      apply (stored_filter r p w eps) in Hs1 as [_ Hs1], Hs2 as [_ Hs2]; try exact Hp.
      exact (IH r Hr _ _ _ _ _ _ _ Hs1 Hs2).
    + rewrite Hr in Hreg. injection Hreg as <-.
      exact (IH r Hr _ _ _ _ _ _ _ Hs1 Hs2).
  - discriminate.
Qed.

(** In a reachable state, the lookup answers with the data of the one
    stored texture, and nothing when the id is not stored. *)
Lemma lookup_stored g (Hg : reachable g) id x :
  get_opengl_texture id g = Some x <->
  exists reg p e t, active_gl_textures g = Some reg /\ stored reg p e id t /\ x = tex_data t.
Proof.
  unfold get_opengl_texture. split.
  - destruct (active_gl_textures g) as [reg|] eqn:Hreg; [|discriminate].
    destruct (find_texture reg id) as [t|] eqn:Hf; [|discriminate].
    simpl. intros [= <-].
    apply find_texture_located, located_stored in Hf as (p & e & Hs).
    exists reg, p, e, t. auto.
  - intros (reg & p & e & t & Hreg & Hs & ->). rewrite Hreg.
    assert (Hl : located reg id t) by (apply located_stored; eauto).
    destruct (find_texture_complete _ _ _ Hl) as [t' Ht']. rewrite Ht'. simpl.
    apply find_texture_located, located_stored in Ht' as (p' & e' & Hs').
    destruct (reachable_unique g Hg reg Hreg _ _ _ _ _ _ _ Hs Hs') as (_ & _ & ->).
    reflexivity.
Qed.

Lemma lookup_none g (Hg : reachable g) id :
  get_opengl_texture id g = None <->
  forall reg p e t, active_gl_textures g = Some reg -> ~ stored reg p e id t.
Proof.
  split.
  - intros Hn reg p e t Hreg Hs.
    assert (H : get_opengl_texture id g = Some (tex_data t))
      by (apply (lookup_stored g Hg); exists reg, p, e, t; auto).
    congruence.
  - intros Hnot. destruct (get_opengl_texture id g) as [x|] eqn:Hx; [|reflexivity].
    apply (lookup_stored g Hg) in Hx as (reg & p & e & t & Hreg & Hs & _).
    exfalso. exact (Hnot reg p e t Hreg Hs).
Qed.

(** A sequence of calls of the registry's public functions. *)
Inductive RegistryOp :=
  | OpInsert (pipeline_id epoch : nat) (texture : Texture)
  | OpRemovePipeline (pipeline_id : nat)
  | OpRemoveEpochs (pipeline_id epoch : nat)
  | OpClear.

Definition apply_op (g : GlGlobals) (op : RegistryOp) : GlGlobals :=
  match op with
  | OpInsert p e t => (insert_into_active_gl_textures p e t g).2
  | OpRemovePipeline p => gl_textures_remove_active_pipeline p g
  | OpRemoveEpochs p e => gl_textures_remove_epochs_from_pipeline p e g
  | OpClear => gl_textures_clear_opengl_cache g
  end.

Definition run_ops (ops : list RegistryOp) (g : GlGlobals) : GlGlobals :=
  fold_left apply_op ops g.

Lemma apply_op_reachable g op : reachable g -> reachable (apply_op g op).
Proof.
  destruct op; simpl; intros H.
  - apply reach_insert, H.
  - apply reach_remove_pipeline, H.
  - apply reach_remove_epochs, H.
  - apply reach_clear, H.
Qed.

Lemma apply_op_counter g op : next_external_image_id g <= next_external_image_id (apply_op g op).
Proof.
  destruct op; simpl.
  - lia.
  - unfold gl_textures_remove_active_pipeline. destruct (active_gl_textures g); simpl; lia.
  - unfold gl_textures_remove_epochs_from_pipeline.
    destruct (active_gl_textures g) as [r|]; [destruct (r !! pipeline_id)|]; simpl; lia.
  - lia.
Qed.

(** One operation never brings back an id below the counter that is not
    stored. *)
Lemma apply_op_keeps_absent g op id :
  reachable g -> id < next_external_image_id g -> get_opengl_texture id g = None ->
  get_opengl_texture id (apply_op g op) = None.
Proof.
  intros Hg Hlt Hn. apply (lookup_none _ (apply_op_reachable g op Hg)).
  intros reg q f u Hreg Hs.
  rewrite (lookup_none g Hg) in Hn.
  destruct op as [p e t | p | p w |]; simpl in Hreg.
  - injection Hreg as <-.
    change (stored (registry_insert (default ∅ (active_gl_textures g)) p e
                      (next_external_image_id g) t) q f id u) in Hs.
    apply stored_insert in Hs as [(_ & _ & -> & _) | (_ & Hs)]; [lia|].
    destruct (active_gl_textures g) as [r|] eqn:Hr.
    + exact (Hn r q f u eq_refl Hs).
    + exact (stored_empty _ _ _ _ Hs).
  - unfold gl_textures_remove_active_pipeline in Hreg.
    destruct (active_gl_textures g) as [r|] eqn:Hr; simpl in Hreg;
      [|rewrite Hr in Hreg; discriminate].
    injection Hreg as <-. apply stored_delete in Hs as [_ Hs].
    exact (Hn r q f u eq_refl Hs).
  - unfold gl_textures_remove_epochs_from_pipeline in Hreg.
    destruct (active_gl_textures g) as [r|] eqn:Hr; [|rewrite Hr in Hreg; discriminate].
    destruct (r !! p) as [eps|] eqn:Hp.
    + simpl in Hreg. injection Hreg as <-.
      apply (stored_filter r p w eps) in Hs as [_ Hs]; [|exact Hp].
      exact (Hn r q f u eq_refl Hs).
    + rewrite Hr in Hreg. injection Hreg as <-. exact (Hn r q f u eq_refl Hs).
  - discriminate.
Qed.
(** Extra X1: in every state reached through the registry's functions, an
    image id is stored under at most one pipeline and one epoch, and
    [get_opengl_texture] returns exactly the GL handle and size of that
    stored texture (whatever the hash maps' iteration order), and nothing
    for an id that is not stored. *)
Theorem lookup_returns_the_stored_texture (g : GlGlobals) (Hg : reachable g)
    (reg : gmap nat (gmap nat (gmap nat Texture))) (Hreg : active_gl_textures g = Some reg)
    (id : nat) :
  (forall p1 e1 t1 p2 e2 t2, stored reg p1 e1 id t1 -> stored reg p2 e2 id t2 ->
     p1 = p2 /\ e1 = e2 /\ t1 = t2) /\
  (forall p e t, stored reg p e id t -> get_opengl_texture id g = Some (tex_data t)) /\
  ((forall p e t, ~ stored reg p e id t) -> get_opengl_texture id g = None).
Proof.
  split; [|split].
  - intros p1 e1 t1 p2 e2 t2 Hs1 Hs2.
    exact (reachable_unique g Hg reg Hreg _ _ _ _ _ _ _ Hs1 Hs2).
  - intros p e t Hs. apply (lookup_stored g Hg). exists reg, p, e, t. auto.
  - intros Hnot. apply (lookup_none g Hg).
    intros reg' p e t Hreg'. rewrite Hreg in Hreg'. injection Hreg' as <-. apply Hnot.
Qed.

Lemma lookup_returns_the_stored_texture_witness :
  let g := (insert_into_active_gl_textures 2 9 (mkTexture 6 10 20)
             (insert_into_active_gl_textures 1 4 (mkTexture 5 64 32) initial_globals).2).2 in
  reachable g /\
  exists reg, active_gl_textures g = Some reg /\
  stored reg 1 4 0 (mkTexture 5 64 32) /\
  get_opengl_texture 0 g = Some (tex_data (mkTexture 5 64 32)).
Proof.
  intros g.
  assert (Hg : reachable g) by (apply reach_insert, reach_insert, reach_init).
  split; [exact Hg|].
  destruct (active_gl_textures g) as [reg|] eqn:Hreg; [|vm_compute in Hreg; discriminate].
  assert (Hs : stored reg 1 4 0 (mkTexture 5 64 32)).
  { vm_compute in Hreg. injection Hreg as <-. do 2 eexists. vm_compute. auto. }
  exists reg. split; [reflexivity|]. split; [exact Hs|].
  exact (proj1 (proj2 (lookup_returns_the_stored_texture g Hg reg Hreg 0)) 1 4 _ Hs).
Defined.

(** Extra X2: [gl_textures_remove_active_pipeline p] makes every texture of
    pipeline [p] unreachable by [get_opengl_texture] and leaves the lookup
    of every texture of another pipeline unchanged. *)
Theorem remove_active_pipeline_lookup (g : GlGlobals) (Hg : reachable g)
    (reg : gmap nat (gmap nat (gmap nat Texture))) (Hreg : active_gl_textures g = Some reg)
    (q e id : nat) (t : Texture) (Hs : stored reg q e id t) (p : nat) :
  get_opengl_texture id (gl_textures_remove_active_pipeline p g) =
    if Nat.eqb q p then None else Some (tex_data t).
Proof.
  assert (Hg' := reach_remove_pipeline p g Hg).
  unfold gl_textures_remove_active_pipeline in *. rewrite Hreg in Hg' |- *.
  destruct (Nat.eqb_spec q p) as [->|Hqp].
  - apply (lookup_none _ Hg'). simpl. intros reg' p' e' t' [= <-] Hs'.
    apply stored_delete in Hs' as [Hne Hs'].
    destruct (reachable_unique g Hg reg Hreg _ _ _ _ _ _ _ Hs Hs') as (-> & _). congruence.
  - apply (lookup_stored _ Hg'). exists (delete p reg), q, e, t. simpl.
    split; [reflexivity|]. split; [|reflexivity]. apply stored_delete. auto.
Qed.

Lemma remove_active_pipeline_lookup_witness :
  let g := (insert_into_active_gl_textures 2 9 (mkTexture 6 10 20)
             (insert_into_active_gl_textures 1 4 (mkTexture 5 64 32) initial_globals).2).2 in
  reachable g /\
  exists reg, active_gl_textures g = Some reg /\
  stored reg 2 9 1 (mkTexture 6 10 20) /\
  get_opengl_texture 1 (gl_textures_remove_active_pipeline 1 g) = Some (tex_data (mkTexture 6 10 20)).
Proof.
  intros g.
  assert (Hg : reachable g) by (apply reach_insert, reach_insert, reach_init).
  split; [exact Hg|].
  destruct (active_gl_textures g) as [reg|] eqn:Hreg; [|vm_compute in Hreg; discriminate].
  assert (Hs : stored reg 2 9 1 (mkTexture 6 10 20)).
  { vm_compute in Hreg. injection Hreg as <-. do 2 eexists. vm_compute. auto. }
  exists reg. split; [reflexivity|]. split; [exact Hs|].
  exact (remove_active_pipeline_lookup g Hg reg Hreg 2 9 1 _ Hs 1).
Defined.

(** Extra X3: [gl_textures_remove_epochs_from_pipeline p w] removes from the
    lookup exactly the textures of pipeline [p] whose epoch is at most [w]
    (the watermark epoch included), and keeps every other texture, of
    that pipeline or of any other, with its data. *)
Theorem remove_epochs_lookup (g : GlGlobals) (Hg : reachable g)
    (reg : gmap nat (gmap nat (gmap nat Texture))) (Hreg : active_gl_textures g = Some reg)
    (q e id : nat) (t : Texture) (Hs : stored reg q e id t) (p w : nat) :
  get_opengl_texture id (gl_textures_remove_epochs_from_pipeline p w g) =
    if Nat.eqb q p && Nat.leb e w then None else Some (tex_data t).
Proof.
  assert (Hg' := reach_remove_epochs p w g Hg).
  unfold gl_textures_remove_epochs_from_pipeline in *. rewrite Hreg in Hg' |- *.
  destruct (reg !! p) as [eps|] eqn:Hp.
  - destruct (Nat.eqb_spec q p) as [->|Hqp]; destruct (Nat.leb_spec e w) as [Hew|Hew]; simpl.
    + apply (lookup_none _ Hg'). simpl. intros reg' p' e' t' [= <-] Hs'.
      apply (stored_filter reg p w eps) in Hs' as [Hw Hs']; [|exact Hp].
      destruct (reachable_unique g Hg reg Hreg _ _ _ _ _ _ _ Hs Hs') as (-> & -> & _).
      specialize (Hw eq_refl). lia.
    + apply (lookup_stored _ Hg'). eexists _, p, e, t. simpl.
      split; [reflexivity|]. split; [|reflexivity].
      apply (stored_filter reg p w eps); [exact Hp|]. auto.
    + apply (lookup_stored _ Hg'). eexists _, q, e, t. simpl.
      split; [reflexivity|]. split; [|reflexivity].
      apply (stored_filter reg p w eps); [exact Hp|]. split; [congruence|exact Hs].
    + apply (lookup_stored _ Hg'). eexists _, q, e, t. simpl.
      split; [reflexivity|]. split; [|reflexivity].
      apply (stored_filter reg p w eps); [exact Hp|]. split; [congruence|exact Hs].
  - assert (q <> p).
    { intros ->. destruct Hs as (eps & texs & Hq & _). congruence. }
    replace (Nat.eqb q p) with false by (symmetry; apply Nat.eqb_neq; exact H).
    simpl. apply (lookup_stored _ Hg'). exists reg, q, e, t. auto.
Qed.

Lemma remove_epochs_lookup_witness :
  let g := (insert_into_active_gl_textures 1 9 (mkTexture 6 10 20)
             (insert_into_active_gl_textures 1 4 (mkTexture 5 64 32) initial_globals).2).2 in
  reachable g /\
  exists reg, active_gl_textures g = Some reg /\
  stored reg 1 9 1 (mkTexture 6 10 20) /\
  get_opengl_texture 1 (gl_textures_remove_epochs_from_pipeline 1 9 g) = None.
Proof.
  intros g.
  assert (Hg : reachable g) by (apply reach_insert, reach_insert, reach_init).
  split; [exact Hg|].
  destruct (active_gl_textures g) as [reg|] eqn:Hreg; [|vm_compute in Hreg; discriminate].
  assert (Hs : stored reg 1 9 1 (mkTexture 6 10 20)).
  { vm_compute in Hreg. injection Hreg as <-. do 2 eexists. vm_compute. auto. }
  exists reg. split; [reflexivity|]. split; [exact Hs|].
  exact (remove_epochs_lookup g Hg reg Hreg 1 9 1 _ Hs 1 9).
Defined.

(** Extra X4: registering a texture never changes what an already
    registered id looks up to. *)
Theorem insert_keeps_other_lookups (g : GlGlobals) (Hg : reachable g)
    (id : nat) (x : N * (Q * Q)) (Hx : get_opengl_texture id g = Some x)
    (p e : nat) (t : Texture) :
  get_opengl_texture id (insert_into_active_gl_textures p e t g).2 = Some x.
Proof.
  apply (lookup_stored g Hg) in Hx as (reg & q & f & u & Hreg & Hs & ->).
  apply (lookup_stored _ (reach_insert p e t g Hg)).
  exists (registry_insert reg p e (next_external_image_id g) t), q, f, u.
  simpl. rewrite Hreg. split; [reflexivity|]. split; [|reflexivity].
  apply stored_insert. right. split; [|exact Hs].
  intros (_ & _ & ->). pose proof (stored_below g reg q f _ u Hg Hreg Hs). lia.
Qed.

Lemma insert_keeps_other_lookups_witness :
  let g := (insert_into_active_gl_textures 1 4 (mkTexture 5 64 32) initial_globals).2 in
  reachable g /\ get_opengl_texture 0 g = Some (5%N, (64%Q, 32%Q)) /\
  get_opengl_texture 0 (insert_into_active_gl_textures 1 4 (mkTexture 6 1 1) g).2 =
    Some (5%N, (64%Q, 32%Q)).
Proof.
  intros g.
  assert (Hg : reachable g) by (apply reach_insert, reach_init).
  assert (Hx : get_opengl_texture 0 g = Some (5%N, (64%Q, 32%Q))) by (vm_compute; reflexivity).
  split; [exact Hg|]. split; [exact Hx|].
  exact (insert_keeps_other_lookups g Hg 0 _ Hx 1 4 (mkTexture 6 1 1)).
Defined.

(** Extra X5: an id that was handed out and is no longer found (its pipeline
    or epoch removed, or the cache cleared) is never found again, whatever
    registrations and removals follow: ids are never reused. *)
Theorem evicted_id_never_returns (g : GlGlobals) (Hg : reachable g) (id : nat)
    (Hminted : id < next_external_image_id g)
    (Hgone : get_opengl_texture id g = None) (ops : list RegistryOp) :
  get_opengl_texture id (run_ops ops g) = None.
Proof.
  unfold run_ops. revert g Hg Hminted Hgone.
  induction ops as [|op ops IH]; intros g Hg Hminted Hgone; simpl; [exact Hgone|].
  apply IH.
  - apply apply_op_reachable, Hg.
  - pose proof (apply_op_counter g op). lia.
  - apply apply_op_keeps_absent; assumption.
Qed.

Lemma evicted_id_never_returns_witness :
  let g := gl_textures_remove_active_pipeline 1
             (insert_into_active_gl_textures 1 4 (mkTexture 5 64 32) initial_globals).2 in
  reachable g /\ 0 < next_external_image_id g /\ get_opengl_texture 0 g = None /\
  get_opengl_texture 0 (run_ops [OpInsert 1 4 (mkTexture 5 64 32); OpClear;
                                 OpInsert 2 0 (mkTexture 7 8 8)] g) = None.
Proof.
  intros g.
  assert (Hg : reachable g) by (apply reach_remove_pipeline, reach_insert, reach_init).
  assert (H0 : 0 < next_external_image_id g) by (vm_compute; lia).
  assert (Hn : get_opengl_texture 0 g = None) by (vm_compute; reflexivity).
  split; [exact Hg|]. split; [exact H0|]. split; [exact Hn|].
  exact (evicted_id_never_returns g Hg 0 H0 Hn _).
Defined.

End RegistryExtraProofs.

(* ================================================================== *)
(** ** Proofs: scroll-clip analysis, further properties *)
(* ================================================================== *)

Module ScrollClipExtraProofs.
Import ScrollClip.

Section Step.
Context {NodeData : Type} (hash : NodeData -> Z).
Context (h : list (list nat)) (tags : list (option nat)) (dom : list NodeData)
        (lr : list PositionedRectangle) (pipeline : nat).

Definition child_bounds (p : nat) : option (list LayoutRect) :=
  map_option_list (fun child_id => bounds <$> lr !! child_id) (default [] (h !! p)).

Definition analyzer_step (st : option (ScrolledNodes * nat)) (dp : nat * nat) :=
  let '(_, parent) := dp in scroll_clip_step hash h tags dom lr pipeline st parent.

(** A node's entry is justified: a scrolling overflow, at least one child,
    and a scroll rectangle that the rounded containment check rejects. *)
Definition entry_ok (p : nat) (e : OverflowingScrollNode) : Prop :=
  exists pr cb, lr !! p = Some pr /\ (overflow pr = Scroll \/ overflow pr = Auto) /\
    default [] (h !! p) <> [] /\ child_bounds p = Some cb /\
    get_scroll_rect (bounds pr) cb = Some (child_rect e) /\
    contains_rect_rounded (bounds pr) (child_rect e) = false.

Lemma map_option_list_length {A B} (f : A -> option B) l l' :
  map_option_list f l = Some l' -> length l' = length l.
Proof.
  revert l'; induction l as [|x xs IH]; intros l' H; simpl in H.
  - injection H as <-. reflexivity.
  - destruct (f x); [|discriminate]. destruct (map_option_list f xs) eqn:Hx; [|discriminate].
    injection H as <-. simpl. rewrite (IH _ eq_refl). reflexivity.
Qed.

Lemma step_some_cases sn n parent sn' n' :
  scroll_clip_step hash h tags dom lr pipeline (Some (sn, n)) parent = Some (sn', n') ->
  (sn' = sn /\ n' = n) \/
  (exists pr cb r node tag,
     lr !! parent = Some pr /\ (overflow pr = Scroll \/ overflow pr = Auto) /\
     child_bounds parent = Some cb /\ get_scroll_rect (bounds pr) cb = Some r /\
     contains_rect_rounded (bounds pr) r = false /\ dom !! parent = Some node /\
     ((mjoin (tags !! parent) = Some tag /\ n' = n) \/
      (mjoin (tags !! parent) = None /\ tag = n /\ n' = S n)) /\
     sn' = mkScrolledNodes
             (<[parent := mkOverflowingScrollNode r (mkExternalScrollId (hash node) pipeline)
                            (hash node) tag]> (overflowing_nodes sn))
             (<[tag := parent]> (tags_to_node_ids sn))).
Proof.
  unfold scroll_clip_step, child_bounds.
  destruct (lr !! parent) as [pr|] eqn:Hpr; [|discriminate].
  destruct (map_option_list _ _) as [cb|] eqn:Hcb; [|discriminate].
  destruct (get_scroll_rect _ cb) as [r|] eqn:Hr; [|intros [= <- <-]; left; auto].
  destruct (contains_rect_rounded _ _) eqn:Hc; [intros [= <- <-]; left; auto|].
  destruct (overflow pr) eqn:Hov; try (intros [= <- <-]; left; auto).
  all: destruct (dom !! parent) as [node|] eqn:Hnode; [|discriminate].
  all: destruct (mjoin (tags !! parent)) as [t|] eqn:Ht; intros [= <- <-]; right.
  all: eexists pr, cb, r, node, _; repeat split; auto.
Qed.

Lemma fold_from_none ps : fold_left analyzer_step ps None = None.
Proof.
  induction ps as [|[d p] ps IH]; simpl; [reflexivity|]. exact IH.
Qed.

Definition sound_inv (done : list (nat * nat)) (st : option (ScrolledNodes * nat)) : Prop :=
  forall sn n, st = Some (sn, n) -> forall p e, overflowing_nodes sn !! p = Some e ->
  (exists d, In (d, p) done) /\ entry_ok p e.

Lemma fold_sound ps : forall done st,
  sound_inv done st -> sound_inv (done ++ ps) (fold_left analyzer_step ps st).
Proof.
  induction ps as [|[d parent] ps IH]; intros done st Hinv; simpl.
  - rewrite app_nil_r. exact Hinv.
  - replace (done ++ (d, parent) :: ps) with ((done ++ [(d, parent)]) ++ ps)
      by (rewrite <- app_assoc; reflexivity).
    apply IH. intros sn' n' Hst p e He.
    destruct st as [[sn n]|]; [|discriminate].
    apply step_some_cases in Hst as [[-> ->] | (pr & cb & r & node & tag & Hpr & Hov & Hcb &
                                               Hr & Hc & Hnode & Htag & ->)].
    + destruct (Hinv sn n eq_refl p e He) as [[d' Hin] Hok].
      split; [exists d'; apply in_or_app; left; exact Hin | exact Hok].
    + simpl in He. destruct (decide (parent = p)) as [<-|Hne].
      * rewrite lookup_insert_eq in He. injection He as <-.
        split; [exists d; apply in_or_app; right; left; reflexivity|].
        exists pr, cb. repeat split; auto.
        intros Hnil. unfold child_bounds in Hcb. rewrite Hnil in Hcb. simpl in Hcb.
        injection Hcb as <-. discriminate.
      * rewrite lookup_insert_ne in He by exact Hne.
        destruct (Hinv sn n eq_refl p e He) as [[d' Hin] Hok].
        split; [exists d'; apply in_or_app; left; exact Hin | exact Hok].
Qed.

Lemma fold_keeps_keys ps : forall sn n sn' n',
  fold_left analyzer_step ps (Some (sn, n)) = Some (sn', n') ->
  forall p, is_Some (overflowing_nodes sn !! p) -> is_Some (overflowing_nodes sn' !! p).
Proof.
  induction ps as [|[d parent] ps IH]; intros sn n sn' n' Hf p Hp.
  - simpl in Hf. injection Hf as <- <-. exact Hp.
  - change (fold_left analyzer_step ps
              (scroll_clip_step hash h tags dom lr pipeline (Some (sn, n)) parent) =
            Some (sn', n')) in Hf.
    destruct (scroll_clip_step hash h tags dom lr pipeline (Some (sn, n)) parent)
      as [[sn1 n1]|] eqn:Hs; [|rewrite fold_from_none in Hf; discriminate].
    apply (IH sn1 n1 sn' n' Hf).
    apply step_some_cases in Hs as [[-> ->] | (pr & cb & r & node & tag & _ & _ & _ &
                                               _ & _ & _ & _ & ->)]; [exact Hp|].
    simpl. destruct (decide (parent = p)) as [<-|Hne].
    + rewrite lookup_insert_eq. eexists. reflexivity.
    + rewrite lookup_insert_ne by exact Hne. exact Hp.
Qed.

Lemma step_adds sn n sn1 n1 p pr cb r :
  lr !! p = Some pr -> (overflow pr = Scroll \/ overflow pr = Auto) ->
  child_bounds p = Some cb -> get_scroll_rect (bounds pr) cb = Some r ->
  contains_rect_rounded (bounds pr) r = false ->
  scroll_clip_step hash h tags dom lr pipeline (Some (sn, n)) p = Some (sn1, n1) ->
  is_Some (overflowing_nodes sn1 !! p).
Proof.
  intros Hpr Hov Hcb Hr Hc Hs. unfold scroll_clip_step in Hs. unfold child_bounds in Hcb.
  rewrite Hpr, Hcb, Hr, Hc in Hs.
  destruct (overflow pr); destruct Hov as [Hov|Hov]; try discriminate.
  all: destruct (dom !! p); [|discriminate].
  all: destruct (mjoin (tags !! p)); injection Hs as <- _; simpl;
       rewrite lookup_insert_eq; eexists; reflexivity.
Qed.

Lemma fold_complete ps : forall sn n sn' n',
  fold_left analyzer_step ps (Some (sn, n)) = Some (sn', n') ->
  forall d p pr cb r, In (d, p) ps -> lr !! p = Some pr ->
  (overflow pr = Scroll \/ overflow pr = Auto) -> child_bounds p = Some cb ->
  get_scroll_rect (bounds pr) cb = Some r -> contains_rect_rounded (bounds pr) r = false ->
  is_Some (overflowing_nodes sn' !! p).
Proof.
  induction ps as [|[d0 parent] ps IH]; intros sn n sn' n' Hf d p pr cb r Hin Hpr Hov Hcb Hr Hc;
    [destruct Hin|].
  change (fold_left analyzer_step ps
            (scroll_clip_step hash h tags dom lr pipeline (Some (sn, n)) parent) =
          Some (sn', n')) in Hf.
  destruct (scroll_clip_step hash h tags dom lr pipeline (Some (sn, n)) parent)
    as [[sn1 n1]|] eqn:Hs; [|rewrite fold_from_none in Hf; discriminate].
  destruct Hin as [Heq | Hin].
  - injection Heq as -> ->.
    apply (fold_keeps_keys ps sn1 n1 sn' n' Hf).
    exact (step_adds sn n sn1 n1 p pr cb r Hpr Hov Hcb Hr Hc Hs).
  - exact (IH sn1 n1 sn' n' Hf d p pr cb r Hin Hpr Hov Hcb Hr Hc).
Qed.

Definition tag_inv (tag0 : nat) (st : option (ScrolledNodes * nat)) : Prop :=
  forall sn n, st = Some (sn, n) -> tag0 <= n /\
  forall p e, overflowing_nodes sn !! p = Some e ->
    tags_to_node_ids sn !! scroll_tag_id e = Some p /\
    (mjoin (tags !! p) = Some (scroll_tag_id e) \/
     (mjoin (tags !! p) = None /\ tag0 <= scroll_tag_id e < n)).

Lemma fold_tags (tag0 : nat)
    (Hfresh : forall q t, mjoin (tags !! q) = Some t -> t < tag0)
    (Hdistinct : forall q1 q2 t, mjoin (tags !! q1) = Some t -> mjoin (tags !! q2) = Some t ->
                                 q1 = q2) ps :
  forall st, tag_inv tag0 st -> tag_inv tag0 (fold_left analyzer_step ps st).
Proof.
  induction ps as [|[d parent] ps IH]; intros st Hinv; [exact Hinv|].
  change (tag_inv tag0 (fold_left analyzer_step ps (analyzer_step st (d, parent)))).
  apply IH. intros sn' n' Hst.
  destruct st as [[sn n]|]; [|discriminate].
  destruct (Hinv sn n eq_refl) as [Hn Hall].
  apply step_some_cases in Hst as [[-> ->] | (pr & cb & r & node & tag & _ & _ & _ &
                                             _ & _ & _ & Htag & ->)]; [auto|].
  assert (Hn' : n <= n') by (destruct Htag as [[_ ->]|(_ & _ & ->)]; lia).
  split; [lia|]. intros p e He. simpl in He |- *.
  destruct (decide (parent = p)) as [<-|Hne].
  - rewrite lookup_insert_eq in He. injection He as <-. simpl.
    rewrite lookup_insert_eq. split; [reflexivity|].
    destruct Htag as [[Ht _]|(Ht & -> & ->)]; [left; exact Ht | right; split; [exact Ht | lia]].
  - rewrite lookup_insert_ne in He by exact Hne.
    destruct (Hall p e He) as [Hmap Hok].
    assert (Htne : tag <> scroll_tag_id e).
    { intros Heq. destruct Htag as [[Ht _]|(Ht & -> & _)];
        destruct Hok as [Hp|(Hp & Hlo & Hhi)].
      - apply Hne. apply (Hdistinct parent p tag Ht). rewrite Heq. exact Hp.
      - pose proof (Hfresh _ _ Ht). lia.
      - pose proof (Hfresh _ _ Hp). lia.
      - lia. }
    rewrite lookup_insert_ne by exact Htne. split; [exact Hmap|].
    destruct Hok as [Hp|(Hp & Hlo & Hhi)]; [left; exact Hp | right; split; [exact Hp|lia]].
Qed.

End Step.

(** Extra X6: a run of [get_nodes_that_need_scroll_clip] that completes has
    an entry for node [p] exactly when [p] is among the [parents] passed
    in, its overflow is [scroll] or [auto], it has at least one child, and
    the rounded containment check rejects the rectangle [get_scroll_rect]
    returns for its bounds and its children's bounds (the union of the
    node's own bounds with its children's); the entry's [child_rect] is
    that rectangle. Nodes with [overflow: visible] or
    [hidden], and leaves, never get an entry. *)
Theorem scroll_clip_entries_exact {NodeData : Type} (calculate_node_data_hash : NodeData -> Z)
    (node_hierarchy : list (list nat)) (display_list_tags : list (option nat))
    (dom_rects : list NodeData) (layouted_rects : list PositionedRectangle)
    (parents : list (nat * nat)) (pipeline_id next_tag : nat)
    (sn : ScrolledNodes) (next_tag' : nat)
    (Hrun : get_nodes_that_need_scroll_clip calculate_node_data_hash node_hierarchy
              display_list_tags dom_rects layouted_rects parents pipeline_id next_tag =
            Some (sn, next_tag'))
    (p : nat) :
  (forall e, overflowing_nodes sn !! p = Some e ->
     (exists d, In (d, p) parents) /\ entry_ok node_hierarchy layouted_rects p e) /\
  ((exists d, In (d, p) parents) ->
   forall pr cb r, layouted_rects !! p = Some pr ->
   (overflow pr = Scroll \/ overflow pr = Auto) ->
   child_bounds node_hierarchy layouted_rects p = Some cb ->
   get_scroll_rect (bounds pr) cb = Some r -> contains_rect_rounded (bounds pr) r = false ->
   exists e, overflowing_nodes sn !! p = Some e /\ child_rect e = r).
Proof.
  assert (Hfold : fold_left (analyzer_step calculate_node_data_hash node_hierarchy
                    display_list_tags dom_rects layouted_rects pipeline_id) parents
                    (Some (mkScrolledNodes ∅ ∅, next_tag)) = Some (sn, next_tag')).
  { exact Hrun. }
  assert (Hsound := fold_sound calculate_node_data_hash node_hierarchy display_list_tags
                      dom_rects layouted_rects pipeline_id parents []
                      (Some (mkScrolledNodes ∅ ∅, next_tag))).
  simpl in Hsound. rewrite Hfold in Hsound.
  assert (Hs : sound_inv node_hierarchy layouted_rects parents (Some (sn, next_tag'))).
  { apply Hsound. intros sn0 n0 [= <- _] q e He. simpl in He.
    rewrite lookup_empty in He. discriminate. }
  split.
  - intros e He. exact (Hs sn next_tag' eq_refl p e He).
  - intros [d Hin] pr cb r Hpr Hov Hcb Hr Hc.
    destruct (fold_complete calculate_node_data_hash node_hierarchy display_list_tags
                dom_rects layouted_rects pipeline_id parents _ _ _ _ Hfold d p pr cb r
                Hin Hpr Hov Hcb Hr Hc) as [e He].
    exists e. split; [exact He|].
    destruct (Hs sn next_tag' eq_refl p e He) as [_ (pr' & cb' & Hpr' & _ & _ & Hcb' & Hr' & _)].
    rewrite Hpr in Hpr'. rewrite Hcb in Hcb'. injection Hcb' as <-. congruence.
Qed.

Lemma scroll_clip_entries_exact_witness :
  let parent := mkPositionedRectangle (mkLayoutRect 0 0 100 100) Scroll in
  let child := mkPositionedRectangle (mkLayoutRect 0 0 300 300) Visible in
  exists sn n,
  get_nodes_that_need_scroll_clip (fun k : nat => Z.of_nat k) [[1]; []] [None; None] [7; 8]
    [parent; child] [(0, 0); (1, 1)] 4 0 = Some (sn, n) /\
  (exists e, overflowing_nodes sn !! 0 = Some e /\ child_rect e = mkLayoutRect 0 0 300 300) /\
  overflowing_nodes sn !! 1 = None.
Proof.
  intros parent child.
  destruct (get_nodes_that_need_scroll_clip (fun k : nat => Z.of_nat k) [[1]; []] [None; None]
              [7; 8] [parent; child] [(0, 0); (1, 1)] 4 0) as [[sn n]|] eqn:Hrun;
    [|vm_compute in Hrun; discriminate].
  exists sn, n. split; [reflexivity|].
  destruct (scroll_clip_entries_exact (fun k : nat => Z.of_nat k) [[1]; []] [None; None]
              [7; 8] [parent; child] [(0, 0); (1, 1)] 4 0 sn n Hrun 0) as [_ Hc].
  split.
  - apply (Hc (ex_intro _ 0 (or_introl eq_refl)) parent [mkLayoutRect 0 0 300 300]);
      vm_compute; auto.
  - vm_compute in Hrun. injection Hrun as <- _. vm_compute. reflexivity.
Defined.

(** Extra X7: provided the hit-test tags already on display rectangles are
    pairwise distinct and below the [ScrollTagId] counter, every entry of
    a completed run maps back to its node in [tags_to_node_ids]; its scroll
    tag is the node's own tag when it has one and a fresh counter value
    otherwise; so no two entries share a scroll tag. *)
Theorem scroll_tags_round_trip {NodeData : Type} (calculate_node_data_hash : NodeData -> Z)
    (node_hierarchy : list (list nat)) (display_list_tags : list (option nat))
    (dom_rects : list NodeData) (layouted_rects : list PositionedRectangle)
    (parents : list (nat * nat)) (pipeline_id next_tag : nat)
    (sn : ScrolledNodes) (next_tag' : nat)
    (Hrun : get_nodes_that_need_scroll_clip calculate_node_data_hash node_hierarchy
              display_list_tags dom_rects layouted_rects parents pipeline_id next_tag =
            Some (sn, next_tag'))
    (Hfresh : forall q t, mjoin (display_list_tags !! q) = Some t -> t < next_tag)
    (Hdistinct : forall q1 q2 t, mjoin (display_list_tags !! q1) = Some t ->
                                 mjoin (display_list_tags !! q2) = Some t -> q1 = q2) :
  (forall p e, overflowing_nodes sn !! p = Some e ->
     tags_to_node_ids sn !! scroll_tag_id e = Some p /\
     (mjoin (display_list_tags !! p) = Some (scroll_tag_id e) \/
      (mjoin (display_list_tags !! p) = None /\ next_tag <= scroll_tag_id e < next_tag'))) /\
  (forall p1 p2 e1 e2, overflowing_nodes sn !! p1 = Some e1 ->
     overflowing_nodes sn !! p2 = Some e2 -> scroll_tag_id e1 = scroll_tag_id e2 -> p1 = p2).
Proof.
  assert (Hfold : fold_left (analyzer_step calculate_node_data_hash node_hierarchy
                    display_list_tags dom_rects layouted_rects pipeline_id) parents
                    (Some (mkScrolledNodes ∅ ∅, next_tag)) = Some (sn, next_tag')).
  { exact Hrun. }
  assert (Hinv := fold_tags calculate_node_data_hash node_hierarchy display_list_tags
                    dom_rects layouted_rects pipeline_id next_tag Hfresh Hdistinct parents
                    (Some (mkScrolledNodes ∅ ∅, next_tag))).
  rewrite Hfold in Hinv.
  destruct (Hinv ltac:(intros sn0 n0 [= <- <-]; split; [lia|];
                       intros q e He; simpl in He; rewrite lookup_empty in He; discriminate)
              sn next_tag' eq_refl) as [_ Hall].
  split; [exact Hall|].
  intros p1 p2 e1 e2 He1 He2 Heq.
  destruct (Hall p1 e1 He1) as [H1 _]. destruct (Hall p2 e2 He2) as [H2 _].
  rewrite Heq, H2 in H1. injection H1 as ->. reflexivity.
Qed.

Lemma scroll_tags_round_trip_witness :
  let parent := mkPositionedRectangle (mkLayoutRect 0 0 100 100) Scroll in
  let child := mkPositionedRectangle (mkLayoutRect 0 0 300 300) Auto in
  let h := [[1; 2]; [2]; []] in
  let tags := [None; Some 3; None] in
  let lr := [parent; mkPositionedRectangle (mkLayoutRect 0 0 100 100) Auto; child] in
  exists sn n,
  get_nodes_that_need_scroll_clip (fun k : nat => Z.of_nat k) h tags [7; 8; 9]
    lr [(0, 0); (1, 1)] 4 10 = Some (sn, n) /\
  (forall q t, mjoin (tags !! q) = Some t -> t < 10) /\
  (forall q1 q2 t, mjoin (tags !! q1) = Some t -> mjoin (tags !! q2) = Some t -> q1 = q2) /\
  (forall p e, overflowing_nodes sn !! p = Some e ->
     tags_to_node_ids sn !! scroll_tag_id e = Some p /\
     (mjoin (tags !! p) = Some (scroll_tag_id e) \/
      (mjoin (tags !! p) = None /\ 10 <= scroll_tag_id e < n))).
Proof.
  intros parent child h tags lr.
  destruct (get_nodes_that_need_scroll_clip (fun k : nat => Z.of_nat k) h tags [7; 8; 9]
              lr [(0, 0); (1, 1)] 4 10) as [[sn n]|] eqn:Hrun;
    [|vm_compute in Hrun; discriminate].
  assert (Hfresh : forall q t, mjoin (tags !! q) = Some t -> t < 10).
  { intros q t Ht. destruct q as [|[|[|q]]]; vm_compute in Ht; try discriminate.
    injection Ht as <-. lia. }
  assert (Hdistinct : forall q1 q2 t, mjoin (tags !! q1) = Some t ->
                                      mjoin (tags !! q2) = Some t -> q1 = q2).
  { intros q1 q2 t H1 H2.
    destruct q1 as [|[|[|q1]]]; vm_compute in H1; try discriminate.
    destruct q2 as [|[|[|q2]]]; vm_compute in H2; try discriminate. reflexivity. }
  exists sn, n. split; [reflexivity|]. split; [exact Hfresh|]. split; [exact Hdistinct|].
  exact (proj1 (scroll_tags_round_trip (fun k : nat => Z.of_nat k) h tags [7; 8; 9] lr
                  [(0, 0); (1, 1)] 4 10 sn n Hrun Hfresh Hdistinct)).
Defined.

End ScrollClipExtraProofs.

(* ================================================================== *)
(** ** Proofs: text clip rectangles, beyond the claims *)
(* ================================================================== *)

Module TextClipExtraProofs.
Import ScrollClip RenderingOrder TextClip.

(** Extra X8: the clip of the text item built by [get_text] depends on
    [overflow-x] alone: it is absent when [overflow-x] resolves to
    [visible] and is the padding box otherwise. The two mixed arms of the
    match, the only ones that read the window size, are never taken. *)
Theorem get_text_clip_follows_overflow_x (bounds : LayoutRect) (padding : ResolvedOffsets)
    (root_window_size : LayoutSize) (glyphs : list nat) (font_instance_key font_color : nat)
    (rect_layout : RectLayout) :
  text_clip (get_text bounds padding root_window_size glyphs font_instance_key font_color
                      rect_layout) =
  if is_horizontal_overflow_visible rect_layout then None
  else Some (subtract_padding bounds padding).
Proof.
  unfold get_text. destruct (is_horizontal_overflow_visible rect_layout); reflexivity.
Qed.

(** Extra X9: a node for which [node_needs_to_clip_children] holds (neither
    axis resolves to [visible]) gets the padding box as the clip of its
    text, whatever the window size. *)
Theorem clipping_node_text_clip (bounds : LayoutRect) (padding : ResolvedOffsets)
    (root_window_size : LayoutSize) (glyphs : list nat) (font_instance_key font_color : nat)
    (rect_layout : RectLayout)
    (Hclip : node_needs_to_clip_children rect_layout = true) :
  text_clip (get_text bounds padding root_window_size glyphs font_instance_key font_color
                      rect_layout) = Some (subtract_padding bounds padding).
Proof.
  unfold node_needs_to_clip_children in Hclip. unfold get_text.
  destruct (is_horizontal_overflow_visible rect_layout); [discriminate|reflexivity].
Qed.

Lemma clipping_node_text_clip_witness :
  let layout := mkRectLayout (Some (Exact Hidden)) (Some (Exact Scroll)) in
  node_needs_to_clip_children layout = true /\
  text_clip (get_text (mkLayoutRect 10 20 200 100) (mkResolvedOffsets 5 5 5 5)
                      (mkLayoutSize 800 600) [] 0 0 layout) =
  Some (subtract_padding (mkLayoutRect 10 20 200 100) (mkResolvedOffsets 5 5 5 5)).
Proof.
  intros layout. split; [reflexivity|].
  apply clipping_node_text_clip. reflexivity.
Defined.

End TextClipExtraProofs.

(* ================================================================== *)
(** ** Proofs: dynamic CSS overrides, beyond the claims *)
(* ================================================================== *)

Module CssOverridesExtraProofs.
Import CssOverrides.

Section Proofs.
Context {CssProperty Rect : Type}.
Context (discriminant : CssProperty -> nat).
Context (apply_style_property : Rect -> CssProperty -> Rect).

(** The property a constraint applies to the rectangle, if any: a static
    property, or an override of a dynamic one with the default's
    discriminant. *)
Definition applied_property (css_overrides : gmap nat (gmap string CssProperty))
    (node_id : nat) (c : CssDeclaration) : option CssProperty :=
  match c with
  | Static p => Some p
  | Dynamic dp =>
      match lookup_override css_overrides node_id (dynamic_id dp) with
      | Some v => if Nat.eqb (discriminant v) (discriminant (default_value dp))
                  then Some v else None
      | None => None
      end
  end.

Definition static_properties (cs : list CssDeclaration) : list CssProperty :=
  omap (fun c => match c with Static p => Some p | Dynamic _ => None end) cs.

Lemma populate_fold_rect ov node cs : forall r w,
  fst (fold_left
    (fun '(r, warnings) constraint =>
       match constraint with
       | Static static_property => (apply_style_property r static_property, warnings)
       | Dynamic dynamic_property =>
           match lookup_override ov node (dynamic_id dynamic_property) with
           | None => (r, warnings)
           | Some overridden_property =>
               if Nat.eqb (discriminant overridden_property)
                          (discriminant (default_value dynamic_property))
               then (apply_style_property r overridden_property, warnings)
               else (r, warnings ++ [mkOverrideWarning (default_value dynamic_property)
                                                       overridden_property])
           end
       end) cs (r, w)) =
  fold_left apply_style_property (omap (applied_property ov node) cs) r.
Proof.
  induction cs as [|c cs IH]; intros r w; simpl; [reflexivity|].
  destruct c as [sp | dp]; simpl; [apply IH|].
  destruct (lookup_override ov node (dynamic_id dp)) as [v|]; simpl; [|apply IH].
  destruct (Nat.eqb _ _); simpl; apply IH.
Qed.

End Proofs.

(** Extra X10: the rectangle [populate_css_properties] returns is the input
    rectangle with [apply_style_property] applied, in declaration order,
    to the static properties and to the overrides whose discriminant
    matches the default; the warnings collected along the way do not
    affect it. *)
Theorem populate_rect_applies_effective_properties {CssProperty Rect : Type}
    (discriminant : CssProperty -> nat) (apply_style_property : Rect -> CssProperty -> Rect)
    (rect : Rect) (node_id : nat) (css_overrides : gmap nat (gmap string CssProperty))
    (css_constraints : list CssDeclaration) :
  fst (populate_css_properties discriminant apply_style_property rect node_id css_overrides
         css_constraints) =
  fold_left apply_style_property
    (omap (applied_property discriminant css_overrides node_id) css_constraints) rect.
Proof.
  unfold populate_css_properties. apply populate_fold_rect.
Qed.

(** Extra X11: for a node with no entry in the override map,
    [populate_css_properties] applies exactly the static properties, in
    order, and reports no warning: the [default_value] of a dynamic
    property is never applied. *)
Theorem populate_without_overrides {CssProperty Rect : Type}
    (discriminant : CssProperty -> nat) (apply_style_property : Rect -> CssProperty -> Rect)
    (rect : Rect) (node_id : nat) (css_overrides : gmap nat (gmap string CssProperty))
    (css_constraints : list CssDeclaration)
    (Hnone : css_overrides !! node_id = None) :
  populate_css_properties discriminant apply_style_property rect node_id css_overrides
    css_constraints =
  (fold_left apply_style_property (static_properties css_constraints) rect, []).
Proof.
  unfold populate_css_properties, static_properties.
  assert (Hlk : forall id, lookup_override css_overrides node_id id = None).
  { intros id. unfold lookup_override. rewrite Hnone. reflexivity. }
  generalize rect. clear rect.
  induction css_constraints as [|c cs IH]; intros r; simpl; [reflexivity|].
  destruct c as [sp | dp]; simpl; [apply IH|].
  rewrite Hlk. apply IH.
Qed.

Lemma populate_without_overrides_witness :
  let cs := [Static 1; Dynamic (mkDynamicCssProperty "width" 9); Static 2] in
  (∅ : gmap nat (gmap string nat)) !! 4 = None /\
  populate_css_properties (fun p : nat => p) (fun (r : list nat) p => p :: r) [] 4 ∅ cs =
  ([2; 1], []).
Proof.
  intros cs. split; [reflexivity|].
  exact (populate_without_overrides (fun p : nat => p) (fun (r : list nat) p => p :: r)
           [] 4 ∅ cs eq_refl).
Defined.

End CssOverridesExtraProofs.

(* ================================================================== *)
(** ** Proofs: drawing layers into a texture and vertex layouts *)
(* ================================================================== *)

Module GlDrawExtraProofs.
Import GlDraw.

Section Proofs.
Context (drv : GlDriver) (program : N).

Lemma bind_some {A B} (m : GlM A) (k : A -> GlM B) n a n1 l1 b n2 l2 :
  m n = Some (a, n1, l1) -> k a n1 = Some (b, n2, l2) -> bind m k n = Some (b, n2, l1 ++ l2).
Proof. intros Hm Hk. unfold bind. rewrite Hm, Hk. reflexivity. Qed.

Definition locs_ok (locs : gmap string Z) : Prop :=
  forall s v, locs !! s = Some v -> v = get_uniform_location drv program s.

Lemma collect_uniform_locations_spec us : forall locs n,
  exists locs' names,
  collect_uniform_locations drv program locs us n =
    Some (locs', n, map (fun s => GetUniformLocation program s (get_uniform_location drv program s)) names) /\
  NoDup names /\
  (forall s, In s names -> locs !! s = None /\ In s (map uniform_name us)) /\
  (forall s, is_Some (locs' !! s) <-> is_Some (locs !! s) \/ In s (map uniform_name us)) /\
  (forall s v, locs !! s = Some v -> locs' !! s = Some v) /\
  (locs_ok locs -> locs_ok locs') /\
  (forall s, In s (map uniform_name us) -> is_Some (locs !! s) \/ In s names).
Proof.
  induction us as [|u us IH]; intros locs n; simpl.
  - exists locs, []. split; [reflexivity|]. split; [constructor|].
    split; [intros s []|]. split; [intros s; tauto|]. split; [auto|]. split; [auto|].
    intros s [].
  - destruct (locs !! uniform_name u) as [v|] eqn:Hu.
    + destruct (IH locs n) as (locs' & names & Hrun & Hnd & Hin & Hdom & Hkeep & Hok & Hcov).
      exists locs', names. split; [exact Hrun|]. split; [exact Hnd|].
      split; [intros s Hs; destruct (Hin s Hs); auto|].
      split.
      { intros s. rewrite Hdom. split; [tauto|].
        intros [H|[<-|H]]; [left; exact H | left; rewrite Hu; eexists; reflexivity | right; exact H]. }
      split; [exact Hkeep|]. split; [exact Hok|].
      intros s [<-|Hs]; [left; rewrite Hu; eexists; reflexivity | exact (Hcov s Hs)].
    + destruct (IH (<[uniform_name u := get_uniform_location drv program (uniform_name u)]> locs) n)
        as (locs' & names & Hrun & Hnd & Hin & Hdom & Hkeep & Hok & Hcov).
      exists locs', (uniform_name u :: names). split.
      { unfold gl_get_uniform_location, bind, emit, ret. simpl. rewrite Hrun. reflexivity. }
      split.
      { constructor; [|exact Hnd]. intros Hs. apply list_elem_of_In in Hs. destruct (Hin _ Hs) as [Hn _].
        rewrite lookup_insert_eq in Hn. discriminate. }
      split.
      { intros s [<-|Hs]; [split; [exact Hu | left; reflexivity]|].
        destruct (Hin s Hs) as [Hn Hm].
        destruct (decide (uniform_name u = s)) as [<-|Hne].
        - rewrite lookup_insert_eq in Hn. discriminate.
        - rewrite lookup_insert_ne in Hn by exact Hne. split; [exact Hn | right; exact Hm]. }
      split.
      { intros s. rewrite Hdom.
        destruct (decide (uniform_name u = s)) as [<-|Hne].
        - rewrite lookup_insert_eq. split; [intros _; right; left; reflexivity|].
          intros _. left. eexists; reflexivity.
        - rewrite lookup_insert_ne by exact Hne. split; [intros [H|H]; auto|].
          intros [H|[H|H]]; auto. congruence. }
      split.
      { intros s v Hs. apply Hkeep.
        destruct (decide (uniform_name u = s)) as [<-|Hne]; [congruence|].
        rewrite lookup_insert_ne by exact Hne. exact Hs. }
      split.
      { intros Hlocs. apply Hok. intros s v Hs.
        destruct (decide (uniform_name u = s)) as [<-|Hne].
        - rewrite lookup_insert_eq in Hs. congruence.
        - rewrite lookup_insert_ne in Hs by exact Hne. apply Hlocs. exact Hs. }
      intros s [<-|Hs]; [right; left; reflexivity|].
      destruct (decide (uniform_name u = s)) as [<-|Hne]; [right; left; reflexivity|].
      destruct (Hcov s Hs) as [H|H]; [left | right; right; exact H].
      rewrite lookup_insert_ne in H by exact Hne. exact H.
Qed.


Definition uniform_names (buffers : list (VertexBuffer * list Uniform)) : list string :=
  flat_map (fun '(_, us) => map uniform_name us) buffers.

Lemma collect_locations_spec buffers : forall locs m n,
  exists locs' m' names,
  collect_locations drv program buffers locs m n =
    Some ((locs', m'), n, map (fun s => GetUniformLocation program s (get_uniform_location drv program s)) names) /\
  NoDup names /\
  (forall s, In s names -> locs !! s = None /\ In s (uniform_names buffers)) /\
  (forall s, is_Some (locs' !! s) <-> is_Some (locs !! s) \/ In s (uniform_names buffers)) /\
  (locs_ok locs -> locs_ok locs') /\
  m <= m' /\ (forall vb us, In (vb, us) buffers -> length us <= m') /\
  (forall s, In s (uniform_names buffers) -> is_Some (locs !! s) \/ In s names) /\
  (forall s v, locs !! s = Some v -> locs' !! s = Some v).
Proof.
  induction buffers as [|[vb us] buffers IH]; intros locs m n; simpl.
  - exists locs, m, []. split; [reflexivity|]. split; [constructor|].
    split; [intros s []|]. split; [intros s; tauto|]. split; [auto|]. split; [lia|].
    split; [intros ? ? []|]. split; [intros s []|]. auto.
  - destruct (collect_uniform_locations_spec us locs n)
      as (locs1 & names1 & Hrun1 & Hnd1 & Hin1 & Hdom1 & Hkeep1 & Hok1 & Hcov1).
    destruct (IH locs1 (Nat.max m (length us)) n)
      as (locs2 & m2 & names2 & Hrun2 & Hnd2 & Hin2 & Hdom2 & Hok2 & Hm2 & Hlen2 & Hcov2 & Hkeep2).
    exists locs2, m2, (names1 ++ names2). split.
    { unfold bind. rewrite Hrun1, Hrun2. rewrite map_app. reflexivity. }
    split.
    { apply NoDup_app. split; [exact Hnd1|]. split; [|exact Hnd2].
      intros s Hs1 Hs2. apply list_elem_of_In in Hs1. apply list_elem_of_In in Hs2.
      destruct (Hin2 s Hs2) as [Hnone _].
      assert (Hsome : is_Some (locs1 !! s)) by (apply Hdom1; right; exact (proj2 (Hin1 s Hs1))).
      rewrite Hnone in Hsome. destruct Hsome; discriminate. }
    split.
    { intros s Hs. apply in_app_or in Hs as [Hs|Hs].
      - destruct (Hin1 s Hs) as [Hn Hm]. split; [exact Hn|]. apply in_or_app. left; exact Hm.
      - destruct (Hin2 s Hs) as [Hn Hm]. split.
        + destruct (locs !! s) as [v|] eqn:Hv; [|reflexivity].
          rewrite (Hkeep1 s v Hv) in Hn. discriminate.
        + apply in_or_app. right; exact Hm. }
    split.
    { intros s. rewrite Hdom2, Hdom1. rewrite in_app_iff. tauto. }
    split; [tauto|]. split; [lia|].
    split.
    { intros vb' us' [Heq|Hin].
      + injection Heq as -> ->. lia.
      + apply Hlen2 with vb'. exact Hin. }
    split; [|intros s v Hv; apply Hkeep2, Hkeep1, Hv].
    intros s Hs. apply in_app_or in Hs as [Hs|Hs].
    + destruct (Hcov1 s Hs) as [H|H]; [left; exact H | right; apply in_or_app; left; exact H].
    + destruct (Hcov2 s Hs) as [H|H]; [|right; apply in_or_app; right; exact H].
      apply Hdom1 in H as [H|H]; [left; exact H|].
      destruct (Hcov1 s H) as [H'|H']; [left; exact H' | right; apply in_or_app; left; exact H'].
Qed.

Lemma list_eqb_Q_refl l : list_eqb Qeq_bool l l = true.
Proof. induction l as [|x l IH]; simpl; [reflexivity|]. rewrite IH, Qeq_bool_refl. reflexivity. Qed.

Lemma list_eqb_Q_sym l1 : forall l2, list_eqb Qeq_bool l1 l2 = true -> list_eqb Qeq_bool l2 l1 = true.
Proof.
  induction l1 as [|x l1 IH]; intros [|y l2]; simpl; try discriminate; [reflexivity|].
  intros H. apply andb_true_iff in H as [Hxy H]. rewrite (IH l2 H).
  apply Qeq_bool_iff in Hxy. apply Qeq_bool_iff in Hxy. rewrite (Qeq_bool_comm y x), Hxy.
  reflexivity.
Qed.

Lemma list_eqb_Q_trans l1 : forall l2 l3, list_eqb Qeq_bool l1 l2 = true ->
  list_eqb Qeq_bool l2 l3 = true -> list_eqb Qeq_bool l1 l3 = true.
Proof.
  induction l1 as [|x l1 IH]; intros [|y l2] [|z l3]; simpl; try discriminate; [reflexivity|].
  intros H1 H2. apply andb_true_iff in H1 as [Hxy H1]. apply andb_true_iff in H2 as [Hyz H2].
  rewrite (IH l2 l3 H1 H2). apply Qeq_bool_iff in Hxy. apply Qeq_bool_iff in Hyz.
  apply andb_true_iff. split; [|reflexivity]. apply Qeq_bool_iff. eapply Qeq_trans; eauto.
Qed.

Ltac eqb_hyps :=
  repeat match goal with
  | H : _ && _ = true |- _ => apply andb_true_iff in H; destruct H
  | H : Qeq_bool _ _ = true |- _ => apply Qeq_bool_iff in H
  | H : Z.eqb _ _ = true |- _ => apply Z.eqb_eq in H; subst
  | H : N.eqb _ _ = true |- _ => apply N.eqb_eq in H; subst
  | H : Bool.eqb _ _ = true |- _ => apply eqb_prop in H; subst
  end.

Ltac eqb_goal :=
  repeat match goal with
  | |- _ && _ = true => apply andb_true_iff; split
  | |- Qeq_bool _ _ = true => apply Qeq_bool_iff
  | |- Z.eqb _ _ = true => apply Z.eqb_eq
  | |- N.eqb _ _ = true => apply N.eqb_eq
  | |- Bool.eqb _ _ = true => apply eqb_reflx
  end.

Lemma uniform_type_eqb_refl u : uniform_type_eqb u u = true.
Proof.
  destruct u; simpl; eqb_goal; try reflexivity; apply list_eqb_Q_refl.
Qed.

Lemma uniform_type_eqb_sym u v : uniform_type_eqb u v = true -> uniform_type_eqb v u = true.
Proof.
  destruct u, v; simpl; try discriminate; intros H; eqb_hyps; eqb_goal;
    try reflexivity; try (symmetry; assumption); apply list_eqb_Q_sym; assumption.
Qed.

Lemma uniform_type_eqb_trans u v w : uniform_type_eqb u v = true ->
  uniform_type_eqb v w = true -> uniform_type_eqb u w = true.
Proof.
  destruct u, v, w; simpl; try discriminate; intros H1 H2; eqb_hyps; eqb_goal;
    try reflexivity; try (eapply Qeq_trans; eassumption);
    eapply list_eqb_Q_trans; eassumption.
Qed.

Lemma option_eqb_refl o : option_uniform_type_eqb o o = true.
Proof. destruct o; simpl; [apply uniform_type_eqb_refl | reflexivity]. Qed.

Lemma option_eqb_congr a b x : option_uniform_type_eqb a b = true ->
  option_uniform_type_eqb a x = option_uniform_type_eqb b x.
Proof.
  destruct a as [a|], b as [b|], x as [x|]; simpl; try discriminate; try reflexivity; intros H.
  destruct (uniform_type_eqb a x) eqn:Hax, (uniform_type_eqb b x) eqn:Hbx; try reflexivity.
  - rewrite (uniform_type_eqb_trans b a x (uniform_type_eqb_sym _ _ H) Hax) in Hbx. discriminate.
  - rewrite (uniform_type_eqb_trans a b x H Hbx) in Hax. discriminate.
Qed.

Lemma option_eqb_trans a b c : option_uniform_type_eqb a b = true ->
  option_uniform_type_eqb b c = true -> option_uniform_type_eqb a c = true.
Proof. intros Hab Hbc. rewrite (option_eqb_congr a b c Hab). exact Hbc. Qed.

(** The value at index [i] of the latest list in [prev] that has one. *)
Definition last_at (prev : list (list Uniform)) (i : nat) : option UniformType :=
  fold_left (fun acc us => match us !! i with Some u => Some (uniform_type u) | None => acc end)
            prev None.

Lemma last_at_snoc prev us i :
  last_at (prev ++ [us]) i = match us !! i with Some u => Some (uniform_type u) | None => last_at prev i end.
Proof. unfold last_at. rewrite fold_left_app. reflexivity. Qed.

(** The uploads of a layer whose uniforms from index [i] on are [us],
    after the layers [prev]. *)
Fixpoint expected_uploads (prev : list (list Uniform)) (i : nat) (us : list Uniform) : list GlCall :=
  match us with
  | [] => []
  | u :: us' =>
      (if option_uniform_type_eqb (last_at prev i) (Some (uniform_type u)) then []
       else [SetUniform (get_uniform_location drv program (uniform_name u))
                        (uniform_type_set (uniform_type u))]) ++
      expected_uploads prev (S i) us'
  end.

Definition is_set_uniform (c : GlCall) : bool :=
  match c with SetUniform _ _ => true | _ => false end.

Lemma set_uniforms_spec locs (Hok : locs_ok locs) prev full us : forall cur i n,
  drop i full = us ->
  (forall u, In u us -> is_Some (locs !! uniform_name u)) ->
  length full <= length cur ->
  (forall j c, cur !! j = Some c ->
     option_uniform_type_eqb c (if Nat.ltb j i then last_at (prev ++ [full]) j else last_at prev j) = true) ->
  exists cur', set_uniforms locs cur i us n = Some (cur', n, expected_uploads prev i us) /\
    length cur' = length cur /\
    (forall j c, cur' !! j = Some c -> option_uniform_type_eqb c (last_at (prev ++ [full]) j) = true).
Proof.
  induction us as [|u us IH]; intros cur i n Hdrop Hlocs Hlen Hrel; simpl.
  - exists cur. split; [reflexivity|]. split; [reflexivity|].
    intros j c Hj. specialize (Hrel j c Hj).
    destruct (Nat.ltb_spec j i) as [Hji|Hji]; [exact Hrel|].
    rewrite last_at_snoc. rewrite lookup_ge_None_2; [exact Hrel|].
    assert (length (drop i full) = 0) by (rewrite Hdrop; reflexivity).
    rewrite length_drop in H. lia.
  - assert (Hfi : full !! i = Some u).
    { rewrite <- (Nat.add_0_r i), <- lookup_drop, Hdrop. reflexivity. }
    assert (Hi : i < length cur) by (apply lookup_lt_Some in Hfi; lia).
    destruct (lookup_lt_is_Some_2 cur i Hi) as [c Hc]. rewrite Hc.
    assert (Hdrop' : drop (S i) full = us).
    { replace (S i) with (i + 1) by lia. rewrite <- drop_drop, Hdrop. reflexivity. }
    assert (Hlocs' : forall u', In u' us -> is_Some (locs !! uniform_name u'))
      by (intros u' Hu'; apply Hlocs; right; exact Hu').
    assert (Hci := Hrel i c Hc). rewrite Nat.ltb_irrefl in Hci.
    rewrite (option_eqb_congr _ _ _ Hci).
    destruct (option_uniform_type_eqb (last_at prev i) (Some (uniform_type u))) eqn:Heq; simpl.
    + destruct (IH cur (S i) n Hdrop' Hlocs' Hlen) as (cur' & Hrun & Hl & Hr).
      { intros j c' Hj. specialize (Hrel j c' Hj).
        destruct (Nat.ltb_spec j (S i)) as [Hji|Hji];
          destruct (Nat.ltb_spec j i) as [Hji'|Hji']; try lia; try exact Hrel.
        assert (j = i) as -> by lia. rewrite Hc in Hj. injection Hj as <-.
        rewrite last_at_snoc, Hfi. exact (option_eqb_trans _ _ _ Hci Heq). }
      exists cur'. split; [exact Hrun|]. auto.
    + destruct (Hlocs u (or_introl eq_refl)) as [loc Hloc]. rewrite Hloc.
      rewrite (Hok _ _ Hloc).
      destruct (IH (<[i := Some (uniform_type u)]> cur) (S i) n Hdrop' Hlocs')
        as (cur' & Hrun & Hl & Hr).
      { rewrite length_insert. exact Hlen. }
      { intros j c' Hj.
        destruct (decide (j = i)) as [->|Hne].
        - rewrite list_lookup_insert_eq in Hj by exact Hi. injection Hj as <-.
          rewrite (proj2 (Nat.ltb_lt i (S i)) ltac:(lia)).
          rewrite last_at_snoc, Hfi. apply option_eqb_refl.
        - rewrite list_lookup_insert_ne in Hj by congruence. specialize (Hrel j c' Hj).
          destruct (Nat.ltb_spec j (S i)) as [Hji|Hji];
            destruct (Nat.ltb_spec j i) as [Hji'|Hji']; try lia; exact Hrel. }
      exists cur'. split.
      * unfold bind, emit. rewrite Hrun. reflexivity.
      * rewrite Hl, length_insert. split; [reflexivity|exact Hr].
Qed.

Definition is_draw_elements (c : GlCall) : bool :=
  match c with DrawElements _ _ _ _ => true | _ => false end.

Definition draw_call_of (vertex_buffer : VertexBuffer) : GlCall :=
  DrawElements (index_buffer_format_gl_id (index_buffer_format vertex_buffer))
               (usize_as_i32 (index_buffer_len vertex_buffer)) UNSIGNED_INT 0.

Fixpoint all_expected_uploads (prev : list (list Uniform))
    (buffers : list (VertexBuffer * list Uniform)) : list GlCall :=
  match buffers with
  | [] => []
  | (_, us) :: rest => expected_uploads prev 0 us ++ all_expected_uploads (prev ++ [us]) rest
  end.

Definition layer_call (c : GlCall) : bool :=
  match c with
  | BindVertexArray _ | BindBuffer _ _ | SetUniform _ _ | DrawElements _ _ _ _ => true
  | _ => false
  end.

Lemma filter_none {A} (f : A -> bool) l : Forall (fun c => f c = false) l -> List.filter f l = [].
Proof. induction 1 as [|c l Hc _ IH]; simpl; [reflexivity|]. rewrite Hc. exact IH. Qed.

Lemma filter_all {A} (f : A -> bool) l : Forall (fun c => f c = true) l -> List.filter f l = l.
Proof. induction 1 as [|c l Hc _ IH]; simpl; [reflexivity|]. rewrite Hc, IH. reflexivity. Qed.

Lemma expected_uploads_set prev us : forall i,
  Forall (fun c => is_set_uniform c = true) (expected_uploads prev i us).
Proof.
  induction us as [|u us IH]; intros i; simpl; [constructor|].
  apply Forall_app. split; [|apply IH].
  destruct (option_uniform_type_eqb _ _); repeat constructor.
Qed.

Lemma draw_layers_spec locs (Hok : locs_ok locs) buffers : forall prev cur n,
  (forall s, In s (uniform_names buffers) -> is_Some (locs !! s)) ->
  (forall vb us, In (vb, us) buffers -> length us <= length cur) ->
  (forall j c, cur !! j = Some c -> option_uniform_type_eqb c (last_at prev j) = true) ->
  exists calls, draw_layers locs cur buffers n = Some (tt, n, calls) /\
    List.filter is_draw_elements calls = map (fun '(vb, _) => draw_call_of vb) buffers /\
    List.filter is_set_uniform calls = all_expected_uploads prev buffers /\
    Forall (fun c => layer_call c = true) calls.
Proof.
  induction buffers as [|[vb us] buffers IH]; intros prev cur n Hnames Hlen Hrel; simpl.
  - exists []. repeat split; constructor.
  - destruct (set_uniforms_spec locs Hok prev us us cur 0 n eq_refl) as (cur' & Hrun & Hl & Hr).
    + intros u Hu. apply Hnames. simpl. apply in_or_app. left. apply in_map. exact Hu.
    + apply (Hlen vb). left. reflexivity.
    + intros j c Hj. exact (Hrel j c Hj).
    + destruct (IH (prev ++ [us]) cur' n) as (calls & Hrun' & Hd & Hs & Hf).
      * intros s Hs. apply Hnames. simpl. apply in_or_app. right. exact Hs.
      * intros vb' us' Hin. rewrite Hl. apply (Hlen vb'). right. exact Hin.
      * exact Hr.
      * pose proof (expected_uploads_set prev us 0) as Hset.
        exists ([BindVertexArray (vao_id vb); BindBuffer ELEMENT_ARRAY_BUFFER (index_buffer_id vb)] ++
                expected_uploads prev 0 us ++ [draw_call_of vb] ++ calls).
        split.
        { unfold bind, emit. rewrite Hrun, Hrun'. simpl. reflexivity. }
        rewrite !List.filter_app. split; [|split].
        -- rewrite Hd. rewrite (filter_none is_draw_elements (expected_uploads prev 0 us)); [reflexivity|].
           eapply Forall_impl; [exact Hset|]. intros c Hc. destruct c; simpl in *; congruence.
        -- rewrite Hs, (filter_all _ _ Hset). reflexivity.
        -- repeat (apply Forall_app; split); [repeat constructor| |repeat constructor|exact Hf].
           eapply Forall_impl; [exact Hset|]. intros c Hc. destruct c; simpl in *; congruence.
Qed.

(** The calls [draw] makes before, between and after its two loops. *)
Definition draw_prologue (debug_assertions : bool) (texture_size : LogicalSize) (n : GlNames) : list GlCall :=
  let w := f32_as_i32 (width texture_size) in
  let h := f32_as_i32 (height texture_size) in
  [GetBooleanV MULTISAMPLE (get_boolean_v drv MULTISAMPLE);
   GetIntegerV ARRAY_BUFFER_BINDING (get_integer_v drv ARRAY_BUFFER_BINDING);
   GetIntegerV ELEMENT_ARRAY_BUFFER_BINDING (get_integer_v drv ELEMENT_ARRAY_BUFFER_BINDING);
   GetIntegerV CURRENT_PROGRAM (get_integer_v drv CURRENT_PROGRAM);
   GetIntegerV VERTEX_ARRAY_BINDING (get_integer_v drv VERTEX_ARRAY_BINDING);
   GetIntegerV RENDERBUFFER (get_integer_v drv RENDERBUFFER);
   GetIntegerV FRAMEBUFFER (get_integer_v drv FRAMEBUFFER);
   GetIntegerV TEXTURE_2D (get_integer_v drv TEXTURE_2D);
   GenTextures (next_texture n); GenFramebuffers (next_framebuffer n);
   BindFramebuffer FRAMEBUFFER (next_framebuffer n);
   GenRenderbuffers (next_renderbuffer n); BindTexture TEXTURE_2D (next_texture n);
   TexImage2D TEXTURE_2D 0 (u32_as_i32 RGBA) w h 0 RGBA UNSIGNED_BYTE;
   TexParameterI TEXTURE_2D TEXTURE_MAG_FILTER (u32_as_i32 NEAREST);
   TexParameterI TEXTURE_2D TEXTURE_MIN_FILTER (u32_as_i32 NEAREST);
   TexParameterI TEXTURE_2D TEXTURE_WRAP_S (u32_as_i32 CLAMP_TO_EDGE);
   TexParameterI TEXTURE_2D TEXTURE_WRAP_T (u32_as_i32 CLAMP_TO_EDGE);
   BindRenderbuffer RENDERBUFFER (next_renderbuffer n);
   RenderbufferStorage RENDERBUFFER DEPTH_COMPONENT w h;
   FramebufferRenderbuffer FRAMEBUFFER DEPTH_ATTACHMENT RENDERBUFFER (next_renderbuffer n);
   FramebufferTexture2D FRAMEBUFFER COLOR_ATTACHMENT0 TEXTURE_2D (next_texture n) 0;
   DrawBuffers [COLOR_ATTACHMENT0]; Viewport 0 0 w h] ++
  (if debug_assertions
   then [CheckFrameBufferStatus FRAMEBUFFER (check_frame_buffer_status drv FRAMEBUFFER)] else []) ++
  [UseProgram program; Disable MULTISAMPLE].

Definition draw_clear (clear_color : option ColorU) : list GlCall :=
  (match clear_color with
   | Some c => [ClearColor (color_channel (red c)) (color_channel (green c))
                           (color_channel (blue c)) (color_channel (alpha c))]
   | None => []
   end) ++ [ClearDepth 0; Clear (N.lor COLOR_BUFFER_BIT DEPTH_BUFFER_BIT)].

Definition draw_epilogue (n : GlNames) : list GlCall :=
  (if N.eqb (get_boolean_v drv MULTISAMPLE) GL_TRUE then [Enable MULTISAMPLE] else []) ++
  [BindVertexArray (i32_as_u32 (get_integer_v drv VERTEX_ARRAY_BINDING));
   BindFramebuffer FRAMEBUFFER (i32_as_u32 (get_integer_v drv FRAMEBUFFER));
   BindTexture TEXTURE_2D (i32_as_u32 (get_integer_v drv TEXTURE_2D));
   BindTexture RENDERBUFFER (i32_as_u32 (get_integer_v drv RENDERBUFFER));
   BindBuffer ELEMENT_ARRAY_BUFFER (i32_as_u32 (get_integer_v drv ELEMENT_ARRAY_BUFFER_BINDING));
   BindBuffer ARRAY_BUFFER (i32_as_u32 (get_integer_v drv ARRAY_BUFFER_BINDING));
   UseProgram (i32_as_u32 (get_integer_v drv CURRENT_PROGRAM));
   DeleteFramebuffers [next_framebuffer n]; DeleteRenderbuffers [next_renderbuffer n]].

(** The names left after one name of each kind is handed out. *)
Definition names_after (n : GlNames) : GlNames :=
  mkGlNames (N.succ (next_texture n)) (N.succ (next_framebuffer n)) (N.succ (next_renderbuffer n)).

Lemma draw_run debug_assertions buffers clear_color texture_size n :
  exists names lcalls,
    NoDup names /\ (forall s, In s names <-> In s (uniform_names buffers)) /\
    List.filter is_draw_elements lcalls = map (fun '(vb, _) => draw_call_of vb) buffers /\
    List.filter is_set_uniform lcalls = all_expected_uploads [] buffers /\
    Forall (fun c => layer_call c = true) lcalls /\
    draw drv debug_assertions program buffers clear_color texture_size n =
      if debug_assertions &&
         negb (N.eqb (check_frame_buffer_status drv FRAMEBUFFER) FRAMEBUFFER_COMPLETE)
      then None
      else Some (TextureRegistry.mkTexture (next_texture n) (width texture_size) (height texture_size),
                 names_after n,
                 draw_prologue debug_assertions texture_size n ++
                 map (fun s => GetUniformLocation program s (get_uniform_location drv program s)) names ++
                 draw_clear clear_color ++ lcalls ++ draw_epilogue n).
Proof.
  destruct (collect_locations_spec buffers ∅ 0 (names_after n))
    as (locs & m & names & Hc & Hnd & Hin & Hdom & Hok & _ & Hlen & Hcov & _).
  assert (Hok' : locs_ok locs) by (apply Hok; intros s v Hs; rewrite lookup_empty in Hs; discriminate).
  destruct (draw_layers_spec locs Hok' buffers [] (replicate m None) (names_after n))
    as (lcalls & Hl & Hd & Hs & Hf).
  { intros s Hs. apply Hdom. right. exact Hs. }
  { intros vb us Hin'. rewrite length_replicate. exact (Hlen vb us Hin'). }
  { intros j c Hj. apply lookup_replicate_1 in Hj as [-> _]. reflexivity. }
  exists names, lcalls. split; [exact Hnd|]. split.
  { intros s. split; [intros Hs'; exact (proj2 (Hin s Hs'))|].
    intros Hs'. destruct (Hcov s Hs') as [[v Hv]|H]; [rewrite lookup_empty in Hv; discriminate|exact H]. }
  split; [exact Hd|]. split; [exact Hs|]. split; [exact Hf|].
  unfold draw, bind, emit, ret, gen_texture, gen_framebuffer, gen_renderbuffer,
    gl_get_boolean_v, gl_get_integer_v,
    gl_check_frame_buffer_status.
  destruct debug_assertions; cbn -[collect_locations draw_layers];
    [destruct (N.eqb (check_frame_buffer_status drv FRAMEBUFFER) FRAMEBUFFER_COMPLETE); cbn -[collect_locations draw_layers]|].
  all: try reflexivity.
  all: fold (names_after n); rewrite Hc; destruct clear_color; cbn -[draw_layers replicate]; rewrite Hl;
       unfold draw_prologue, draw_clear, draw_epilogue;
       destruct (N.eqb (get_boolean_v drv MULTISAMPLE) GL_TRUE); cbn;
       rewrite <- ?app_assoc; simpl; rewrite <- ?app_assoc; reflexivity.
Qed.

Definition is_uniform_query (c : GlCall) : bool :=
  match c with GetUniformLocation _ _ _ => true | _ => false end.

Definition is_object_call (c : GlCall) : bool :=
  match c with
  | GenTextures _ | GenFramebuffers _ | GenRenderbuffers _
  | DeleteFramebuffers _ | DeleteRenderbuffers _ => true
  | _ => false
  end.

Definition is_multisample_toggle (c : GlCall) : bool :=
  match c with
  | Enable cap | Disable cap => N.eqb cap MULTISAMPLE
  | _ => false
  end.

Lemma filter_layer_calls (f : GlCall -> bool) lcalls :
  (forall c, layer_call c = true -> f c = false) ->
  Forall (fun c => layer_call c = true) lcalls -> List.filter f lcalls = [].
Proof.
  intros Hf Hl. apply filter_none. eapply Forall_impl; [exact Hl|]. exact Hf.
Qed.

Lemma filter_queries (f : GlCall -> bool) names :
  (forall s r, f (GetUniformLocation program s r) = false) ->
  List.filter f (map (fun s => GetUniformLocation program s (get_uniform_location drv program s)) names) = [].
Proof.
  intros Hf. induction names as [|s names IH]; simpl; [reflexivity|]. rewrite Hf. exact IH.
Qed.

Lemma draw_some_calls debug_assertions buffers clear_color texture_size n tex n' calls :
  draw drv debug_assertions program buffers clear_color texture_size n = Some (tex, n', calls) ->
  exists names lcalls,
    NoDup names /\ (forall s, In s names <-> In s (uniform_names buffers)) /\
    List.filter is_draw_elements lcalls = map (fun '(vb, _) => draw_call_of vb) buffers /\
    List.filter is_set_uniform lcalls = all_expected_uploads [] buffers /\
    Forall (fun c => layer_call c = true) lcalls /\
    tex = TextureRegistry.mkTexture (next_texture n) (width texture_size) (height texture_size) /\
    calls = draw_prologue debug_assertions texture_size n ++
            map (fun s => GetUniformLocation program s (get_uniform_location drv program s)) names ++
            draw_clear clear_color ++ lcalls ++ draw_epilogue n.
Proof.
  intros Hd.
  destruct (draw_run debug_assertions buffers clear_color texture_size n)
    as (names & lcalls & Hnd & Hin & Hde & Hsu & Hf & Hrun).
  rewrite Hrun in Hd.
  destruct (debug_assertions && _); [discriminate|].
  injection Hd as <- _ <-. exists names, lcalls.
  do 5 (split; [assumption|]). split; reflexivity.
Qed.

Definition is_target_binding (c : GlCall) : bool :=
  match c with
  | BindFramebuffer target _ => N.eqb target FRAMEBUFFER
  | UseProgram _ => true
  | _ => false
  end.

Lemma filter_layers (f g : GlCall -> bool) lcalls :
  (forall c, layer_call c = true -> f c = g c) ->
  Forall (fun c => layer_call c = true) lcalls -> List.filter f lcalls = List.filter g lcalls.
Proof.
  intros Hfg. induction 1 as [|c l Hc _ IH]; simpl; [reflexivity|].
  rewrite (Hfg c Hc), IH. reflexivity.
Qed.

Definition pointer_offsets (calls : list GlCall) : list N :=
  flat_map (fun c => match c with VertexAttribPointer _ _ _ _ _ offset => [offset] | _ => [] end) calls.

Definition pointer_strides (calls : list GlCall) : list Z :=
  flat_map (fun c => match c with VertexAttribPointer _ _ _ _ stride _ => [stride] | _ => [] end) calls.

Definition enabled_indices (calls : list GlCall) : list N :=
  flat_map (fun c => match c with EnableVertexAttribArray i => [i] | _ => [] end) calls.

Definition disabled_indices (calls : list GlCall) : list N :=
  flat_map (fun c => match c with DisableVertexAttribArray i => [i] | _ => [] end) calls.

Definition attribute_index (a : VertexAttribute) : N :=
  i32_as_u32 (match layout_location a with
              | Some ll => usize_as_i32 ll
              | None => get_attrib_location drv program (attribute_name a)
              end).

Lemma attribute_location_run a n :
  exists qs, attribute_location drv program a n =
    Some (match layout_location a with
          | Some ll => usize_as_i32 ll
          | None => get_attrib_location drv program (attribute_name a)
          end, n, qs) /\
    enabled_indices qs = [] /\ disabled_indices qs = [] /\
    pointer_offsets qs = [] /\ pointer_strides qs = [].
Proof.
  unfold attribute_location. destruct (layout_location a).
  - exists []. repeat split.
  - exists [GetAttribLocation program (attribute_name a)
                               (get_attrib_location drv program (attribute_name a))].
    repeat split.
Qed.

Local Open Scope N_scope.

Lemma usize_checked_fits debug_assertions v :
  (debug_assertions = true -> v < 2 ^ 64) ->
  usize_checked debug_assertions v = ret (v mod 2 ^ 64).
Proof.
  intros Hv. unfold usize_checked.
  destruct (N.ltb_spec v (2 ^ 64)) as [Hlt|Hge].
  - rewrite N.mod_small by exact Hlt. reflexivity.
  - destruct debug_assertions; [specialize (Hv eq_refl); lia|reflexivity].
Qed.

Lemma usize_checked_overflow v :
  2 ^ 64 <= v -> usize_checked true v = panic.
Proof.
  intros Hv. unfold usize_checked.
  destruct (N.ltb_spec v (2 ^ 64)); [lia|reflexivity].
Qed.

Lemma bind_ret {A B} (a : A) (k : A -> GlM B) n : bind (ret a) k n = k a n.
Proof. unfold bind, ret. destruct (k a n) as [[[b n'] l]|]; reflexivity. Qed.

Lemma bind_panic {A B} (k : A -> GlM B) n : bind panic k n = None.
Proof. reflexivity. Qed.

Lemma mod_64_mod_32 x : (x mod 2 ^ 64) mod 2 ^ 32 = x mod 2 ^ 32.
Proof.
  replace (2 ^ 64) with (2 ^ 32 * 2 ^ 32) by reflexivity.
  rewrite N.Div0.mod_mul_r, N.Div0.add_mod, N.Div0.mod_mod.
  rewrite (N.mul_comm (2 ^ 32)), N.Div0.mod_mul, N.add_0_r. apply N.Div0.mod_mod.
Qed.

Lemma usize_as_u32_mod_64 x : usize_as_u32 (x mod 2 ^ 64) = usize_as_u32 x.
Proof. unfold usize_as_u32. apply mod_64_mod_32. Qed.

Lemma usize_as_i32_mod_64 x : usize_as_i32 (x mod 2 ^ 64) = usize_as_i32 x.
Proof. unfold usize_as_i32. rewrite mod_64_mod_32. reflexivity. Qed.

Lemma usize_as_u32_add_mod x y : usize_as_u32 (x mod 2 ^ 64 + y) = usize_as_u32 (x + y).
Proof.
  unfold usize_as_u32.
  rewrite <- N.Div0.add_mod_idemp_l, mod_64_mod_32, N.Div0.add_mod_idemp_l. reflexivity.
Qed.

Lemma mod_64_add_mod x y : ((x mod 2 ^ 64) + y) mod 2 ^ 64 = (x + y) mod 2 ^ 64.
Proof. apply N.Div0.add_mod_idemp_l. Qed.

Lemma mod_64_lt x : x mod 2 ^ 64 < 2 ^ 64.
Proof. apply N.mod_lt. discriminate. Qed.

(** The exact value of [get_stride], and the exact sum of the strides. *)
Definition stride_value (a : VertexAttribute) : N :=
  get_mem_size (attribute_type a) * item_count a.

Arguments stride_value : simpl never.

Fixpoint total_stride (fields : list VertexAttribute) : N :=
  match fields with
  | [] => 0
  | a :: rest => stride_value a + total_stride rest
  end.

Lemma get_stride_fits debug_assertions a :
  (debug_assertions = true -> stride_value a < 2 ^ 64) ->
  get_stride debug_assertions a = ret (stride_value a mod 2 ^ 64).
Proof. apply usize_checked_fits. Qed.

Lemma stride_sum_fits debug_assertions fields : forall acc n,
  acc < 2 ^ 64 ->
  (debug_assertions = true -> acc + total_stride fields < 2 ^ 64) ->
  stride_sum debug_assertions acc fields n = Some ((acc + total_stride fields) mod 2 ^ 64, n, []).
Proof.
  induction fields as [|a fields IH]; intros acc n Hacc Hfit; simpl in *.
  - unfold ret. rewrite N.add_0_r, N.mod_small by exact Hacc. reflexivity.
  - rewrite get_stride_fits by (intros Hd; specialize (Hfit Hd); lia).
    rewrite bind_ret, usize_checked_fits, bind_ret.
    2: { intros Hd; specialize (Hfit Hd). rewrite N.mod_small; lia. }
    rewrite IH; [|apply mod_64_lt|].
    + do 3 f_equal. rewrite mod_64_add_mod.
      replace (acc + stride_value a mod 2 ^ 64 + total_stride fields)
        with (stride_value a mod 2 ^ 64 + (acc + total_stride fields)) by lia.
      rewrite mod_64_add_mod. f_equal. lia.
    + intros Hd. specialize (Hfit Hd).
      rewrite (N.mod_small (stride_value a)) by lia.
      rewrite N.mod_small by lia. lia.
Qed.

Lemma stride_sum_overflow fields : forall acc n,
  acc < 2 ^ 64 -> 2 ^ 64 <= acc + total_stride fields ->
  stride_sum true acc fields n = None.
Proof.
  induction fields as [|a fields IH]; intros acc n Hacc Hover; simpl in *; [lia|].
  destruct (N.ltb_spec (stride_value a) (2 ^ 64)) as [Hs|Hs].
  - rewrite get_stride_fits, bind_ret, N.mod_small by (try intros _; exact Hs).
    destruct (N.ltb_spec (acc + stride_value a) (2 ^ 64)) as [Ha|Ha].
    + rewrite usize_checked_fits, bind_ret, N.mod_small by (try intros _; exact Ha).
      apply IH; lia.
    + rewrite usize_checked_overflow by exact Ha. apply bind_panic.
  - unfold get_stride. rewrite usize_checked_overflow by exact Hs. apply bind_panic.
Qed.

Lemma total_stride_firstn_succ a fields k :
  total_stride (firstn (S k) (a :: fields)) = stride_value a + total_stride (firstn k fields).
Proof. reflexivity. Qed.

Lemma bind_fields_run debug_assertions stride fields : forall offset n,
  offset < 2 ^ 64 ->
  (debug_assertions = true -> offset + total_stride fields < 2 ^ 64) ->
  exists calls,
    bind_fields drv debug_assertions program stride offset fields n = Some (tt, n, calls) /\
    pointer_offsets calls =
      map (fun k => usize_as_u32 (offset + total_stride (firstn k fields)))
          (seq 0 (length fields)) /\
    pointer_strides calls = repeat (usize_as_i32 stride) (length fields) /\
    enabled_indices calls = map attribute_index fields.
Proof.
  induction fields as [|a fields IH]; intros offset n Hoff Hfit; simpl in *.
  - exists []. repeat split.
  - destruct (attribute_location_run a n) as (qs & Hq & Hqe & _ & Hqo & Hqs).
    destruct (IH ((offset + stride_value a mod 2 ^ 64) mod 2 ^ 64) n) as (calls & Hrun & Ho & Hs & He).
    { apply mod_64_lt. }
    { intros Hd. specialize (Hfit Hd).
      rewrite (N.mod_small (stride_value a)) by lia. rewrite N.mod_small by lia. lia. }
    rewrite get_stride_fits by (intros Hd; specialize (Hfit Hd); lia).
    unfold bind at 1. rewrite Hq.
    unfold bind at 1, emit at 1. unfold bind at 1, emit at 1.
    rewrite bind_ret, usize_checked_fits, bind_ret.
    2: { intros Hd; specialize (Hfit Hd). rewrite N.mod_small; lia. }
    rewrite Hrun.
    eexists. split; [reflexivity|].
    unfold pointer_offsets, pointer_strides, enabled_indices in *.
    rewrite !flat_map_app. simpl. rewrite Hqo, Hqs, Hqe, Ho, Hs, He. simpl.
    split; [|split; reflexivity].
    rewrite N.add_0_r. f_equal.
    rewrite <- seq_shift, map_map. apply map_ext. intros k.
    rewrite total_stride_firstn_succ, usize_as_u32_add_mod.
    replace (offset + stride_value a mod 2 ^ 64 + total_stride (firstn k fields))
      with (stride_value a mod 2 ^ 64 + (offset + total_stride (firstn k fields))) by lia.
    rewrite usize_as_u32_add_mod. f_equal. lia.
Qed.

Lemma unbind_run fields : forall n,
  exists calls,
    vertex_layout_unbind drv program fields n = Some (tt, n, calls) /\
    disabled_indices calls = map attribute_index fields.
Proof.
  induction fields as [|a fields IH]; intros n; simpl.
  - exists []. repeat split.
  - destruct (attribute_location_run a n) as (qs & Hq & _ & Hqd & _ & _).
    destruct (IH n) as (calls & Hrun & Hd).
    unfold bind. rewrite Hq. cbn -[vertex_layout_unbind]. rewrite Hrun.
    eexists. split; [reflexivity|].
    unfold disabled_indices in *. rewrite !flat_map_app. simpl. rewrite Hqd, Hd. reflexivity.
Qed.

Lemma vertex_layout_bind_run debug_assertions fields n :
  (debug_assertions = true -> total_stride fields < 2 ^ 64) ->
  exists calls,
    vertex_layout_bind drv debug_assertions program fields n = Some (tt, n, calls) /\
    pointer_offsets calls =
      map (fun k => usize_as_u32 (total_stride (firstn k fields))) (seq 0 (length fields)) /\
    pointer_strides calls = repeat (usize_as_i32 (total_stride fields)) (length fields) /\
    enabled_indices calls = map attribute_index fields.
Proof.
  intros Hfit.
  destruct (bind_fields_run debug_assertions (total_stride fields mod 2 ^ 64) fields 0 n)
    as (calls & Hrun & Ho & Hs & He); [reflexivity|exact Hfit|].
  exists calls. unfold vertex_layout_bind, bind at 1.
  rewrite stride_sum_fits by (try reflexivity; exact Hfit).
  rewrite N.add_0_l, Hrun. split; [reflexivity|].
  rewrite Ho, Hs, usize_as_i32_mod_64. split; [|split; [reflexivity|exact He]].
  apply map_ext. intros k. reflexivity.
Qed.

Definition uses_matrix3_or_matrix4 (c : GlCall) : bool :=
  match c with
  | SetUniform _ (UniformMatrix3fv _ _) | SetUniform _ (UniformMatrix4fv _ _) => true
  | _ => false
  end.

Lemma filter_within_filter (f g : GlCall -> bool) l :
  (forall c, f c = true -> g c = true) ->
  List.filter f (List.filter g l) = List.filter f l.
Proof.
  intros Hfg. induction l as [|c l IH]; simpl; [reflexivity|].
  destruct (g c) eqn:Hg; simpl.
  - destruct (f c); [f_equal|]; exact IH.
  - destruct (f c) eqn:Hf; [rewrite (Hfg c Hf) in Hg; discriminate|exact IH].
Qed.

Lemma expected_uploads_no_matrix3_or_matrix4 prev us : forall i,
  List.filter uses_matrix3_or_matrix4 (expected_uploads prev i us) = [].
Proof.
  induction us as [|u us IH]; intros i; simpl; [reflexivity|].
  rewrite List.filter_app, IH, app_nil_r.
  destruct (option_uniform_type_eqb _ _); [reflexivity|].
  destruct (uniform_type u); reflexivity.
Qed.

Lemma all_expected_uploads_no_matrix3_or_matrix4 buffers : forall prev,
  List.filter uses_matrix3_or_matrix4 (all_expected_uploads prev buffers) = [].
Proof.
  induction buffers as [|[vb us] buffers IH]; intros prev; simpl; [reflexivity|].
  rewrite List.filter_app, expected_uploads_no_matrix3_or_matrix4, IH. reflexivity.
Qed.

End Proofs.

(** Extra X12: [GlShader::draw] panics exactly when debug assertions are on
    and the driver reports the new framebuffer as incomplete: the uniform
    location lookup and the [current_uniforms] indexing never go out of
    range. *)
Theorem draw_panics_only_on_incomplete_framebuffer (drv : GlDriver) (program : N)
    (debug_assertions : bool) (buffers : list (VertexBuffer * list Uniform))
    (clear_color : option ColorU) (texture_size : LogicalSize) (n : GlNames) :
  draw drv debug_assertions program buffers clear_color texture_size n = None <->
  debug_assertions = true /\ check_frame_buffer_status drv FRAMEBUFFER <> FRAMEBUFFER_COMPLETE.
Proof.
  destruct (draw_run drv program debug_assertions buffers clear_color texture_size n)
    as (names & lcalls & _ & _ & _ & _ & _ & Hrun).
  rewrite Hrun. clear Hrun.
  destruct debug_assertions; simpl;
    [destruct (N.eqb_spec (check_frame_buffer_status drv FRAMEBUFFER) FRAMEBUFFER_COMPLETE)|];
    simpl; split; try discriminate; intros; try tauto; destruct H; discriminate.
Qed.

(** Extra X13: in a completed [draw], the driver is asked for the location of
    each uniform name occurring in the buffers exactly once, whatever the
    number of buffers and uniforms carrying it. *)
Theorem draw_queries_each_uniform_once (drv : GlDriver) (program : N)
    (debug_assertions : bool) (buffers : list (VertexBuffer * list Uniform))
    (clear_color : option ColorU) (texture_size : LogicalSize) (n : GlNames)
    (tex : TextureRegistry.Texture) (n' : GlNames) (calls : list GlCall)
    (Hdraw : draw drv debug_assertions program buffers clear_color texture_size n =
             Some (tex, n', calls)) :
  exists names,
    List.filter is_uniform_query calls =
      map (fun s => GetUniformLocation program s (get_uniform_location drv program s)) names /\
    NoDup names /\ (forall s, In s names <-> In s (uniform_names buffers)).
Proof.
  destruct (draw_some_calls drv program _ _ _ _ _ _ _ _ Hdraw)
    as (names & lcalls & Hnd & Hin & _ & _ & Hf & _ & ->).
  exists names. split; [|split; assumption].
  rewrite !List.filter_app.
  rewrite (filter_layer_calls is_uniform_query lcalls); [|intros [] ?; simpl in *; congruence|exact Hf].
  rewrite (filter_all is_uniform_query (map _ names));
    [|apply Forall_forall; intros c Hc; apply list_elem_of_In, in_map_iff in Hc as (s & <- & _); reflexivity].
  destruct debug_assertions, clear_color;
    destruct (N.eqb (get_boolean_v drv MULTISAMPLE) GL_TRUE) eqn:Hms;
    unfold draw_prologue, draw_clear, draw_epilogue; rewrite ?Hms; simpl;
    rewrite ?app_nil_r; reflexivity.
Qed.

(** Extra X14: a completed [draw] issues exactly one [draw_elements] per
    vertex buffer, in the order of [buffers], each with the buffer's index
    format, its length cast to [i32], [UNSIGNED_INT] and offset 0. *)
Theorem draw_one_draw_call_per_buffer (drv : GlDriver) (program : N)
    (debug_assertions : bool) (buffers : list (VertexBuffer * list Uniform))
    (clear_color : option ColorU) (texture_size : LogicalSize) (n : GlNames)
    (tex : TextureRegistry.Texture) (n' : GlNames) (calls : list GlCall)
    (Hdraw : draw drv debug_assertions program buffers clear_color texture_size n =
             Some (tex, n', calls)) :
  List.filter is_draw_elements calls = map (fun '(vb, _) => draw_call_of vb) buffers.
Proof.
  destruct (draw_some_calls drv program _ _ _ _ _ _ _ _ Hdraw)
    as (names & lcalls & _ & _ & Hde & _ & Hf & _ & ->).
  rewrite !List.filter_app, filter_queries by reflexivity. rewrite Hde.
  destruct debug_assertions, clear_color;
    destruct (N.eqb (get_boolean_v drv MULTISAMPLE) GL_TRUE) eqn:Hms;
    unfold draw_prologue, draw_clear, draw_epilogue; rewrite ?Hms; simpl;
    rewrite ?app_nil_r; reflexivity.
Qed.

(** Extra X15: the uniform uploads of a completed [draw] are exactly
    [all_expected_uploads [] buffers]: the uniform at position [i] of a
    buffer is uploaded, to the location the driver gave for its name,
    unless the last earlier buffer with a uniform at position [i] had the
    same value there; the cache is keyed by position, not by name. *)
Theorem draw_uploads_changed_uniforms_by_position (drv : GlDriver) (program : N)
    (debug_assertions : bool) (buffers : list (VertexBuffer * list Uniform))
    (clear_color : option ColorU) (texture_size : LogicalSize) (n : GlNames)
    (tex : TextureRegistry.Texture) (n' : GlNames) (calls : list GlCall)
    (Hdraw : draw drv debug_assertions program buffers clear_color texture_size n =
             Some (tex, n', calls)) :
  List.filter is_set_uniform calls = all_expected_uploads drv program [] buffers.
Proof.
  destruct (draw_some_calls drv program _ _ _ _ _ _ _ _ Hdraw)
    as (names & lcalls & _ & _ & _ & Hsu & Hf & _ & ->).
  rewrite !List.filter_app, filter_queries by reflexivity. rewrite Hsu.
  destruct debug_assertions, clear_color;
    destruct (N.eqb (get_boolean_v drv MULTISAMPLE) GL_TRUE) eqn:Hms;
    unfold draw_prologue, draw_clear, draw_epilogue; rewrite ?Hms; simpl;
    rewrite ?app_nil_r; reflexivity.
Qed.

(** Extra X16: a completed [draw] creates one texture, one framebuffer and
    one renderbuffer, deletes the framebuffer and the renderbuffer it
    created and nothing else (the texture is not deleted), and returns the
    texture it created with the requested size. *)
Theorem draw_objects_created_and_deleted (drv : GlDriver) (program : N)
    (debug_assertions : bool) (buffers : list (VertexBuffer * list Uniform))
    (clear_color : option ColorU) (texture_size : LogicalSize) (n : GlNames)
    (tex : TextureRegistry.Texture) (n' : GlNames) (calls : list GlCall)
    (Hdraw : draw drv debug_assertions program buffers clear_color texture_size n =
             Some (tex, n', calls)) :
  exists t f r,
    List.filter is_object_call calls =
      [GenTextures t; GenFramebuffers f; GenRenderbuffers r;
       DeleteFramebuffers [f]; DeleteRenderbuffers [r]] /\
    tex = TextureRegistry.mkTexture t (width texture_size) (height texture_size).
Proof.
  destruct (draw_some_calls drv program _ _ _ _ _ _ _ _ Hdraw)
    as (names & lcalls & _ & _ & _ & _ & Hf & -> & ->).
  exists (next_texture n), (next_framebuffer n), (next_renderbuffer n).
  split; [|reflexivity].
  rewrite !List.filter_app, filter_queries by reflexivity.
  rewrite (filter_layer_calls is_object_call lcalls); [|intros [] ?; simpl in *; congruence|exact Hf].
  destruct debug_assertions, clear_color;
    destruct (N.eqb (get_boolean_v drv MULTISAMPLE) GL_TRUE) eqn:Hms;
    unfold draw_prologue, draw_clear, draw_epilogue; rewrite ?Hms; simpl;
    rewrite ?app_nil_r; reflexivity.
Qed.

(** Extra X17: a completed [draw] disables multisampling before its first
    draw call and re-enables it after the last one only if it was enabled
    when [draw] started; no other call touches [MULTISAMPLE]. *)
Theorem draw_multisample_off_while_drawing (drv : GlDriver) (program : N)
    (debug_assertions : bool) (buffers : list (VertexBuffer * list Uniform))
    (clear_color : option ColorU) (texture_size : LogicalSize) (n : GlNames)
    (tex : TextureRegistry.Texture) (n' : GlNames) (calls : list GlCall)
    (Hdraw : draw drv debug_assertions program buffers clear_color texture_size n =
             Some (tex, n', calls)) :
  List.filter (fun c => is_multisample_toggle c || is_draw_elements c) calls =
    Disable MULTISAMPLE :: map (fun '(vb, _) => draw_call_of vb) buffers ++
    (if N.eqb (get_boolean_v drv MULTISAMPLE) GL_TRUE then [Enable MULTISAMPLE] else []).
Proof.
  destruct (draw_some_calls drv program _ _ _ _ _ _ _ _ Hdraw)
    as (names & lcalls & _ & _ & Hde & _ & Hf & _ & ->).
  rewrite !List.filter_app, filter_queries by reflexivity.
  rewrite (filter_layers _ is_draw_elements lcalls); [|intros [] ?; simpl in *; congruence|exact Hf].
  rewrite Hde.
  destruct debug_assertions, clear_color;
    destruct (N.eqb (get_boolean_v drv MULTISAMPLE) GL_TRUE) eqn:Hms;
    unfold draw_prologue, draw_clear, draw_epilogue; rewrite ?Hms; simpl;
    rewrite ?app_nil_r; reflexivity.
Qed.

(** Extra X18: a completed [draw] binds its new framebuffer and the shader
    program before its first draw call, and after the last one binds back
    the framebuffer and the program that were current when it started. *)
Theorem draw_restores_framebuffer_and_program (drv : GlDriver) (program : N)
    (debug_assertions : bool) (buffers : list (VertexBuffer * list Uniform))
    (clear_color : option ColorU) (texture_size : LogicalSize) (n : GlNames)
    (tex : TextureRegistry.Texture) (n' : GlNames) (calls : list GlCall)
    (Hdraw : draw drv debug_assertions program buffers clear_color texture_size n =
             Some (tex, n', calls)) :
  exists f,
    List.filter (fun c => is_target_binding c || is_draw_elements c) calls =
      [BindFramebuffer FRAMEBUFFER f; UseProgram program] ++
      map (fun '(vb, _) => draw_call_of vb) buffers ++
      [BindFramebuffer FRAMEBUFFER (i32_as_u32 (get_integer_v drv FRAMEBUFFER));
       UseProgram (i32_as_u32 (get_integer_v drv CURRENT_PROGRAM))] /\
    In (GenFramebuffers f) calls.
Proof.
  destruct (draw_some_calls drv program _ _ _ _ _ _ _ _ Hdraw)
    as (names & lcalls & _ & _ & Hde & _ & Hf & _ & ->).
  exists (next_framebuffer n). split.
  - rewrite !List.filter_app, filter_queries by reflexivity.
    rewrite (filter_layers _ is_draw_elements lcalls); [|intros [] ?; simpl in *; congruence|exact Hf].
    rewrite Hde.
    destruct debug_assertions, clear_color;
      destruct (N.eqb (get_boolean_v drv MULTISAMPLE) GL_TRUE) eqn:Hms;
      unfold draw_prologue, draw_clear, draw_epilogue; rewrite ?Hms; simpl;
      rewrite ?app_nil_r; reflexivity.
  - apply in_or_app. left. unfold draw_prologue. simpl. tauto.
Qed.

(** Extra X19: when its stride sum fits in a [usize] or debug assertions
    are off, [VertexLayout::bind] completes without allocating GL names;
    the [k]-th attribute pointer it sets has as offset the sum of the
    strides of the [k] attributes before it, cast to [u32], and every
    pointer has as stride the sum of all strides, cast to [i32]: a [usize]
    wrap-around without debug assertions does not show after the casts. *)
Theorem vertex_layout_bind_offsets_are_prefix_sums (drv : GlDriver) (program : N)
    (debug_assertions : bool) (fields : list VertexAttribute) (n : GlNames)
    (Hfit : debug_assertions = true -> (total_stride fields < 2 ^ 64)%N) :
  exists calls,
    vertex_layout_bind drv debug_assertions program fields n = Some (tt, n, calls) /\
    pointer_offsets calls =
      map (fun k => usize_as_u32 (total_stride (firstn k fields))) (seq 0 (length fields)) /\
    pointer_strides calls = repeat (usize_as_i32 (total_stride fields)) (length fields).
Proof.
  destruct (vertex_layout_bind_run drv program debug_assertions fields n Hfit)
    as (calls & Hrun & Ho & Hs & _).
  exists calls. split; [exact Hrun|]. split; [exact Ho|exact Hs].
Qed.

(** Extra X22: [VertexLayout::bind] panics exactly when debug assertions
    are on and the sum of the strides of its attributes does not fit in a
    [usize]. *)
Theorem vertex_layout_bind_panics_on_stride_overflow (drv : GlDriver) (program : N)
    (debug_assertions : bool) (fields : list VertexAttribute) (n : GlNames) :
  vertex_layout_bind drv debug_assertions program fields n = None <->
  debug_assertions = true /\ (2 ^ 64 <= total_stride fields)%N.
Proof.
  destruct debug_assertions eqn:Hd; [destruct (N.ltb_spec (total_stride fields) (2 ^ 64)) as [Hlt|Hge]|].
  - destruct (vertex_layout_bind_run drv program true fields n (fun _ => Hlt))
      as (calls & Hrun & _). rewrite Hrun.
    split; [discriminate|]. intros [_ Hge]. lia.
  - split; [intros _; split; [reflexivity|exact Hge]|intros _].
    unfold vertex_layout_bind, bind at 1.
    rewrite stride_sum_overflow; [reflexivity|reflexivity|exact Hge].
  - destruct (vertex_layout_bind_run drv program false fields n (fun H => ltac:(discriminate H)))
      as (calls & Hrun & _). rewrite Hrun.
    split; [discriminate|]. intros [H _]. discriminate H.
Qed.

(** Extra X20: when [VertexLayout::bind] completes (its stride sum fits
    in a [usize] or debug assertions are off), [VertexLayout::unbind]
    disables exactly the vertex attribute arrays that [bind] enables, one
    per attribute, in the same order; neither call allocates GL names. *)
Theorem vertex_layout_unbind_undoes_bind (drv : GlDriver) (program : N)
    (debug_assertions : bool) (fields : list VertexAttribute) (n : GlNames)
    (Hfit : debug_assertions = true -> (total_stride fields < 2 ^ 64)%N) :
  exists bind_calls unbind_calls,
    vertex_layout_bind drv debug_assertions program fields n = Some (tt, n, bind_calls) /\
    vertex_layout_unbind drv program fields n = Some (tt, n, unbind_calls) /\
    enabled_indices bind_calls = disabled_indices unbind_calls /\
    length (enabled_indices bind_calls) = length fields.
Proof.
  destruct (vertex_layout_bind_run drv program debug_assertions fields n Hfit)
    as (c1 & H1 & _ & _ & He).
  destruct (unbind_run drv program fields n) as (c2 & H2 & Hd).
  exists c1, c2. split; [exact H1|]. split; [exact H2|].
  rewrite He, Hd. split; [reflexivity|]. apply length_map.
Qed.

(** Extra X21: a completed [draw] never calls [uniform_matrix_3fv] or
    [uniform_matrix_4fv], whatever uniforms its buffers carry: the
    [Matrix3] and [Matrix4] uniforms it uploads go through
    [uniform_matrix_2fv]. *)
Theorem draw_never_uploads_matrix3_or_matrix4 (drv : GlDriver) (program : N)
    (debug_assertions : bool) (buffers : list (VertexBuffer * list Uniform))
    (clear_color : option ColorU) (texture_size : LogicalSize) (n : GlNames)
    (tex : TextureRegistry.Texture) (n' : GlNames) (calls : list GlCall)
    (Hdraw : draw drv debug_assertions program buffers clear_color texture_size n =
             Some (tex, n', calls)) :
  List.filter uses_matrix3_or_matrix4 calls = [].
Proof.
  destruct (draw_some_calls drv program _ _ _ _ _ _ _ _ Hdraw)
    as (names & lcalls & _ & _ & _ & Hsu & Hf & _ & ->).
  rewrite !List.filter_app, filter_queries by reflexivity.
  rewrite <- (filter_within_filter uses_matrix3_or_matrix4 is_set_uniform lcalls)
    by (intros [] ?; simpl in *; congruence).
  rewrite Hsu, all_expected_uploads_no_matrix3_or_matrix4.
  destruct debug_assertions, clear_color;
    destruct (N.eqb (get_boolean_v drv MULTISAMPLE) GL_TRUE) eqn:Hms;
    unfold draw_prologue, draw_clear, draw_epilogue; rewrite ?Hms; simpl;
    rewrite ?app_nil_r; reflexivity.
Qed.

Lemma draw_queries_each_uniform_once_witness :
  let drv := mkGlDriver (fun _ => 1%N) (fun _ => 7%Z)
                        (fun _ s => Z.of_nat (String.length s)) (fun _ _ => 3%Z)
                        (fun _ => FRAMEBUFFER_COMPLETE) in
  let vb := mkVertexBuffer 1%N 2%N 6%N Triangles in
  let us := [mkUniform "a" (Float 1%Q); mkUniform "bb" (Int 2)] in
  let buffers := [(vb, us); (vb, us); (vb, [mkUniform "ccc" (Float 1%Q)])] in
  match draw drv true 5%N buffers (Some (mkColorU 255%N 0%N 0%N 255%N)) (mkLogicalSize 4%Q 4%Q) (mkGlNames 0 0 0) with
  | Some (tex, n', calls) =>
      exists names,
        List.filter is_uniform_query calls =
          map (fun s => GetUniformLocation 5%N s (get_uniform_location drv 5%N s)) names /\
        NoDup names /\ (forall s, In s names <-> In s (uniform_names buffers))
  | None => False
  end.
Proof.
  cbv zeta.
  match goal with |- match ?e with _ => _ end => destruct e as [[[tex n'] calls]|] eqn:Hd end;
    [|vm_compute in Hd; discriminate].
  exact (draw_queries_each_uniform_once _ _ _ _ _ _ _ _ _ _ Hd).
Defined.

Lemma draw_one_draw_call_per_buffer_witness :
  let drv := mkGlDriver (fun _ => 1%N) (fun _ => 7%Z)
                        (fun _ s => Z.of_nat (String.length s)) (fun _ _ => 3%Z)
                        (fun _ => FRAMEBUFFER_COMPLETE) in
  let vb := mkVertexBuffer 1%N 2%N 6%N Triangles in
  let us := [mkUniform "a" (Float 1%Q); mkUniform "bb" (Int 2)] in
  let buffers := [(vb, us); (vb, us); (vb, [mkUniform "ccc" (Float 1%Q)])] in
  match draw drv true 5%N buffers (Some (mkColorU 255%N 0%N 0%N 255%N)) (mkLogicalSize 4%Q 4%Q) (mkGlNames 0 0 0) with
  | Some (tex, n', calls) =>
      List.filter is_draw_elements calls = map (fun '(vb, _) => draw_call_of vb) buffers
  | None => False
  end.
Proof.
  cbv zeta.
  match goal with |- match ?e with _ => _ end => destruct e as [[[tex n'] calls]|] eqn:Hd end;
    [|vm_compute in Hd; discriminate].
  exact (draw_one_draw_call_per_buffer _ _ _ _ _ _ _ _ _ _ Hd).
Defined.

Lemma draw_uploads_changed_uniforms_by_position_witness :
  let drv := mkGlDriver (fun _ => 1%N) (fun _ => 7%Z)
                        (fun _ s => Z.of_nat (String.length s)) (fun _ _ => 3%Z)
                        (fun _ => FRAMEBUFFER_COMPLETE) in
  let vb := mkVertexBuffer 1%N 2%N 6%N Triangles in
  let us := [mkUniform "a" (Float 1%Q); mkUniform "bb" (Int 2)] in
  let buffers := [(vb, us); (vb, us); (vb, [mkUniform "ccc" (Float 1%Q)])] in
  match draw drv true 5%N buffers (Some (mkColorU 255%N 0%N 0%N 255%N)) (mkLogicalSize 4%Q 4%Q) (mkGlNames 0 0 0) with
  | Some (tex, n', calls) =>
      List.filter is_set_uniform calls = all_expected_uploads drv 5%N [] buffers
  | None => False
  end.
Proof.
  cbv zeta.
  match goal with |- match ?e with _ => _ end => destruct e as [[[tex n'] calls]|] eqn:Hd end;
    [|vm_compute in Hd; discriminate].
  exact (draw_uploads_changed_uniforms_by_position _ _ _ _ _ _ _ _ _ _ Hd).
Defined.

Lemma draw_objects_created_and_deleted_witness :
  let drv := mkGlDriver (fun _ => 1%N) (fun _ => 7%Z)
                        (fun _ s => Z.of_nat (String.length s)) (fun _ _ => 3%Z)
                        (fun _ => FRAMEBUFFER_COMPLETE) in
  let vb := mkVertexBuffer 1%N 2%N 6%N Triangles in
  let us := [mkUniform "a" (Float 1%Q); mkUniform "bb" (Int 2)] in
  let buffers := [(vb, us); (vb, us); (vb, [mkUniform "ccc" (Float 1%Q)])] in
  match draw drv true 5%N buffers (Some (mkColorU 255%N 0%N 0%N 255%N)) (mkLogicalSize 4%Q 4%Q) (mkGlNames 0 0 0) with
  | Some (tex, n', calls) =>
      exists t f r,
        List.filter is_object_call calls =
          [GenTextures t; GenFramebuffers f; GenRenderbuffers r;
           DeleteFramebuffers [f]; DeleteRenderbuffers [r]] /\
        tex = TextureRegistry.mkTexture t 4%Q 4%Q
  | None => False
  end.
Proof.
  cbv zeta.
  match goal with |- match ?e with _ => _ end => destruct e as [[[tex n'] calls]|] eqn:Hd end;
    [|vm_compute in Hd; discriminate].
  exact (draw_objects_created_and_deleted _ _ _ _ _ _ _ _ _ _ Hd).
Defined.

Lemma draw_multisample_off_while_drawing_witness :
  let drv := mkGlDriver (fun _ => 1%N) (fun _ => 7%Z)
                        (fun _ s => Z.of_nat (String.length s)) (fun _ _ => 3%Z)
                        (fun _ => FRAMEBUFFER_COMPLETE) in
  let vb := mkVertexBuffer 1%N 2%N 6%N Triangles in
  let us := [mkUniform "a" (Float 1%Q); mkUniform "bb" (Int 2)] in
  let buffers := [(vb, us); (vb, us); (vb, [mkUniform "ccc" (Float 1%Q)])] in
  match draw drv true 5%N buffers (Some (mkColorU 255%N 0%N 0%N 255%N)) (mkLogicalSize 4%Q 4%Q) (mkGlNames 0 0 0) with
  | Some (tex, n', calls) =>
      List.filter (fun c => is_multisample_toggle c || is_draw_elements c) calls =
        Disable MULTISAMPLE :: map (fun '(vb, _) => draw_call_of vb) buffers ++
        (if N.eqb (get_boolean_v drv MULTISAMPLE) GL_TRUE then [Enable MULTISAMPLE] else [])
  | None => False
  end.
Proof.
  cbv zeta.
  match goal with |- match ?e with _ => _ end => destruct e as [[[tex n'] calls]|] eqn:Hd end;
    [|vm_compute in Hd; discriminate].
  exact (draw_multisample_off_while_drawing _ _ _ _ _ _ _ _ _ _ Hd).
Defined.

Lemma draw_restores_framebuffer_and_program_witness :
  let drv := mkGlDriver (fun _ => 1%N) (fun _ => 7%Z)
                        (fun _ s => Z.of_nat (String.length s)) (fun _ _ => 3%Z)
                        (fun _ => FRAMEBUFFER_COMPLETE) in
  let vb := mkVertexBuffer 1%N 2%N 6%N Triangles in
  let us := [mkUniform "a" (Float 1%Q); mkUniform "bb" (Int 2)] in
  let buffers := [(vb, us); (vb, us); (vb, [mkUniform "ccc" (Float 1%Q)])] in
  match draw drv true 5%N buffers (Some (mkColorU 255%N 0%N 0%N 255%N)) (mkLogicalSize 4%Q 4%Q) (mkGlNames 0 0 0) with
  | Some (tex, n', calls) =>
      exists f,
        List.filter (fun c => is_target_binding c || is_draw_elements c) calls =
          [BindFramebuffer FRAMEBUFFER f; UseProgram 5%N] ++
          map (fun '(vb, _) => draw_call_of vb) buffers ++
          [BindFramebuffer FRAMEBUFFER (i32_as_u32 (get_integer_v drv FRAMEBUFFER));
           UseProgram (i32_as_u32 (get_integer_v drv CURRENT_PROGRAM))] /\
        In (GenFramebuffers f) calls
  | None => False
  end.
Proof.
  cbv zeta.
  match goal with |- match ?e with _ => _ end => destruct e as [[[tex n'] calls]|] eqn:Hd end;
    [|vm_compute in Hd; discriminate].
  exact (draw_restores_framebuffer_and_program _ _ _ _ _ _ _ _ _ _ Hd).
Defined.

Lemma vertex_layout_bind_offsets_are_prefix_sums_witness :
  let drv := mkGlDriver (fun _ => 1%N) (fun _ => 7%Z)
                        (fun _ s => Z.of_nat (String.length s)) (fun _ _ => 3%Z)
                        (fun _ => FRAMEBUFFER_COMPLETE) in
  let fields := [mkVertexAttribute "vAttrXY" None AttrFloat 2%N;
                 mkVertexAttribute "vColor" (Some 3%N) AttrUnsignedByte 4%N;
                 mkVertexAttribute "vWeight" None AttrDouble 1%N] in
  exists calls,
    vertex_layout_bind drv true 5%N fields (mkGlNames 0 0 0) = Some (tt, mkGlNames 0 0 0, calls) /\
    pointer_offsets calls =
      map (fun k => usize_as_u32 (total_stride (firstn k fields))) (seq 0 (length fields)) /\
    pointer_strides calls = repeat (usize_as_i32 (total_stride fields)) (length fields).
Proof.
  cbv zeta.
  apply vertex_layout_bind_offsets_are_prefix_sums. intros _. vm_compute. reflexivity.
Defined.

Lemma vertex_layout_unbind_undoes_bind_witness :
  let drv := mkGlDriver (fun _ => 1%N) (fun _ => 7%Z)
                        (fun _ s => Z.of_nat (String.length s)) (fun _ _ => 3%Z)
                        (fun _ => FRAMEBUFFER_COMPLETE) in
  let fields := [mkVertexAttribute "vAttrXY" None AttrFloat (2 ^ 62)%N;
                 mkVertexAttribute "vColor" (Some 3%N) AttrUnsignedByte 4%N] in
  exists bind_calls unbind_calls,
    vertex_layout_bind drv false 5%N fields (mkGlNames 0 0 0) =
      Some (tt, mkGlNames 0 0 0, bind_calls) /\
    vertex_layout_unbind drv 5%N fields (mkGlNames 0 0 0) = Some (tt, mkGlNames 0 0 0, unbind_calls) /\
    enabled_indices bind_calls = disabled_indices unbind_calls /\
    length (enabled_indices bind_calls) = length fields.
Proof.
  cbv zeta.
  apply vertex_layout_unbind_undoes_bind. intros H. discriminate H.
Defined.

Lemma draw_never_uploads_matrix3_or_matrix4_witness :
  let drv := mkGlDriver (fun _ => 1%N) (fun _ => 7%Z)
                        (fun _ s => Z.of_nat (String.length s)) (fun _ _ => 3%Z)
                        (fun _ => FRAMEBUFFER_COMPLETE) in
  let vb := mkVertexBuffer 1%N 2%N 6%N Triangles in
  let us := [mkUniform "m3" (Matrix3 false (repeat 1%Q 9));
             mkUniform "m4" (Matrix4 true (repeat 0%Q 16))] in
  let buffers := [(vb, us); (vb, [mkUniform "m3" (Matrix3 false (repeat 2%Q 9))])] in
  match draw drv true 5%N buffers None (mkLogicalSize 4%Q 4%Q) (mkGlNames 0 0 0) with
  | Some (tex, n', calls) => List.filter uses_matrix3_or_matrix4 calls = []
  | None => False
  end.
Proof.
  cbv zeta.
  match goal with |- match ?e with _ => _ end => destruct e as [[[tex n'] calls]|] eqn:Hd end;
    [|vm_compute in Hd; discriminate].
  exact (draw_never_uploads_matrix3_or_matrix4 _ _ _ _ _ _ _ _ _ _ Hd).
Defined.

End GlDrawExtraProofs.
